(** * OnlineBrokerage: the Hedge learner and the GFT mechanisms

    A shallow embedding of [learners/experts.py]: the multiplicative-weights
    learner [Hedge], the two-phase mechanism [GFTMax] and its constrained
    variant [ConstrainedGFTMax].

    NumPy's float64 values are modelled as real numbers ([R]): sums,
    products, [np.exp], [np.log] and [np.sqrt] are the exact real
    functions, and a comparison of two floats is the order of [R], read
    back as a [bool].  One-dimensional arrays are lists, and an elementwise
    operation on arrays of one length is a [map] or a [zip_with].

    The real numbers stand for the floats where the two differ by the
    rounding of a number only.  Where the rounding decides what the code
    does, the floats are binary64 numbers ([Float64], the IEEE 754
    operations of [SpecFloat] at precision 53): the resolution
    [int(np.sqrt(T))] of a mechanism, and the learner [Hedge64], whose two
    updates compare rounded prices with the valuations.  *)

From Stdlib Require Import Reals Lra Lia List ZArith Bool.
From Stdlib Require SpecFloat.
Import ListNotations.

Open Scope R_scope.

(** ** Scalars *)

(** [x <= y], [x < y] and [x >= y] on floats, as the booleans Python
    computes. *)
Definition Rleb (x y : R) : bool := if Rle_dec x y then true else false.
Definition Rltb (x y : R) : bool := if Rlt_dec x y then true else false.
Definition Rgeb (x y : R) : bool := if Rge_dec x y then true else false.

(** A boolean used as a number ([True] is 1, [False] is 0). *)
Definition b2r (b : bool) : R := if b then 1 else 0.

(** Elementwise binary operation on two arrays. *)
Fixpoint zip_with {A B C : Type} (f : A -> B -> C) (xs : list A) (ys : list B)
  : list C :=
  match xs, ys with
  | x :: xs', y :: ys' => f x y :: zip_with f xs' ys'
  | _, _ => []
  end.

(** [np.sum] *)
Definition sum (xs : list R) : R := fold_right Rplus 0 xs.

(** An expert is a row of the experts array: column 0 is the price asked
    for the seller, column 1 the price bid to the buyer. *)
Abbreviation Expert := (R * R)%type (only parsing).

(** The exceptions the constructors can end in. *)
Inductive exn : Type :=
| ValueError
| ZeroDivisionError
| TypeError
| OverflowError.

Inductive result (A : Type) : Type :=
| Ok (a : A)
| Raise (e : exn).
Arguments Ok {A} a.
Arguments Raise {A} e.

Definition bind {A B : Type} (r : result A) (k : A -> result B) : result B :=
  match r with
  | Ok a => k a
  | Raise e => Raise e
  end.

(** ** Binary64 numbers *)

Module Float64.

Import SpecFloat.

Definition t : Type := spec_float.

Definition prec : Z := 53.
Definition emax : Z := 1024.

(** The float of a Python integer (of an int64 or a uint64 of NumPy): the
    nearest binary64 number, ties to even. *)
Definition of_Z (n : Z) : t := binary_normalize prec emax n 0 false.

Definition zero : t := of_Z 0.
Definition one : t := of_Z 1.

(** A boolean, or the integer [1 - b], used as a float. *)
Definition of_bool (b : bool) : t := of_Z (Z.b2z b).

Definition opp (x : t) : t := SFopp x.
Definition add (x y : t) : t := SFadd prec emax x y.
Definition sub (x y : t) : t := SFsub prec emax x y.
Definition mul (x y : t) : t := SFmul prec emax x y.
Definition div (x y : t) : t := SFdiv prec emax x y.
Definition sqrt (x : t) : t := SFsqrt prec emax x.

(** [x <= y] and [x >= y]: false when an operand is nan. *)
Definition leb (x y : t) : bool := SFleb x y.
Definition geb (x y : t) : bool := SFleb y x.

(** [int(x)] on a float: truncation towards zero; [int] raises
    [ValueError] on nan and [OverflowError] on an infinity. *)
Definition int (x : t) : result Z :=
  match x with
  | S754_zero _ => Ok 0%Z
  | S754_infinity _ => Raise OverflowError
  | S754_nan => Raise ValueError
  | S754_finite s m e =>
      let a := (if 0 <=? e then Zpos m * 2 ^ e else Zpos m / 2 ^ (- e))%Z in
      Ok (if s then (- a)%Z else a)
  end.

End Float64.

(** ** class Hedge *)

Module Hedge.

Record t : Type := mk {
  experts : list Expert;
  T : Z;
  no_experts : nat;
  weights : list R;
  epsilon : R;
  gft : list R
}.

(** [__init__].  For an empty list or [T <= 0] NumPy's [epsilon] is inf or
    nan, which [R] does not have: the field [epsilon] is the rate of the
    code for a non-empty list and a positive [T] only, and what is proved
    of the rate of a learner is proved under these two conditions. *)
Definition init (experts : list Expert) (T : Z) : t :=
  let no_experts := length experts in
  {| experts := experts;
     T := T;
     no_experts := no_experts;
     weights := map (fun one => one / INR no_experts) (repeat 1 no_experts);
     epsilon := sqrt (ln (INR no_experts) / IZR T);
     gft := repeat 0 no_experts |}.

(** The call [Hedge(experts, T)].  [__init__] checks nothing: for an empty
    or a one-element list, and for [T <= 0], NumPy computes [np.log], the
    division and the root with a warning at most.  The division converts
    the Python integer [T] to a float, which raises [OverflowError] when
    [T] rounds to a magnitude beyond the largest float,
    [2 ^ 1024 - 2 ^ 971]. *)
Definition new (experts : list Expert) (T : Z) : result t :=
  if (2 ^ 1024 - 2 ^ 970 <=? Z.abs T)%Z then Raise OverflowError
  else Ok (init experts T).

(** [self.weights / np.sum(self.weights)] *)
Definition probabilities (h : t) : list R :=
  map (fun w => w / sum (weights h)) (weights h).

(** [choose_action]: [np.random.choice] draws an index [e] below
    [no_experts] that has positive probability, and the method returns
    row [e].  The draw is the only non-determinism, so the method is a
    relation between the learner and the returned expert.  (A float weight
    can underflow to 0 where the real weight is positive, and when all of
    them do the division gives nan and [np.random.choice] raises: the
    relation describes the draws of a learner whose exponents
    [epsilon * loss] have stayed within the range of [np.exp].) *)
Definition choose_action (h : t) (action : Expert) : Prop :=
  exists e : nat,
    (e < no_experts h)%nat /\
    0 < nth e (probabilities h) 0 /\
    nth_error (experts h) e = Some action.

(** [update_weights].  [indicator_s * indicator_b] is the product of two
    boolean arrays, their elementwise conjunction; multiplied by a float
    it counts as 1 or 0.  (The column slices need a non-empty experts
    array, as every learner of a mechanism has.) *)
Definition update_weights (h : t) (hidden_s hidden_b : R) : t :=
  let indicator_s := map (fun e => Rleb hidden_s (fst e)) (experts h) in
  let indicator_b := map (fun e => Rleb (snd e) hidden_b) (experts h) in
  let gft_diff := hidden_b - hidden_s in
  let gft_round :=
    map (fun ind => b2r ind * gft_diff)
        (zip_with andb indicator_s indicator_b) in
  let gft_losses :=
    if Rgeb hidden_b hidden_s
    then map (fun ind => (1 - b2r ind) * gft_diff)
             (zip_with andb indicator_s indicator_b)
    else gft_round in
  {| experts := experts h;
     T := T h;
     no_experts := no_experts h;
     weights := zip_with Rmult (weights h)
                  (map (fun l => exp (- epsilon h * l)) gft_losses);
     epsilon := epsilon h;
     gft := zip_with Rplus (gft h) gft_round |}.

(** [update_weights_with_rescaling].  The rescaled prices [p] and [q] are
    the exact real numbers here; [Hedge64] has the rounded ones. *)
Definition update_weights_with_rescaling
    (h : t) (hidden_s hidden_b s_dot b_dot : R) : t :=
  let rescaling_factor := (b_dot - s_dot) ^ 2 in
  let p := map (fun e => s_dot + fst e * rescaling_factor) (experts h) in
  let q := map (fun e => b_dot - (1 - snd e) * rescaling_factor) (experts h) in
  let indicator_s := map (fun p_e => Rleb hidden_s p_e) p in
  let indicator_b := map (fun q_e => Rleb q_e hidden_b) q in
  let gft_diff := hidden_b - hidden_s in
  let gft_round :=
    map (fun ind => b2r ind * gft_diff)
        (zip_with andb indicator_s indicator_b) in
  let gft_losses :=
    if Rgeb hidden_b hidden_s
    then map (fun ind => (1 - b2r ind) * gft_diff)
             (zip_with andb indicator_s indicator_b)
    else gft_round in
  {| experts := experts h;
     T := T h;
     no_experts := no_experts h;
     weights := zip_with Rmult (weights h)
                  (map (fun l => exp (- epsilon h * l)) gft_losses);
     epsilon := epsilon h;
     gft := zip_with Rplus (gft h) gft_round |}.

(** What [__init__] establishes and both updates keep: the three arrays
    have [no_experts] entries and every weight is positive. *)
Definition wf (h : t) : Prop :=
  length (experts h) = no_experts h /\
  length (weights h) = no_experts h /\
  length (gft h) = no_experts h /\
  Forall (fun w => 0 < w) (weights h).

(** [np.argmax] on a non-empty array: the index of the first maximum.  The
    scan keeps the best index so far and moves it only to a strictly
    larger entry. *)
Fixpoint argmax_from (best : nat) (best_v : R) (i : nat) (xs : list R) : nat :=
  match xs with
  | [] => best
  | x :: xs' =>
      if Rltb best_v x
      then argmax_from i x (S i) xs'
      else argmax_from best best_v (S i) xs'
  end.

(** [get_best_expert].  [np.argmax] raises [ValueError] on an empty array;
    the experts array has as many rows as [gft] has entries, so the index
    is a row of it. *)
Definition get_best_expert (h : t) : result (Expert * R) :=
  match gft h with
  | [] => Raise ValueError
  | g :: gs =>
      let best_expert_index := argmax_from 0 g 1 gs in
      Ok (nth best_expert_index (experts h) (0, 0),
          nth best_expert_index (gft h) 0)
  end.

End Hedge.

(** ** class Hedge, on binary64 numbers

    The state and the two updates of [Hedge] with the arithmetic of the
    code: every sum, difference and product is rounded to binary64, and the
    comparisons are those of the floats.  [np.exp] is a function of the
    platform's library; the updates take it as the argument [np_exp]. *)

Module Hedge64.

Record t : Type := mk {
  experts : list (Float64.t * Float64.t);
  T : Z;
  no_experts : nat;
  weights : list Float64.t;
  epsilon : Float64.t;
  gft : list Float64.t
}.

(** [update_weights].  [(indicator_s * indicator_b) * gft_diff] multiplies
    the float of a boolean by a float, and [1 - (indicator_s * indicator_b)]
    is an integer, 0 or 1, before it is multiplied. *)
Definition update_weights
    (np_exp : Float64.t -> Float64.t) (h : t) (hidden_s hidden_b : Float64.t)
  : t :=
  let indicator_s := map (fun e => Float64.leb hidden_s (fst e)) (experts h) in
  let indicator_b := map (fun e => Float64.leb (snd e) hidden_b) (experts h) in
  let gft_diff := Float64.sub hidden_b hidden_s in
  let gft_round :=
    map (fun ind => Float64.mul (Float64.of_bool ind) gft_diff)
        (zip_with andb indicator_s indicator_b) in
  let gft_losses :=
    if Float64.geb hidden_b hidden_s
    then map (fun ind => Float64.mul (Float64.of_bool (negb ind)) gft_diff)
             (zip_with andb indicator_s indicator_b)
    else gft_round in
  {| experts := experts h;
     T := T h;
     no_experts := no_experts h;
     weights := zip_with Float64.mul (weights h)
                  (map (fun l => np_exp (Float64.mul (Float64.opp (epsilon h)) l))
                       gft_losses);
     epsilon := epsilon h;
     gft := zip_with Float64.add (gft h) gft_round |}.

(** [update_weights_with_rescaling]; the square [(b_dot - s_dot)**2] is the
    rounded product of the difference with itself. *)
Definition update_weights_with_rescaling
    (np_exp : Float64.t -> Float64.t) (h : t)
    (hidden_s hidden_b s_dot b_dot : Float64.t) : t :=
  let rescaling_factor :=
    Float64.mul (Float64.sub b_dot s_dot) (Float64.sub b_dot s_dot) in
  let p :=
    map (fun e => Float64.add s_dot (Float64.mul (fst e) rescaling_factor))
        (experts h) in
  let q :=
    map (fun e =>
           Float64.sub b_dot
             (Float64.mul (Float64.sub Float64.one (snd e)) rescaling_factor))
        (experts h) in
  let indicator_s := map (fun p_e => Float64.leb hidden_s p_e) p in
  let indicator_b := map (fun q_e => Float64.leb q_e hidden_b) q in
  let gft_diff := Float64.sub hidden_b hidden_s in
  let gft_round :=
    map (fun ind => Float64.mul (Float64.of_bool ind) gft_diff)
        (zip_with andb indicator_s indicator_b) in
  let gft_losses :=
    if Float64.geb hidden_b hidden_s
    then map (fun ind => Float64.mul (Float64.of_bool (negb ind)) gft_diff)
             (zip_with andb indicator_s indicator_b)
    else gft_round in
  {| experts := experts h;
     T := T h;
     no_experts := no_experts h;
     weights := zip_with Float64.mul (weights h)
                  (map (fun l => np_exp (Float64.mul (Float64.opp (epsilon h)) l))
                       gft_losses);
     epsilon := epsilon h;
     gft := zip_with Float64.add (gft h) gft_round |}.

End Hedge64.

(** ** Python integers *)

(** [range(n)] *)
Definition range (n : Z) : list Z := map Z.of_nat (seq 0 (Z.to_nat n)).

(** [k / K] on two Python integers: true division, which raises when the
    divisor is 0. *)
Definition truediv (k K : Z) : result R :=
  if (K =? 0)%Z then Raise ZeroDivisionError else Ok (IZR k / IZR K).

(** [int(x)] on a float: truncation towards zero. *)
Definition int (x : R) : Z :=
  if Rleb 0 x then Int_part x else (- Int_part (- x))%Z.

(** A loop that appends to one list, [body] giving what an iteration
    appends; the first iteration that raises ends the loop. *)
Fixpoint for_append {A B : Type} (body : A -> result (list B)) (xs : list A)
  : result (list B) :=
  match xs with
  | [] => Ok []
  | x :: xs' =>
      bind (body x) (fun ys =>
      bind (for_append body xs') (fun zs => Ok (ys ++ zs)))
  end.

(** ** The environment *)

(** The collaborator of the mechanisms: the valuations [(hidden_s,
    hidden_b)] and the bounds [(s_dot, b_dot)] of each round. *)
Record Environment : Type := {
  get_valuations : nat -> R * R;
  get_constraints : nat -> R * R
}.

(** ** class GFTMax *)

Module GFTMax.

Record t : Type := mk {
  budget : R;
  gft : R;
  budget_threshold : R;
  K : Z;
  T : Z;
  environment : Environment;
  run_profit_max : bool;
  price_grid_F : list Expert;
  price_grid_H : list Expert;
  hedge_profit : Hedge.t;
  hedge_gft : Hedge.t
}.

(** What the inner loop of [create_multiplicative_grid] appends for the
    exponent [i] around the diagonal point [g_k]. *)
Definition around (g_k : R) (i : Z) : list Expert :=
  (if Rgeb (g_k - powerRZ 2 (- i)) 0
   then [(g_k - powerRZ 2 (- i), g_k)] else [])
  ++
  (if Rleb (g_k + powerRZ 2 (- i)) 1
   then [(g_k, g_k + powerRZ 2 (- i))] else []).

(** [create_multiplicative_grid] *)
Definition create_multiplicative_grid (K : Z) : result (list Expert) :=
  for_append
    (fun k =>
       bind (truediv k K) (fun g_k =>
       Ok ((g_k, g_k)
             :: flat_map (around g_k) (range (int (ln (IZR K) + 1))))))
    (range (K + 1)).

(** [create_additive_grid] ([K] is not 0 when the body runs). *)
Definition create_additive_grid (K : Z) : list Expert :=
  map (fun i => (IZR (i + 1) / IZR K, IZR i / IZR K)) (range K).

(** [int(np.sqrt(T))].  [np.sqrt] takes a Python integer as an int64 or,
    above the int64 range, as a uint64, and raises [TypeError] on an
    integer outside both.  The root is the binary64 root of the float of
    [T], and [int] truncates it: for a negative [T] the root is nan and
    [int] raises [ValueError]. *)
Definition int_sqrt (T : Z) : result Z :=
  if ((T <? - 2 ^ 63) || (2 ^ 64 <=? T))%Z then Raise TypeError
  else Float64.int (Float64.sqrt (Float64.of_Z T)).

(** [__init__].  [np.sqrt(T)] is evaluated twice: its [TypeError] comes
    from the first evaluation, which otherwise gives the threshold (a nan
    for a negative [T], which no mechanism keeps: [int] raises on the next
    line).  For [T = 0] the resolution [K] is 0 and the first division of
    the multiplicative grid raises. *)
Definition init (T : Z) (environment : Environment) : result t :=
  bind (int_sqrt T) (fun K =>
  bind (create_multiplicative_grid K) (fun price_grid_F =>
  let price_grid_H := create_additive_grid K in
  bind (Hedge.new price_grid_F T) (fun hedge_profit =>
  bind (Hedge.new price_grid_H T) (fun hedge_gft =>
  Ok {| budget := 0;
        gft := 0;
        budget_threshold := sqrt (IZR T);
        K := K;
        T := T;
        environment := environment;
        run_profit_max := true;
        price_grid_F := price_grid_F;
        price_grid_H := price_grid_H;
        hedge_profit := hedge_profit;
        hedge_gft := hedge_gft |})))).

(** Assignments to one attribute. *)
Definition set_budget (v : R) (st : t) : t :=
  mk v (gft st) (budget_threshold st) (K st) (T st) (environment st)
     (run_profit_max st) (price_grid_F st) (price_grid_H st)
     (hedge_profit st) (hedge_gft st).

Definition set_gft (v : R) (st : t) : t :=
  mk (budget st) v (budget_threshold st) (K st) (T st) (environment st)
     (run_profit_max st) (price_grid_F st) (price_grid_H st)
     (hedge_profit st) (hedge_gft st).

Definition set_run_profit_max (v : bool) (st : t) : t :=
  mk (budget st) (gft st) (budget_threshold st) (K st) (T st)
     (environment st) v (price_grid_F st) (price_grid_H st)
     (hedge_profit st) (hedge_gft st).

Definition set_hedge_profit (v : Hedge.t) (st : t) : t :=
  mk (budget st) (gft st) (budget_threshold st) (K st) (T st)
     (environment st) (run_profit_max st) (price_grid_F st)
     (price_grid_H st) v (hedge_gft st).

Definition set_hedge_gft (v : Hedge.t) (st : t) : t :=
  mk (budget st) (gft st) (budget_threshold st) (K st) (T st)
     (environment st) (run_profit_max st) (price_grid_F st)
     (price_grid_H st) (hedge_profit st) v.

(** [update_budget] *)
Definition update_budget (action : Expert) (feedback : R * R) (st : t) : t :=
  if Rleb (fst feedback) (fst action) && Rleb (snd action) (snd feedback)
  then set_budget (budget st + (snd action - fst action)) st
  else st.

(** [update_gft] *)
Definition update_gft (action : Expert) (feedback : R * R) (st : t) : t :=
  if Rleb (fst feedback) (fst action) && Rleb (snd action) (snd feedback)
  then set_gft (gft st + (snd feedback - fst feedback)) st
  else st.

(** [profit_max] after the draw of [action]. *)
Definition profit_max_on (action : Expert) (i : nat) (st : t) : t :=
  let feedback := get_valuations (environment st) i in
  let st := set_hedge_profit
              (Hedge.update_weights (hedge_profit st)
                 (fst feedback) (snd feedback)) st in
  let st := update_budget action feedback st in
  let st := update_gft action feedback st in
  if Rgeb (budget st) (budget_threshold st)
  then set_run_profit_max false st
  else st.

(** [gft_max] after the draw of [action]. *)
Definition gft_max_on (action : Expert) (i : nat) (st : t) : t :=
  let feedback := get_valuations (environment st) i in
  let st := set_hedge_gft
              (Hedge.update_weights (hedge_gft st)
                 (fst feedback) (snd feedback)) st in
  let st := set_hedge_profit
              (Hedge.update_weights (hedge_profit st)
                 (fst feedback) (snd feedback)) st in
  let st := update_budget action feedback st in
  update_gft action feedback st.

(** [profit_max] and [gft_max]: the action is drawn by the learner of the
    phase, from the weights it has before the round. *)
Definition profit_max (i : nat) (st st' : t) : Prop :=
  exists action,
    Hedge.choose_action (hedge_profit st) action /\
    st' = profit_max_on action i st.

Definition gft_max (i : nat) (st st' : t) : Prop :=
  exists action,
    Hedge.choose_action (hedge_gft st) action /\
    st' = gft_max_on action i st.

(** [get_final_gft] *)
Definition get_final_gft (st : t) : R := gft st.

End GFTMax.

(** ** The two round methods a mechanism class provides

    [run] calls [self.profit_max] and [self.gft_max], which the subclass
    overrides: a class is the pair of its round methods. *)

Class Mechanism : Type := {
  profit_max : nat -> GFTMax.t -> GFTMax.t -> Prop;
  gft_max : nat -> GFTMax.t -> GFTMax.t -> Prop
}.

(** One iteration of the loop of [run]: the phase flag read at the start of
    the round selects the method. *)
Definition round (M : Mechanism) (i : nat) (st st' : GFTMax.t) : Prop :=
  if GFTMax.run_profit_max st
  then profit_max i st st'
  else gft_max i st st'.

(** The iterations [i], [i + 1], ... of the loop, [n] of them. *)
Inductive rounds (M : Mechanism) : nat -> nat -> GFTMax.t -> GFTMax.t -> Prop :=
| rounds_done : forall i st, rounds M i 0 st st
| rounds_next : forall i n st st' st'',
    round M i st st' ->
    rounds M (S i) n st' st'' ->
    rounds M i (S n) st st''.

(** [run]: [for i in range(self.T)]. *)
Definition run (M : Mechanism) (st st' : GFTMax.t) : Prop :=
  rounds M 0 (Z.to_nat (GFTMax.T st)) st st'.

#[export] Instance GFTMax_class : Mechanism := {
  profit_max := GFTMax.profit_max;
  gft_max := GFTMax.gft_max
}.

(** ** class ConstrainedGFTMax(GFTMax) *)

Module ConstrainedGFTMax.

Import GFTMax.

(** [__init__] only calls the constructor of [GFTMax]. *)
Definition init (T : Z) (environment : Environment) : result GFTMax.t :=
  GFTMax.init T environment.

(** [rescale_action] *)
Definition rescale_action (action : Expert) (s_dot b_dot : R) : Expert :=
  let rescaling_factor := (b_dot - s_dot) ^ 2 in
  let p := s_dot + fst action * rescaling_factor in
  let q := b_dot - (1 - snd action) * rescaling_factor in
  (p, q).

(** [profit_max] after the draw of [action]. *)
Definition profit_max_on (action : Expert) (i : nat) (st : t) : t :=
  let feedback := get_valuations (environment st) i in
  let '(s_dot, b_dot) := get_constraints (environment st) i in
  let '(action, st) :=
    if Rltb (fst action) s_dot || Rltb b_dot (snd action)
    then (rescale_action action s_dot b_dot,
          set_hedge_profit
            (Hedge.update_weights_with_rescaling (hedge_profit st)
               (fst feedback) (snd feedback) s_dot b_dot) st)
    else (action,
          set_hedge_profit
            (Hedge.update_weights (hedge_profit st)
               (fst feedback) (snd feedback)) st) in
  let st := update_budget action feedback st in
  let st := update_gft action feedback st in
  if Rgeb (budget st) (budget_threshold st)
  then set_run_profit_max false st
  else st.

(** [gft_max] after the draw of [action]. *)
Definition gft_max_on (action : Expert) (i : nat) (st : t) : t :=
  let feedback := get_valuations (environment st) i in
  let '(s_dot, b_dot) := get_constraints (environment st) i in
  let '(action, st) :=
    if Rltb (fst action) s_dot || Rltb b_dot (snd action)
    then (rescale_action action s_dot b_dot,
          set_hedge_profit
            (Hedge.update_weights_with_rescaling (hedge_profit st)
               (fst feedback) (snd feedback) s_dot b_dot)
            (set_hedge_gft
               (Hedge.update_weights_with_rescaling (hedge_gft st)
                  (fst feedback) (snd feedback) s_dot b_dot) st))
    else (action,
          set_hedge_profit
            (Hedge.update_weights (hedge_profit st)
               (fst feedback) (snd feedback))
            (set_hedge_gft
               (Hedge.update_weights (hedge_gft st)
                  (fst feedback) (snd feedback)) st)) in
  let st := update_budget action feedback st in
  update_gft action feedback st.

Definition profit_max (i : nat) (st st' : t) : Prop :=
  exists action,
    Hedge.choose_action (hedge_profit st) action /\
    st' = profit_max_on action i st.

Definition gft_max (i : nat) (st st' : t) : Prop :=
  exists action,
    Hedge.choose_action (hedge_gft st) action /\
    st' = gft_max_on action i st.

End ConstrainedGFTMax.

#[export] Instance ConstrainedGFTMax_class : Mechanism := {
  profit_max := ConstrainedGFTMax.profit_max;
  gft_max := ConstrainedGFTMax.gft_max
}.

(** ** The update rule as the specification words it

    Per expert [e = (ask_e, bid_e)] and round valuations: whether the expert
    would have traded, the surplus of the round, what the expert realizes
    and the loss it is charged. *)

Definition spec_feasible (hidden_s hidden_b : R) (e : Expert) : bool :=
  Rleb hidden_s (fst e) && Rleb (snd e) hidden_b.

Definition spec_potential (hidden_s hidden_b : R) : R := hidden_b - hidden_s.

Definition spec_realized (hidden_s hidden_b : R) (e : Expert) : R :=
  if spec_feasible hidden_s hidden_b e
  then spec_potential hidden_s hidden_b
  else 0.

Definition spec_loss (hidden_s hidden_b : R) (e : Expert) : R :=
  if Rleb 0 (spec_potential hidden_s hidden_b)
  then (if spec_feasible hidden_s hidden_b e
        then 0
        else spec_potential hidden_s hidden_b)
  else spec_realized hidden_s hidden_b e.

(** A sequence of [update_weights] calls, one per pair of valuations. *)
Definition update_weights_seq (h : Hedge.t) (rounds : list (R * R)) : Hedge.t :=
  fold_left (fun h fb => Hedge.update_weights h (fst fb) (snd fb)) rounds h.

(** ** The multiplicative grid as the specification words it *)


(** Membership in the grid of resolution [K] whose exponents are the
    integers [i] with [0 <= i < n]: a diagonal pair, or a pair at distance
    [2 ** -i] of a diagonal point that stays in [0, 1]. *)
Definition spec_grid_member (n K : Z) (x : Expert) : Prop :=
  exists k : Z,
    (0 <= k <= K)%Z /\
    (x = (IZR k / IZR K, IZR k / IZR K) \/
     exists i : Z,
       (0 <= i < n)%Z /\
       ((IZR k / IZR K - powerRZ 2 (- i) >= 0 /\
         x = (IZR k / IZR K - powerRZ 2 (- i), IZR k / IZR K)) \/
        (IZR k / IZR K + powerRZ 2 (- i) <= 1 /\
         x = (IZR k / IZR K, IZR k / IZR K + powerRZ 2 (- i))))).

(** ** What the constructor of the mechanism establishes *)

(** The resolution is positive, the two grids are those of the resolution,
    each learner has its grid as experts and is well formed. *)
Definition constructed (st : GFTMax.t) : Prop :=
  (1 <= GFTMax.K st)%Z /\
  GFTMax.create_multiplicative_grid (GFTMax.K st) = Ok (GFTMax.price_grid_F st) /\
  GFTMax.price_grid_H st = GFTMax.create_additive_grid (GFTMax.K st) /\
  Hedge.experts (GFTMax.hedge_profit st) = GFTMax.price_grid_F st /\
  Hedge.experts (GFTMax.hedge_gft st) = GFTMax.price_grid_H st /\
  Hedge.wf (GFTMax.hedge_profit st) /\
  Hedge.wf (GFTMax.hedge_gft st).

(** ** A run of three rounds

    [T = 3] gives the resolution 1 and the threshold [sqrt 3].  The
    valuations are (0, 1) in rounds 0 and 1 and (1, 0) in round 2; the draws
    are the expert (0, 1) twice, which brings the budget to 2 and ends the
    first phase, and then the only expert (1, 0) of the additive grid. *)

Definition three_rounds_env : Environment :=
  {| get_valuations := fun i => if (i <? 2)%nat then (0, 1) else (1, 0);
     get_constraints := fun _ => (0, 1) |}.

Definition grid_F_1 : list Expert := [(0, 0); (0, 1); (1, 1); (0, 1)].

Definition grid_H_1 : list Expert := [(1, 0)].

Definition three_rounds_0 : GFTMax.t :=
  {| GFTMax.budget := 0;
     GFTMax.gft := 0;
     GFTMax.budget_threshold := sqrt 3;
     GFTMax.K := 1;
     GFTMax.T := 3;
     GFTMax.environment := three_rounds_env;
     GFTMax.run_profit_max := true;
     GFTMax.price_grid_F := grid_F_1;
     GFTMax.price_grid_H := grid_H_1;
     GFTMax.hedge_profit := Hedge.init grid_F_1 3;
     GFTMax.hedge_gft := Hedge.init grid_H_1 3 |}.

Definition three_rounds_1 : GFTMax.t :=
  GFTMax.profit_max_on (0, 1) 0 three_rounds_0.

Definition three_rounds_2 : GFTMax.t :=
  GFTMax.profit_max_on (0, 1) 1 three_rounds_1.

Definition three_rounds_3 : GFTMax.t :=
  GFTMax.gft_max_on (1, 0) 2 three_rounds_2.

(** ** Sequences of rounds *)

(** The valuations of the rounds [0], ..., [n - 1]. *)
Definition valuations_upto (env : Environment) (n : nat) : list (R * R) :=
  map (get_valuations env) (seq 0 n).

(** The sums of what an expert realizes and of what it loses over a
    sequence of rounds. *)
Definition total_realized (rounds : list (R * R)) (e : Expert) : R :=
  sum (map (fun fb => spec_realized (fst fb) (snd fb) e) rounds).

Definition total_loss (rounds : list (R * R)) (e : Expert) : R :=
  sum (map (fun fb => spec_loss (fst fb) (snd fb) e) rounds).

(** A learner with its experts replaced by their rescaled rows. *)
Definition rescaled_experts (h : Hedge.t) (s_dot b_dot : R) : Hedge.t :=
  {| Hedge.experts :=
       map (fun e => ConstrainedGFTMax.rescale_action e s_dot b_dot)
           (Hedge.experts h);
     Hedge.T := Hedge.T h;
     Hedge.no_experts := Hedge.no_experts h;
     Hedge.weights := Hedge.weights h;
     Hedge.epsilon := Hedge.epsilon h;
     Hedge.gft := Hedge.gft h |}.

(** ** What no round changes *)

(** Two states of one mechanism: the horizon, the resolution, the
    threshold, the environment and the grids agree, and each learner has
    the same experts and the same rate. *)
Definition same_configuration (st st' : GFTMax.t) : Prop :=
  GFTMax.T st' = GFTMax.T st /\
  GFTMax.K st' = GFTMax.K st /\
  GFTMax.budget_threshold st' = GFTMax.budget_threshold st /\
  GFTMax.environment st' = GFTMax.environment st /\
  GFTMax.price_grid_F st' = GFTMax.price_grid_F st /\
  GFTMax.price_grid_H st' = GFTMax.price_grid_H st /\
  Hedge.experts (GFTMax.hedge_profit st') = Hedge.experts (GFTMax.hedge_profit st) /\
  Hedge.epsilon (GFTMax.hedge_profit st') = Hedge.epsilon (GFTMax.hedge_profit st) /\
  Hedge.experts (GFTMax.hedge_gft st') = Hedge.experts (GFTMax.hedge_gft st) /\
  Hedge.epsilon (GFTMax.hedge_gft st') = Hedge.epsilon (GFTMax.hedge_gft st).

(** Whether an action clears against the valuations of a round: the test of
    [update_budget] and [update_gft]. *)
Definition clears (action : Expert) (feedback : R * R) : Prop :=
  fst feedback <= fst action /\ snd action <= snd feedback.

(** The action a round of [ConstrainedGFTMax] commits after the draw of
    [action], under the bounds of the round: the rescaled action when the
    drawn one is outside the bounds. *)
Definition committed (action : Expert) (bounds : R * R) : Expert :=
  if Rltb (fst action) (fst bounds) || Rltb (snd bounds) (snd action)
  then ConstrainedGFTMax.rescale_action action (fst bounds) (snd bounds)
  else action.

(** What a cleared trade adds to the budget. *)
Definition budget_gain (action : Expert) (feedback : R * R) : R :=
  if spec_feasible (fst feedback) (snd feedback) action
  then snd action - fst action
  else 0.

(** The learner that draws the action of a round: [hedge_profit] in the
    profit phase, [hedge_gft] in the GFT phase. *)
Definition drawing_learner (profit_phase : bool) (st : GFTMax.t) : Hedge.t :=
  if profit_phase then GFTMax.hedge_profit st else GFTMax.hedge_gft st.

(** Valuations in the unit square. *)
Definition in_unit_square (x : R * R) : Prop :=
  0 <= fst x <= 1 /\ 0 <= snd x <= 1.

(** The weights of a learner within a factor [exp c] of the weight
    [1 / no_experts] they start from. *)
Definition weights_within (c : R) (h : Hedge.t) : Prop :=
  Forall (fun w => exp (- c) / INR (Hedge.no_experts h) <= w
                   <= exp c / INR (Hedge.no_experts h))
    (Hedge.weights h).

(** Both learners of a mechanism after at most [n] updates each. *)
Definition learners_within (n : nat) (st : GFTMax.t) : Prop :=
  weights_within (INR n * Hedge.epsilon (GFTMax.hedge_profit st))
    (GFTMax.hedge_profit st) /\
  weights_within (INR n * Hedge.epsilon (GFTMax.hedge_gft st))
    (GFTMax.hedge_gft st).

(** ** The bounds (0, 1) on binary64 numbers *)

(** The row [(ask, bid)] as [update_weights_with_rescaling] rescales it
    under the bounds (0, 1), where the factor [(1 - 0)**2] is 1. *)
Definition unit_rescaled (e : Float64.t * Float64.t) : Float64.t * Float64.t :=
  (Float64.add Float64.zero (Float64.mul (fst e) Float64.one),
   Float64.sub Float64.one
     (Float64.mul (Float64.sub Float64.one (snd e)) Float64.one)).

(** The floats [0.1] and [0.5], and [1 - (1 - 0.1)], which is
    [0.09999999999999998]. *)
Definition tenth : Float64.t := Float64.div Float64.one (Float64.of_Z 10).
Definition half : Float64.t := Float64.div Float64.one (Float64.of_Z 2).
Definition below_tenth : Float64.t :=
  Float64.sub Float64.one (Float64.sub Float64.one tenth).

(** The learner [Hedge([(1.0, bid)], 1)]: the weight [1.0 / 1], the rate
    [sqrt(log(1) / 1)], which is 0, and the accumulator 0. *)
Definition one_expert_learner (bid : Float64.t) : Hedge64.t :=
  {| Hedge64.experts := [(Float64.one, bid)];
     Hedge64.T := 1;
     Hedge64.no_experts := 1;
     Hedge64.weights := [Float64.one];
     Hedge64.epsilon := Float64.zero;
     Hedge64.gft := [Float64.zero] |}.

(** * Properties *)

(** ** Comparisons and arrays *)

Lemma Rleb_true (x y : R) : Rleb x y = true <-> x <= y.
Proof. unfold Rleb. destruct (Rle_dec x y); split; intros; (congruence || lra). Qed.

Lemma Rleb_false (x y : R) : Rleb x y = false <-> y < x.
Proof. unfold Rleb. destruct (Rle_dec x y); split; intros; (congruence || lra). Qed.

Lemma Rltb_true (x y : R) : Rltb x y = true <-> x < y.
Proof. unfold Rltb. destruct (Rlt_dec x y); split; intros; (congruence || lra). Qed.

Lemma Rltb_false (x y : R) : Rltb x y = false <-> y <= x.
Proof. unfold Rltb. destruct (Rlt_dec x y); split; intros; (congruence || lra). Qed.

Lemma Rgeb_true (x y : R) : Rgeb x y = true <-> y <= x.
Proof. unfold Rgeb. destruct (Rge_dec x y); split; intros; (congruence || lra). Qed.

Lemma Rgeb_false (x y : R) : Rgeb x y = false <-> x < y.
Proof. unfold Rgeb. destruct (Rge_dec x y); split; intros; (congruence || lra). Qed.

(** Decides the comparisons of a goal about concrete numbers. *)
Ltac cmp :=
  repeat match goal with
    | |- context [Rleb ?x ?y] =>
        let E := fresh "E" in
        destruct (Rleb x y) eqn:E;
        [apply Rleb_true in E | apply Rleb_false in E]; try lra
    | |- context [Rltb ?x ?y] =>
        let E := fresh "E" in
        destruct (Rltb x y) eqn:E;
        [apply Rltb_true in E | apply Rltb_false in E]; try lra
    | |- context [Rgeb ?x ?y] =>
        let E := fresh "E" in
        destruct (Rgeb x y) eqn:E;
        [apply Rgeb_true in E | apply Rgeb_false in E]; try lra
    end.

Lemma spec_feasible_iff (s b : R) (e : Expert) :
  spec_feasible s b e = true <-> s <= fst e /\ snd e <= b.
Proof.
  unfold spec_feasible. rewrite andb_true_iff, !Rleb_true. tauto.
Qed.

Section Arrays.

Context {A B C : Type}.

Lemma nth_error_zip_with (f : A -> B -> C) (xs : list A) (ys : list B)
    (i : nat) (x : A) (y : B) :
  nth_error xs i = Some x ->
  nth_error ys i = Some y ->
  nth_error (zip_with f xs ys) i = Some (f x y).
Proof.
  revert ys i.
  induction xs as [| x0 xs IH]; intros [| y0 ys] [| i]; simpl;
    try discriminate.
  - intros [= ->] [= ->]. reflexivity.
  - apply IH.
Qed.

Lemma length_zip_with (f : A -> B -> C) (xs : list A) (ys : list B) :
  length (zip_with f xs ys) = Nat.min (length xs) (length ys).
Proof.
  revert ys. induction xs as [| x xs IH]; intros [| y ys]; simpl; auto.
Qed.

End Arrays.

Lemma nth_error_in_range {A : Type} (xs : list A) (i : nat) :
  (i < length xs)%nat -> exists x, nth_error xs i = Some x.
Proof.
  intros Hi. destruct (nth_error xs i) eqn:E; eauto.
  apply nth_error_None in E. lia.
Qed.

(** ** The learner, entry by entry *)

Section HedgeEntries.

Import Hedge.

Variables (h : Hedge.t) (hidden_s hidden_b : R).

Lemma indicator_entry (e : nat) (x : Expert) :
  nth_error (experts h) e = Some x ->
  nth_error
    (zip_with andb
       (map (fun e => Rleb hidden_s (fst e)) (experts h))
       (map (fun e => Rleb (snd e) hidden_b) (experts h))) e
  = Some (spec_feasible hidden_s hidden_b x).
Proof.
  intros Hx. unfold spec_feasible.
  apply nth_error_zip_with.
  - now apply (map_nth_error (fun e => Rleb hidden_s (fst e))).
  - now apply (map_nth_error (fun e => Rleb (snd e) hidden_b)).
Qed.

Lemma realized_entry (ind : bool) (x : Expert) :
  ind = spec_feasible hidden_s hidden_b x ->
  b2r ind * (hidden_b - hidden_s) = spec_realized hidden_s hidden_b x.
Proof.
  intros ->. unfold spec_realized, spec_potential.
  destruct (spec_feasible hidden_s hidden_b x); simpl; ring.
Qed.

Lemma loss_entry (ind : bool) (x : Expert) :
  ind = spec_feasible hidden_s hidden_b x ->
  (if Rgeb hidden_b hidden_s
   then (1 - b2r ind) * (hidden_b - hidden_s)
   else b2r ind * (hidden_b - hidden_s))
  = spec_loss hidden_s hidden_b x.
Proof.
  intros ->. unfold spec_loss, spec_realized, spec_potential.
  destruct (spec_feasible hidden_s hidden_b x); simpl; cmp; ring.
Qed.

(** The loss array of either update method, whatever array [inds] of
    indicators it is computed from. *)
Lemma losses_entry (inds : list bool) (e : nat) (ind : bool) :
  nth_error inds e = Some ind ->
  nth_error
    (if Rgeb hidden_b hidden_s
     then map (fun ind => (1 - b2r ind) * (hidden_b - hidden_s)) inds
     else map (fun ind => b2r ind * (hidden_b - hidden_s)) inds) e
  = Some (if Rgeb hidden_b hidden_s
          then (1 - b2r ind) * (hidden_b - hidden_s)
          else b2r ind * (hidden_b - hidden_s)).
Proof.
  intros Hind. destruct (Rgeb hidden_b hidden_s).
  - now apply (map_nth_error (fun ind => (1 - b2r ind) * (hidden_b - hidden_s))).
  - now apply (map_nth_error (fun ind => b2r ind * (hidden_b - hidden_s))).
Qed.

Lemma update_weights_weight (e : nat) (x : Expert) (w : R) :
  nth_error (experts h) e = Some x ->
  nth_error (weights h) e = Some w ->
  nth_error (weights (update_weights h hidden_s hidden_b)) e
  = Some (w * exp (- epsilon h * spec_loss hidden_s hidden_b x)).
Proof.
  intros Hx Hw. unfold update_weights. cbn [weights].
  rewrite <- (loss_entry (spec_feasible hidden_s hidden_b x) x eq_refl).
  apply nth_error_zip_with; [exact Hw |].
  apply (map_nth_error (fun l => exp (- epsilon h * l))).
  apply losses_entry, indicator_entry, Hx.
Qed.

Lemma update_weights_gft (e : nat) (x : Expert) (g : R) :
  nth_error (experts h) e = Some x ->
  nth_error (gft h) e = Some g ->
  nth_error (gft (update_weights h hidden_s hidden_b)) e
  = Some (g + spec_realized hidden_s hidden_b x).
Proof.
  intros Hx Hg. unfold update_weights. cbn [gft].
  rewrite <- (realized_entry (spec_feasible hidden_s hidden_b x) x eq_refl).
  apply nth_error_zip_with; [exact Hg |].
  apply (map_nth_error (fun ind => b2r ind * (hidden_b - hidden_s))).
  apply indicator_entry, Hx.
Qed.

Variables (s_dot b_dot : R).

Lemma rescaled_indicator_entry (e : nat) (x : Expert) :
  nth_error (experts h) e = Some x ->
  nth_error
    (zip_with andb
       (map (fun p_e => Rleb hidden_s p_e)
          (map (fun e => s_dot + fst e * (b_dot - s_dot) ^ 2) (experts h)))
       (map (fun q_e => Rleb q_e hidden_b)
          (map (fun e => b_dot - (1 - snd e) * (b_dot - s_dot) ^ 2)
             (experts h)))) e
  = Some (spec_feasible hidden_s hidden_b
            (ConstrainedGFTMax.rescale_action x s_dot b_dot)).
Proof.
  intros Hx. unfold spec_feasible, ConstrainedGFTMax.rescale_action.
  cbn [fst snd]. rewrite !map_map.
  apply nth_error_zip_with.
  - now apply (map_nth_error
                 (fun e => Rleb hidden_s (s_dot + fst e * (b_dot - s_dot) ^ 2))).
  - now apply (map_nth_error
                 (fun e => Rleb (b_dot - (1 - snd e) * (b_dot - s_dot) ^ 2)
                             hidden_b)).
Qed.

Lemma update_weights_with_rescaling_weight (e : nat) (x : Expert) (w : R) :
  nth_error (experts h) e = Some x ->
  nth_error (weights h) e = Some w ->
  nth_error
    (weights (update_weights_with_rescaling h hidden_s hidden_b s_dot b_dot)) e
  = Some (w * exp (- epsilon h *
                     spec_loss hidden_s hidden_b
                       (ConstrainedGFTMax.rescale_action x s_dot b_dot))).
Proof.
  intros Hx Hw. unfold update_weights_with_rescaling. cbn [weights].
  rewrite <- (loss_entry _ _ eq_refl).
  apply nth_error_zip_with; [exact Hw |].
  apply (map_nth_error (fun l => exp (- epsilon h * l))).
  apply losses_entry, rescaled_indicator_entry, Hx.
Qed.

Lemma update_weights_with_rescaling_gft (e : nat) (x : Expert) (g : R) :
  nth_error (experts h) e = Some x ->
  nth_error (gft h) e = Some g ->
  nth_error
    (gft (update_weights_with_rescaling h hidden_s hidden_b s_dot b_dot)) e
  = Some (g + spec_realized hidden_s hidden_b
                (ConstrainedGFTMax.rescale_action x s_dot b_dot)).
Proof.
  intros Hx Hg. unfold update_weights_with_rescaling. cbn [gft].
  rewrite <- (realized_entry _ _ eq_refl).
  apply nth_error_zip_with; [exact Hg |].
  apply (map_nth_error (fun ind => b2r ind * (hidden_b - hidden_s))).
  apply rescaled_indicator_entry, Hx.
Qed.

End HedgeEntries.

(** ** What the learner keeps *)

Lemma Forall_zip_with_pos (ws fs : list R) :
  Forall (fun w => 0 < w) ws ->
  Forall (fun f => 0 < f) fs ->
  Forall (fun w => 0 < w) (zip_with Rmult ws fs).
Proof.
  intros Hws. revert fs.
  induction Hws as [| w ws Hw _ IH]; intros fs Hfs; simpl; [constructor |].
  destruct Hfs as [| f fs Hf Hfs]; constructor.
  - now apply Rmult_lt_0_compat.
  - now apply IH.
Qed.

Lemma Forall_exp_pos (c : R) (ls : list R) :
  Forall (fun f => 0 < f) (map (fun l => exp (c * l)) ls).
Proof.
  apply Forall_forall. intros f Hf. apply in_map_iff in Hf.
  destruct Hf as [l [<- _]]. apply exp_pos.
Qed.

Lemma init_wf (experts : list Expert) (T : Z) : Hedge.wf (Hedge.init experts T).
Proof.
  unfold Hedge.wf, Hedge.init. cbn.
  rewrite length_map, !repeat_length. repeat split.
  destruct experts as [| x xs]; [constructor |].
  apply Forall_forall. intros w Hw. apply in_map_iff in Hw.
  destruct Hw as [one [<- Hone]]. apply repeat_spec in Hone. subst one.
  apply Rdiv_lt_0_compat; [lra |]. apply lt_0_INR. simpl. lia.
Qed.

Lemma update_weights_wf (h : Hedge.t) (s b : R) :
  Hedge.wf h -> Hedge.wf (Hedge.update_weights h s b).
Proof.
  intros (He & Hw & Hg & Hpos). unfold Hedge.wf, Hedge.update_weights. cbn.
  repeat split.
  - exact He.
  - rewrite length_zip_with, length_map.
    destruct (Rgeb b s);
      rewrite length_map, length_zip_with, !length_map, Hw, He, !Nat.min_id;
      reflexivity.
  - rewrite length_zip_with, length_map, length_zip_with, !length_map.
    rewrite Hg, He, !Nat.min_id. reflexivity.
  - apply Forall_zip_with_pos; [exact Hpos | apply Forall_exp_pos].
Qed.

Lemma update_weights_with_rescaling_wf (h : Hedge.t) (s b s_dot b_dot : R) :
  Hedge.wf h -> Hedge.wf (Hedge.update_weights_with_rescaling h s b s_dot b_dot).
Proof.
  intros (He & Hw & Hg & Hpos).
  unfold Hedge.wf, Hedge.update_weights_with_rescaling. cbn.
  repeat split.
  - exact He.
  - rewrite length_zip_with, length_map.
    destruct (Rgeb b s);
      rewrite length_map, length_zip_with, !length_map, Hw, He, !Nat.min_id;
      reflexivity.
  - rewrite length_zip_with, length_map, length_zip_with, !length_map.
    rewrite Hg, He, !Nat.min_id. reflexivity.
  - apply Forall_zip_with_pos; [exact Hpos | apply Forall_exp_pos].
Qed.

Lemma update_weights_seq_wf (rounds : list (R * R)) (h : Hedge.t) :
  Hedge.wf h -> Hedge.wf (update_weights_seq h rounds).
Proof.
  revert h. induction rounds as [| fb rounds IH]; intros h Hwf; simpl.
  - exact Hwf.
  - apply IH, update_weights_wf, Hwf.
Qed.

Lemma sum_pos (ws : list R) :
  ws <> [] -> Forall (fun w => 0 < w) ws -> 0 < sum ws.
Proof.
  intros Hne Hpos. destruct Hpos as [| w ws Hw Hws]; [congruence |].
  clear Hne. simpl. revert w Hw.
  induction Hws as [| v vs Hv _ IH]; intros w Hw; simpl.
  - lra.
  - specialize (IH v Hv). simpl in IH. lra.
Qed.

(** Every row of the experts array can be drawn. *)
Lemma choose_action_any (h : Hedge.t) (action : Expert) :
  Hedge.wf h -> In action (Hedge.experts h) -> Hedge.choose_action h action.
Proof.
  intros (He & Hw & _ & Hpos) Hin.
  apply In_nth_error in Hin. destruct Hin as [e He'].
  assert (Hlt : (e < Hedge.no_experts h)%nat).
  { rewrite <- He. apply nth_error_Some. congruence. }
  exists e. repeat split; [exact Hlt | | exact He'].
  destruct (nth_error_in_range (Hedge.weights h) e) as [w Hwe]; [lia |].
  unfold Hedge.probabilities.
  rewrite (nth_error_nth _ _ 0
             (map_nth_error (fun w => w / sum (Hedge.weights h)) _ _ Hwe)).
  apply Rdiv_lt_0_compat.
  - rewrite Forall_forall in Hpos. apply Hpos. eapply nth_error_In, Hwe.
  - apply sum_pos; [| exact Hpos].
    intros Hnil. rewrite Hnil in Hwe. destruct e; discriminate.
Qed.

(** Only rows of the experts array are drawn. *)
Lemma choose_action_In (h : Hedge.t) (action : Expert) :
  Hedge.choose_action h action -> In action (Hedge.experts h).
Proof.
  intros (e & _ & _ & He). eapply nth_error_In, He.
Qed.

(** ** The update rule of the learner *)

(** C2.  [update_weights] handles every expert of the set: for the expert
    [x] at index [e], with [feasible], [potential], [realized] and [loss] as
    the specification defines them, the weight becomes
    [w * exp (- (epsilon * loss))] and the accumulator [g + realized]. *)
Theorem update_weights_every_expert (h : Hedge.t) (hidden_s hidden_b : R) :
  Hedge.wf h ->
  forall e : nat, (e < Hedge.no_experts h)%nat ->
  exists (x : Expert) (w g : R),
    nth_error (Hedge.experts h) e = Some x /\
    nth_error (Hedge.weights h) e = Some w /\
    nth_error (Hedge.gft h) e = Some g /\
    nth_error (Hedge.weights (Hedge.update_weights h hidden_s hidden_b)) e
      = Some (w * exp (- (Hedge.epsilon h * spec_loss hidden_s hidden_b x))) /\
    nth_error (Hedge.gft (Hedge.update_weights h hidden_s hidden_b)) e
      = Some (g + spec_realized hidden_s hidden_b x).
Proof.
  intros (He & Hw & Hg & _) e Hlt.
  destruct (nth_error_in_range (Hedge.experts h) e) as [x Hx]; [lia |].
  destruct (nth_error_in_range (Hedge.weights h) e) as [w Hwe]; [lia |].
  destruct (nth_error_in_range (Hedge.gft h) e) as [g Hge]; [lia |].
  exists x, w, g. repeat split; try assumption.
  - rewrite (update_weights_weight h hidden_s hidden_b e x w Hx Hwe).
    do 2 f_equal. f_equal. ring.
  - apply update_weights_gft; assumption.
Qed.

Lemma update_weights_every_expert_witness :
  exists (x : Expert) (w g : R),
    nth_error (Hedge.experts (Hedge.init [(0, 1)] 1)) 0 = Some x /\
    nth_error (Hedge.weights (Hedge.init [(0, 1)] 1)) 0 = Some w /\
    nth_error (Hedge.gft (Hedge.init [(0, 1)] 1)) 0 = Some g /\
    nth_error
      (Hedge.weights (Hedge.update_weights (Hedge.init [(0, 1)] 1) 0 1)) 0
      = Some (w * exp (- (Hedge.epsilon (Hedge.init [(0, 1)] 1)
                          * spec_loss 0 1 x))) /\
    nth_error
      (Hedge.gft (Hedge.update_weights (Hedge.init [(0, 1)] 1) 0 1)) 0
      = Some (g + spec_realized 0 1 x).
Proof.
  apply (update_weights_every_expert (Hedge.init [(0, 1)] 1) 0 1
           (init_wf [(0, 1)] 1) 0%nat).
  simpl. lia.
Defined.

(** ** The rescaled update under the bounds (0, 1) *)

(** In exact arithmetic the rescaled update under [s_dot = 0] and
    [b_dot = 1] is the plain update: [p] is the ask and [q] the bid. *)
Lemma rescaling_unit_bounds_exact (h : Hedge.t) (hidden_s hidden_b : R) :
  Hedge.update_weights_with_rescaling h hidden_s hidden_b 0 1
  = Hedge.update_weights h hidden_s hidden_b.
Proof.
  unfold Hedge.update_weights_with_rescaling, Hedge.update_weights.
  rewrite !map_map.
  assert (Hs : map (fun x : Expert => Rleb hidden_s (0 + fst x * (1 - 0) ^ 2))
                 (Hedge.experts h)
               = map (fun e : Expert => Rleb hidden_s (fst e)) (Hedge.experts h)).
  { apply map_ext. intros x. f_equal. ring. }
  assert (Hb : map (fun x : Expert => Rleb (1 - (1 - snd x) * (1 - 0) ^ 2) hidden_b)
                 (Hedge.experts h)
               = map (fun e : Expert => Rleb (snd e) hidden_b) (Hedge.experts h)).
  { apply map_ext. intros x. f_equal. ring. }
  cbv zeta. rewrite Hs, Hb. reflexivity.
Qed.

(** On floats [1 - (1 - bid)] is not always [bid]: for [bid = 0.1] it is
    [0.09999999999999998].  With a buyer of that valuation the one expert
    [(1.0, 0.1)] trades under the rescaled update and not under the plain
    one, whatever [np.exp] computes. *)
Lemma unit_bounds_accumulators (np_exp : Float64.t -> Float64.t) :
  Hedge64.gft
    (Hedge64.update_weights_with_rescaling np_exp (one_expert_learner tenth)
       Float64.zero below_tenth Float64.zero Float64.one)
  = [below_tenth] /\
  Hedge64.gft
    (Hedge64.update_weights np_exp (one_expert_learner tenth)
       Float64.zero below_tenth)
  = [Float64.zero] /\
  below_tenth <> Float64.zero.
Proof.
  split; [| split].
  - vm_compute. reflexivity.
  - vm_compute. reflexivity.
  - vm_compute. discriminate.
Qed.

(** C10, as stated, fails on the floats of the code: on the learner
    [Hedge([(1.0, 0.1)], 1)] the call
    [update_weights_with_rescaling(0.0, 0.09999999999999998, 0, 1)] leaves
    the accumulator [0.09999999999999998], and
    [update_weights(0.0, 0.09999999999999998)] leaves it 0. *)
Lemma unit_bounds_can_differ :
  ~ (forall (np_exp : Float64.t -> Float64.t) (h : Hedge64.t)
            (hidden_s hidden_b : Float64.t),
        Hedge64.update_weights_with_rescaling np_exp h hidden_s hidden_b
          Float64.zero Float64.one
        = Hedge64.update_weights np_exp h hidden_s hidden_b).
Proof.
  intros H.
  destruct (unit_bounds_accumulators (fun x => x)) as (Hr & Hp & Hne).
  rewrite (H (fun x => x) (one_expert_learner tenth) Float64.zero below_tenth)
    in Hr.
  rewrite Hp in Hr. injection Hr as Hr. apply Hne. symmetry. exact Hr.
Qed.

(** C10, amended.  With [s_dot = 0] and [b_dot = 1] the rescaled update
    builds the learner of the plain update, weights and accumulators,
    whenever the rounding of the rescaled prices changes no test: for each
    expert, [hidden_s <= p] is [hidden_s <= ask] and [q <= hidden_b] is
    [bid <= hidden_b], with [p = 0 + ask * 1] and [q = 1 - (1 - bid) * 1]
    on floats. *)
Theorem unit_bounds_agree_when_tests_agree
    (np_exp : Float64.t -> Float64.t) (h : Hedge64.t)
    (hidden_s hidden_b : Float64.t) :
  Forall (fun e =>
            Float64.leb hidden_s (fst (unit_rescaled e))
            = Float64.leb hidden_s (fst e) /\
            Float64.leb (snd (unit_rescaled e)) hidden_b
            = Float64.leb (snd e) hidden_b)
         (Hedge64.experts h) ->
  Hedge64.update_weights_with_rescaling np_exp h hidden_s hidden_b
    Float64.zero Float64.one
  = Hedge64.update_weights np_exp h hidden_s hidden_b.
Proof.
  intros Htests. rewrite Forall_forall in Htests.
  unfold Hedge64.update_weights_with_rescaling, Hedge64.update_weights.
  change (Float64.mul (Float64.sub Float64.one Float64.zero)
            (Float64.sub Float64.one Float64.zero)) with Float64.one.
  rewrite !map_map.
  assert (Hs : map (fun x : Float64.t * Float64.t =>
                      Float64.leb hidden_s
                        (Float64.add Float64.zero
                           (Float64.mul (fst x) Float64.one)))
                 (Hedge64.experts h)
               = map (fun e => Float64.leb hidden_s (fst e))
                   (Hedge64.experts h)).
  { apply map_ext_in. intros x Hx. exact (proj1 (Htests x Hx)). }
  assert (Hb : map (fun x : Float64.t * Float64.t =>
                      Float64.leb
                        (Float64.sub Float64.one
                           (Float64.mul (Float64.sub Float64.one (snd x))
                              Float64.one))
                        hidden_b)
                 (Hedge64.experts h)
               = map (fun e => Float64.leb (snd e) hidden_b)
                   (Hedge64.experts h)).
  { apply map_ext_in. intros x Hx. exact (proj2 (Htests x Hx)). }
  cbv zeta. rewrite Hs, Hb. reflexivity.
Qed.

Lemma unit_bounds_agree_when_tests_agree_witness :
  Hedge64.update_weights_with_rescaling (fun x => x) (one_expert_learner half)
    Float64.zero half Float64.zero Float64.one
  = Hedge64.update_weights (fun x => x) (one_expert_learner half)
      Float64.zero half.
Proof.
  apply (unit_bounds_agree_when_tests_agree (fun x => x)
           (one_expert_learner half) Float64.zero half).
  repeat constructor.
Defined.

(** ** Experts that are feasible together *)








(** ** The accumulators of the learner *)

Lemma spec_realized_nonneg (s b : R) (x : Expert) :
  s <= b \/ fst x <= snd x -> 0 <= spec_realized s b x.
Proof.
  intros H. unfold spec_realized, spec_potential.
  destruct (spec_feasible s b x) eqn:E; [| lra].
  apply spec_feasible_iff in E. lra.
Qed.

(** C4, as stated, fails: the expert (1, 0) of the additive grid of
    resolution 1 is feasible for the valuations (1, 0), and its accumulator
    goes from 0 to -1. *)
Lemma gft_accumulator_can_decrease :
  ~ (forall (h : Hedge.t) (hidden_s hidden_b : R) (e : nat) (g g' : R),
        Hedge.wf h ->
        nth_error (Hedge.gft h) e = Some g ->
        nth_error (Hedge.gft (Hedge.update_weights h hidden_s hidden_b)) e
          = Some g' ->
        g <= g').
Proof.
  intros H.
  specialize (H (Hedge.init [(1, 0)] 1) 1 0 0%nat 0 (-1)
                (init_wf [(1, 0)] 1) eq_refl).
  assert (Hafter :
    nth_error (Hedge.gft (Hedge.update_weights (Hedge.init [(1, 0)] 1) 1 0)) 0
    = Some (-1)).
  { rewrite (update_weights_gft (Hedge.init [(1, 0)] 1) 1 0 0 (1, 0) 0
               eq_refl eq_refl).
    unfold spec_realized, spec_feasible, spec_potential. cbn [fst snd].
    cmp; simpl; f_equal; ring. }
  specialize (H Hafter). lra.
Qed.

(** C4, amended.  A call of [update_weights] or of
    [update_weights_with_rescaling] whose valuations satisfy
    [hidden_s <= hidden_b] leaves every accumulator at or above its previous
    value; for [update_weights] so does a call with any valuations, at every
    expert whose ask is at most its bid. *)
Theorem gft_accumulator_monotone
    (h : Hedge.t) (hidden_s hidden_b s_dot b_dot : R)
    (e : nat) (x : Expert) (g : R) :
  nth_error (Hedge.experts h) e = Some x ->
  nth_error (Hedge.gft h) e = Some g ->
  (hidden_s <= hidden_b \/ fst x <= snd x ->
   exists g' : R,
     nth_error (Hedge.gft (Hedge.update_weights h hidden_s hidden_b)) e
       = Some g' /\ g <= g')
  /\
  (hidden_s <= hidden_b ->
   exists g' : R,
     nth_error
       (Hedge.gft
          (Hedge.update_weights_with_rescaling h hidden_s hidden_b s_dot b_dot)) e
       = Some g' /\ g <= g').
Proof.
  intros Hx Hg. split; intros Hcond.
  - exists (g + spec_realized hidden_s hidden_b x). split.
    + apply update_weights_gft; assumption.
    + pose proof (spec_realized_nonneg hidden_s hidden_b x Hcond). lra.
  - exists (g + spec_realized hidden_s hidden_b
                  (ConstrainedGFTMax.rescale_action x s_dot b_dot)).
    split.
    + apply update_weights_with_rescaling_gft; assumption.
    + pose proof (spec_realized_nonneg hidden_s hidden_b
                    (ConstrainedGFTMax.rescale_action x s_dot b_dot)
                    (or_introl Hcond)).
      lra.
Qed.

Lemma gft_accumulator_monotone_witness :
  (exists g' : R,
     nth_error
       (Hedge.gft (Hedge.update_weights (Hedge.init [(0, 1)] 1) 0 1)) 0
       = Some g' /\ 0 <= g')
  /\
  (exists g' : R,
     nth_error
       (Hedge.gft
          (Hedge.update_weights_with_rescaling
             (Hedge.init [(0, 1)] 1) 0 1 0 1)) 0
       = Some g' /\ 0 <= g').
Proof.
  destruct (gft_accumulator_monotone (Hedge.init [(0, 1)] 1) 0 1 0 1
              0%nat (0, 1) 0 eq_refl eq_refl) as [Hplain Hrescaled].
  split.
  - apply Hplain. left. lra.
  - apply Hrescaled. lra.
Defined.

(** ** Rescaling an action *)

(** C6, as stated, fails for bounds further apart than 1: the action (1, 1)
    under the bounds (0, 2) is rescaled to the ask 4, above [b_dot = 2]. *)
Lemma rescale_action_can_leave_bounds :
  ~ (forall (action : Expert) (s_dot b_dot : R),
        0 <= fst action <= 1 ->
        0 <= snd action <= 1 ->
        s_dot <= b_dot ->
        s_dot <= fst (ConstrainedGFTMax.rescale_action action s_dot b_dot) <= b_dot /\
        s_dot <= snd (ConstrainedGFTMax.rescale_action action s_dot b_dot) <= b_dot).
Proof.
  intros H.
  specialize (H (1, 1) 0 2). cbn in H.
  assert (H01 : 0 <= 1 <= 1) by lra.
  specialize (H H01 H01). lra.
Qed.

(** C6, amended.  For an action with both coordinates in [0, 1] and bounds
    [s_dot <= b_dot], the rescaled ask is at least [s_dot] and the rescaled
    bid at most [b_dot]; when the bounds are at most 1 apart, both rescaled
    coordinates lie in [[s_dot, b_dot]]. *)
Theorem rescale_action_within_bounds (action : Expert) (s_dot b_dot : R) :
  0 <= fst action <= 1 ->
  0 <= snd action <= 1 ->
  s_dot <= b_dot ->
  (s_dot <= fst (ConstrainedGFTMax.rescale_action action s_dot b_dot) /\
   snd (ConstrainedGFTMax.rescale_action action s_dot b_dot) <= b_dot)
  /\
  (b_dot - s_dot <= 1 ->
   s_dot <= fst (ConstrainedGFTMax.rescale_action action s_dot b_dot) <= b_dot /\
   s_dot <= snd (ConstrainedGFTMax.rescale_action action s_dot b_dot) <= b_dot).
Proof.
  destruct action as [a q]. cbn [fst snd ConstrainedGFTMax.rescale_action].
  intros Ha Hq Hsb.
  set (d := b_dot - s_dot).
  assert (Hd : 0 <= d) by (unfold d; lra).
  assert (Hdd : 0 <= d ^ 2) by (simpl; nra).
  assert (Hask : 0 <= a * d ^ 2) by (apply Rmult_le_pos; lra).
  assert (Hbid : 0 <= (1 - q) * d ^ 2) by (apply Rmult_le_pos; lra).
  split; [lra |].
  intros Hd1.
  assert (Hsq : d ^ 2 <= d) by (simpl; nra).
  assert (Hask' : a * d ^ 2 <= d ^ 2) by nra.
  assert (Hbid' : (1 - q) * d ^ 2 <= d ^ 2) by nra.
  unfold d in *. lra.
Qed.

Lemma rescale_action_within_bounds_witness :
  (2 / 5 <= fst (ConstrainedGFTMax.rescale_action (1 / 10, 9 / 10) (2 / 5) (3 / 5)) /\
   snd (ConstrainedGFTMax.rescale_action (1 / 10, 9 / 10) (2 / 5) (3 / 5)) <= 3 / 5)
  /\
  (2 / 5 <= fst (ConstrainedGFTMax.rescale_action (1 / 10, 9 / 10) (2 / 5) (3 / 5))
     <= 3 / 5 /\
   2 / 5 <= snd (ConstrainedGFTMax.rescale_action (1 / 10, 9 / 10) (2 / 5) (3 / 5))
     <= 3 / 5).
Proof.
  assert (Ha : 0 <= fst (1 / 10, 9 / 10) <= 1) by (simpl; lra).
  assert (Hq : 0 <= snd (1 / 10, 9 / 10) <= 1) by (simpl; lra).
  assert (Hsb : 2 / 5 <= 3 / 5) by lra.
  destruct (rescale_action_within_bounds (1 / 10, 9 / 10) (2 / 5) (3 / 5)
              Ha Hq Hsb) as [Hout Hin].
  split; [exact Hout | apply Hin; lra].
Defined.

(** ** A feasible action makes the constrained round the plain round *)

(** C8.  When the drawn action satisfies the bounds of the round, the
    constrained [profit_max] and [gft_max] make the transition of the methods
    of [GFTMax] for the same action and feedback: plain [update_weights] on
    the same learners, the same committed action, the same budget, gft and
    phase. *)
Theorem constrained_round_of_feasible_action
    (action : Expert) (i : nat) (st : GFTMax.t) :
  fst (get_constraints (GFTMax.environment st) i) <= fst action ->
  snd action <= snd (get_constraints (GFTMax.environment st) i) ->
  ConstrainedGFTMax.profit_max_on action i st = GFTMax.profit_max_on action i st /\
  ConstrainedGFTMax.gft_max_on action i st = GFTMax.gft_max_on action i st.
Proof.
  intros Hask Hbid.
  unfold ConstrainedGFTMax.profit_max_on, ConstrainedGFTMax.gft_max_on.
  destruct (get_constraints (GFTMax.environment st) i) as [s_dot b_dot].
  cbn [fst snd] in Hask, Hbid.
  apply Rltb_false in Hask. apply Rltb_false in Hbid.
  rewrite Hask, Hbid. cbn [orb].
  split; reflexivity.
Qed.

(** ** What a round keeps *)

(** Splits a goal about the state after a round into the branches the
    round can take. *)
Ltac fields :=
  cbn [GFTMax.budget GFTMax.gft GFTMax.budget_threshold GFTMax.K GFTMax.T
       GFTMax.environment GFTMax.run_profit_max GFTMax.price_grid_F
       GFTMax.price_grid_H GFTMax.hedge_profit GFTMax.hedge_gft
       GFTMax.set_budget GFTMax.set_gft GFTMax.set_run_profit_max
       GFTMax.set_hedge_profit GFTMax.set_hedge_gft fst snd].

Ltac round_cases :=
  unfold ConstrainedGFTMax.profit_max_on, ConstrainedGFTMax.gft_max_on,
    GFTMax.profit_max_on, GFTMax.gft_max_on,
    GFTMax.update_gft, GFTMax.update_budget;
  repeat (cbv beta iota zeta;
          match goal with
          | |- context [get_constraints ?env ?i] =>
              destruct (get_constraints env i) eqn:?
          | |- context [Rltb ?a ?b || Rltb ?c ?d] =>
              destruct (Rltb a b || Rltb c d) eqn:?
          | |- context [Rleb ?a ?b && Rleb ?c ?d] =>
              destruct (Rleb a b && Rleb c d) eqn:?
          | |- context [Rgeb ?a ?b] =>
              destruct (Rgeb a b) eqn:?
          end);
  fields.

Section RoundKeeps.

Variables (action : Expert) (i : nat) (st : GFTMax.t).

Lemma gft_max_on_run_profit_max :
  GFTMax.run_profit_max (GFTMax.gft_max_on action i st)
  = GFTMax.run_profit_max st.
Proof. round_cases; reflexivity. Qed.

Lemma constrained_gft_max_on_run_profit_max :
  GFTMax.run_profit_max (ConstrainedGFTMax.gft_max_on action i st)
  = GFTMax.run_profit_max st.
Proof. round_cases; reflexivity. Qed.

End RoundKeeps.

(** ** The phase flag *)

Lemma round_keeps_gft_phase (i : nat) (st st' : GFTMax.t) :
  GFTMax.run_profit_max st = false ->
  round GFTMax_class i st st' \/ round ConstrainedGFTMax_class i st st' ->
  GFTMax.run_profit_max st' = false.
Proof.
  intros Hflag Hround. unfold round in Hround. rewrite Hflag in Hround.
  destruct Hround as [(action & _ & ->) | (action & _ & ->)].
  - now rewrite gft_max_on_run_profit_max.
  - now rewrite constrained_gft_max_on_run_profit_max.
Qed.

Lemma rounds_keep_gft_phase (M : Mechanism) (i n : nat) (st st' : GFTMax.t) :
  M = GFTMax_class \/ M = ConstrainedGFTMax_class ->
  rounds M i n st st' ->
  GFTMax.run_profit_max st = false ->
  GFTMax.run_profit_max st' = false.
Proof.
  intros HM Hrounds.
  induction Hrounds as [i st | i n st st' st'' Hround _ IH]; intros Hflag.
  - exact Hflag.
  - apply IH. apply (round_keeps_gft_phase i st st' Hflag).
    destruct HM as [-> | ->]; [left | right]; exact Hround.
Qed.

(** ** Binary64: the float of an integer and its root *)

Section Binary64.

Import SpecFloat.

Local Open Scope Z_scope.

(** The number of binary digits of a mantissa. *)
Lemma Zdigits2_bounds (p : positive) :
  2 ^ (Zpos (digits2_pos p) - 1) <= Zpos p < 2 ^ Zpos (digits2_pos p).
Proof.
  induction p as [p IH | p IH |]; cbn [digits2_pos].
  - rewrite Pos2Z.inj_succ. change (Zpos p~1) with (2 * Zpos p + 1).
    replace (Z.succ (Zpos (digits2_pos p)) - 1)
      with (Z.succ (Zpos (digits2_pos p) - 1)) by lia.
    rewrite !Z.pow_succ_r by lia. lia.
  - rewrite Pos2Z.inj_succ. change (Zpos p~0) with (2 * Zpos p).
    replace (Z.succ (Zpos (digits2_pos p)) - 1)
      with (Z.succ (Zpos (digits2_pos p) - 1)) by lia.
    rewrite !Z.pow_succ_r by lia. lia.
  - cbn. lia.
Qed.

Lemma Zdigits2_unique (p : positive) (d : Z) :
  2 ^ (d - 1) <= Zpos p < 2 ^ d -> Zpos (digits2_pos p) = d.
Proof.
  intros [Hlo Hhi]. pose proof (Zdigits2_bounds p) as [Hlo' Hhi'].
  assert (Hd : 0 < d).
  { destruct (Z_lt_le_dec 0 d) as [H | H]; [exact H |].
    exfalso. destruct (Z.eq_dec d 0) as [-> | Hn].
    - cbn in Hhi. lia.
    - rewrite Z.pow_neg_r in Hhi by lia. lia. }
  destruct (Z.lt_trichotomy (Zpos (digits2_pos p)) d) as [H | [H | H]];
    [| exact H |]; exfalso.
  - assert (2 ^ Zpos (digits2_pos p) <= 2 ^ (d - 1))
      by (apply Z.pow_le_mono_r; lia).
    lia.
  - assert (2 ^ d <= 2 ^ (Zpos (digits2_pos p) - 1))
      by (apply Z.pow_le_mono_r; lia).
    lia.
Qed.

(** A shift of the mantissa to the left. *)
Lemma iter_xO (p k : positive) :
  Zpos (Pos.iter xO p k) = Zpos p * 2 ^ Zpos k.
Proof.
  induction k as [| k IH] using Pos.peano_ind.
  - cbn. lia.
  - rewrite Pos.iter_succ.
    change (Zpos (Pos.iter xO p k)~0) with (2 * Zpos (Pos.iter xO p k)).
    rewrite IH, Pos2Z.inj_succ, Z.pow_succ_r by lia. lia.
Qed.

(** A mantissa of 53 digits with an exponent in range is not shifted. *)
Lemma shr_fexp_53 (m : positive) (e : Z) (l : location) :
  Zpos (digits2_pos m) = 53 -> -1074 <= e ->
  shr_fexp 53 1024 (Zpos m) e l = (shr_record_of_loc (Zpos m) l, e).
Proof.
  intros Hd He. unfold shr_fexp, fexp, emin. cbn [Zdigits2]. rewrite Hd.
  replace (Z.max (53 + e - 53) (3 - 1024 - 53) - e) with 0 by lia.
  reflexivity.
Qed.

Lemma loc_of_shr_record_of_loc (m : Z) (l : location) :
  loc_of_shr_record (shr_record_of_loc m l) = l.
Proof. destruct l as [| []]; reflexivity. Qed.

Lemma shr_m_of_loc (m : Z) (l : location) : shr_m (shr_record_of_loc m l) = m.
Proof. destruct l as [| []]; reflexivity. Qed.

Lemma round_nearest_even_cases (m : Z) (l : location) :
  round_nearest_even m l = m \/ round_nearest_even m l = m + 1.
Proof. destruct l as [| []]; cbn; try destruct (Z.even m); auto. Qed.

Lemma binary_round_aux_53 (m : positive) (e : Z) (l : location) :
  2 ^ 52 <= Zpos m -> round_nearest_even (Zpos m) l < 2 ^ 53 ->
  -1074 <= e <= 971 ->
  exists m' : positive,
    binary_round_aux 53 1024 false (Zpos m) e l = S754_finite false m' e /\
    Zpos m' = round_nearest_even (Zpos m) l.
Proof.
  intros Hlo Hhi He. unfold binary_round_aux.
  pose proof (round_nearest_even_cases (Zpos m) l) as Hc.
  rewrite shr_fexp_53 by (try apply Zdigits2_unique; lia).
  rewrite loc_of_shr_record_of_loc, shr_m_of_loc.
  destruct (round_nearest_even (Zpos m) l) as [| m' | m'] eqn:Em; try lia.
  rewrite shr_fexp_53 by (try apply Zdigits2_unique; lia).
  cbn [shr_record_of_loc shr_m].
  replace (e <=? 1024 - 53) with true by (symmetry; apply Z.leb_le; lia).
  exists m'. split; reflexivity.
Qed.

(** The float of a positive integer of at most 52 binary digits holds the
    integer exactly, on a mantissa of 53 digits. *)
Lemma of_Z_small (p : positive) (d : Z) :
  Zpos (digits2_pos p) = d -> d <= 52 ->
  exists m : positive,
    Float64.of_Z (Zpos p) = S754_finite false m (d - 53) /\
    Zpos m = Zpos p * 2 ^ (53 - d).
Proof.
  intros Hd Hd52. pose proof (Zdigits2_bounds p) as Hp. rewrite Hd in Hp.
  assert (H1 : 1 <= d) by lia.
  unfold Float64.of_Z, binary_normalize, binary_round, fexp, emin,
    Float64.prec, Float64.emax.
  rewrite Hd.
  replace (Z.max (d + 0 - 53) (3 - 1024 - 53)) with (d - 53) by lia.
  unfold shl_align.
  destruct (d - 53 - 0) as [| k | k] eqn:Ek; try lia.
  pose proof (iter_xO p k) as Hm.
  replace (Zpos k) with (53 - d) in Hm by lia.
  assert (Hpow : 2 ^ (d - 1) * 2 ^ (53 - d) = 2 ^ 52).
  { rewrite <- Z.pow_add_r by lia. f_equal. lia. }
  assert (Hpow' : 2 ^ d * 2 ^ (53 - d) = 2 ^ 53).
  { rewrite <- Z.pow_add_r by lia. f_equal. lia. }
  assert (H2 : 0 < 2 ^ (53 - d)) by (apply Z.pow_pos_nonneg; lia).
  destruct (binary_round_aux_53 (Pos.iter xO p k) (d - 53) loc_Exact)
    as (m & Hm1 & Hm2); cbn [round_nearest_even]; try nia.
  exists m. split; [exact Hm1 |]. cbn [round_nearest_even] in Hm2. lia.
Qed.

Lemma div_between (a N k : Z) : k * N <= a < (k + 1) * N -> a / N = k.
Proof.
  intros H. symmetry. apply (Z.div_unique a N k (a - N * k)); lia.
Qed.

(** The integer part of a scaled root. *)
Lemma sqrt_scaled (p N : Z) :
  0 <= p -> 2 * (Z.sqrt p + 1) <= N ->
  Z.sqrt (p * (N * N)) / N = Z.sqrt p /\
  (Z.sqrt (p * (N * N)) + 1) / N = Z.sqrt p.
Proof.
  intros Hp HN.
  pose proof (Z.sqrt_nonneg p) as Hk0.
  pose proof (Z.sqrt_spec p Hp) as Hk.
  assert (Hm : 0 <= p * (N * N)) by nia.
  pose proof (Z.sqrt_nonneg (p * (N * N))) as Hq0.
  pose proof (Z.sqrt_spec (p * (N * N)) Hm) as Hq.
  set (k := Z.sqrt p) in *. set (q := Z.sqrt (p * (N * N))) in *.
  cbv zeta in Hk, Hq. unfold Z.succ in Hk, Hq.
  assert (Hlo : k * N <= q) by nia.
  assert (Hhi : q + 1 < (k + 1) * N).
  { destruct (Z_lt_le_dec (q + 1) ((k + 1) * N)) as [H | H]; [exact H | exfalso].
    assert (p + 1 <= (k + 1) * (k + 1)) by lia.
    assert (Ha : 0 <= (k + 1) * N - 1) by nia.
    assert (Hb : (k + 1) * N - 1 <= q) by lia.
    pose proof (Z.mul_le_mono_nonneg _ _ _ _ Ha Hb Ha Hb) as Hsq.
    nia. }
  split; apply div_between; lia.
Qed.

(** The root of the float of an integer below [2 ^ 52] is rounded on 53
    digits, without reaching the next integer: [int] of it is the integer
    square root. *)
Lemma int_sqrt_of_small (p : positive) :
  Zpos p < 2 ^ 52 ->
  Float64.int (Float64.sqrt (Float64.of_Z (Zpos p))) = Ok (Z.sqrt (Zpos p)).
Proof.
  intros Hp52.
  pose proof (Zdigits2_bounds p) as Hp.
  set (d := Zpos (digits2_pos p)) in *.
  assert (Hd1 : 1 <= d) by (unfold d; lia).
  assert (Hd52 : d <= 52).
  { destruct (Z_le_gt_dec d 52) as [H | H]; [exact H | exfalso].
    assert (2 ^ 52 <= 2 ^ (d - 1)) by (apply Z.pow_le_mono_r; lia). lia. }
  destruct (of_Z_small p d eq_refl Hd52) as (m & -> & Hm).
  set (h := (d + 1) / 2).
  assert (Hh : 2 * h - 1 <= d <= 2 * h).
  { unfold h. pose proof (Z.div_mod (d + 1) 2 ltac:(lia)).
    pose proof (Z.mod_pos_bound (d + 1) 2 ltac:(lia)). lia. }
  set (N := 2 ^ (53 - h)).
  assert (HN0 : 0 < N) by (apply Z.pow_pos_nonneg; lia).
  assert (Hpd : 0 < 2 ^ (53 - d)) by (apply Z.pow_pos_nonneg; lia).
  assert (Hm53 : Zpos (digits2_pos m) = 53).
  { apply Zdigits2_unique.
    assert (2 ^ (d - 1) * 2 ^ (53 - d) = 2 ^ (53 - 1))
      by (rewrite <- Z.pow_add_r by lia; f_equal; lia).
    assert (2 ^ d * 2 ^ (53 - d) = 2 ^ 53)
      by (rewrite <- Z.pow_add_r by lia; f_equal; lia).
    nia. }
  unfold Float64.sqrt, SFsqrt, SFsqrt_core_binary, fexp, emin,
    Float64.prec, Float64.emax.
  cbn [Zdigits2]. rewrite Hm53, !Z.div2_div.
  replace (53 + (d - 53) + 1) with (d + 1) by lia. fold h.
  assert (Hdiv : (d - 53) / 2 = h - 27).
  { unfold h. replace (d - 53) with (d + 1 + (-27) * 2) by lia.
    rewrite Z.div_add by lia. lia. }
  rewrite Hdiv.
  replace (Z.min (Z.max (h - 53) (3 - 1024 - 53)) (h - 27)) with (h - 53) by lia.
  assert (Hs : Zpos m * 2 ^ (d - 53 - 2 * (h - 53)) = Zpos p * (N * N)).
  { rewrite Hm. unfold N. rewrite <- Z.mul_assoc, <- !Z.pow_add_r by lia.
    do 2 f_equal. lia. }
  destruct (d - 53 - 2 * (h - 53)) as [| s | s] eqn:Es; try lia.
  rewrite Z.shiftl_mul_pow2 by lia. rewrite Hs.
  pose proof (Z.sqrtrem_sqrt (Zpos p * (N * N))) as Hq.
  destruct (Z.sqrtrem (Zpos p * (N * N))) as [q r]. cbn [fst] in Hq. subst q.
  match goal with
  | |- context [binary_round_aux _ _ _ _ _ ?l0] => generalize l0
  end.
  intros l.
  (* the root of [p] is below [2 ^ h] *)
  assert (Hk : Z.sqrt (Zpos p) < 2 ^ h).
  { apply Z.sqrt_lt_square; [lia | apply Z.pow_nonneg; lia |].
    rewrite <- Z.pow_add_r by lia.
    assert (2 ^ d <= 2 ^ (h + h)) by (apply Z.pow_le_mono_r; lia). lia. }
  assert (HN : 2 * (Z.sqrt (Zpos p) + 1) <= N).
  { unfold N. assert (2 * 2 ^ h <= 2 ^ (53 - h)).
    { rewrite <- Z.pow_succ_r by lia. apply Z.pow_le_mono_r; lia. }
    lia. }
  destruct (sqrt_scaled (Zpos p) N ltac:(lia) HN) as [Hq Hq1].
  set (q := Z.sqrt (Zpos p * (N * N))) in *.
  assert (Hq52 : 2 ^ 52 <= q).
  { unfold q. rewrite <- (Z.sqrt_square (2 ^ 52)) by lia.
    apply Z.sqrt_le_mono.
    assert (2 ^ (d - 1) * (N * N) = 2 ^ (d - 1 + (53 - h) + (53 - h))).
    { unfold N. rewrite !Z.pow_add_r by lia. ring. }
    assert (H104 : 2 ^ 52 * 2 ^ 52 <= 2 ^ (d - 1 + (53 - h) + (53 - h))).
    { rewrite <- Z.pow_add_r by lia. apply Z.pow_le_mono_r; lia. }
    assert (2 ^ (d - 1) * (N * N) <= Zpos p * (N * N))
      by (apply Z.mul_le_mono_nonneg_r; nia).
    lia. }
  assert (Hq53 : q + 1 < 2 ^ 53).
  { pose proof (Z.mul_succ_div_gt (q + 1) N HN0) as H. rewrite Hq1 in H.
    assert (2 ^ h * N = 2 ^ 53).
    { unfold N. rewrite <- Z.pow_add_r by lia. f_equal. lia. }
    nia. }
  pose proof (round_nearest_even_cases q l) as Hr.
  destruct q as [| q' | q'] eqn:Eq; try lia.
  destruct (binary_round_aux_53 q' (h - 53) l) as (m' & -> & Hm'); try lia.
  unfold Float64.int.
  replace (0 <=? h - 53) with false by (symmetry; apply Z.leb_gt; lia).
  replace (- (h - 53)) with (53 - h) by lia. fold N.
  rewrite Hm'. destruct Hr as [-> | ->]; f_equal; assumption.
Qed.

(** A shift of the mantissa to the right halves it. *)
Lemma shr_m_shr_1 (mrs : shr_record) :
  0 <= shr_m mrs -> shr_m (shr_1 mrs) = shr_m mrs / 2.
Proof.
  destruct mrs as [m r s]. cbn [shr_m]. intros Hm.
  destruct m as [| [p | p |] | p]; cbn [shr_1 shr_m];
    rewrite <- ?Z.div2_div; reflexivity || lia.
Qed.

Lemma shr_m_iter_pos (n : positive) :
  forall mrs : shr_record,
    0 <= shr_m mrs ->
    shr_m (iter_pos shr_1 n mrs) = shr_m mrs / 2 ^ Zpos n.
Proof.
  assert (Hpow : forall k : positive, 0 < 2 ^ Zpos k)
    by (intros k; apply Z.pow_pos_nonneg; lia).
  assert (Hdiv : forall a b : Z, 0 <= a -> 0 < b -> 0 <= a / b)
    by (intros a b Ha Hb; apply Z.div_pos; lia).
  induction n as [n IH | n IH |]; intros mrs Hm; cbn [iter_pos].
  - pose proof (Hpow n).
    assert (H1 : 0 <= shr_m (shr_1 mrs))
      by (rewrite shr_m_shr_1 by exact Hm; apply Hdiv; lia).
    assert (H2 : 0 <= shr_m (iter_pos shr_1 n (shr_1 mrs)))
      by (rewrite IH by exact H1; apply Hdiv; lia).
    rewrite (IH _ H2), (IH _ H1), shr_m_shr_1 by exact Hm.
    rewrite !Z.div_div by lia. f_equal.
    replace (Zpos n~1) with (1 + (Zpos n + Zpos n)) by lia.
    rewrite !Z.pow_add_r by lia. lia.
  - pose proof (Hpow n).
    assert (H1 : 0 <= shr_m (iter_pos shr_1 n mrs))
      by (rewrite IH by exact Hm; apply Hdiv; lia).
    rewrite (IH _ H1), (IH _ Hm).
    rewrite Z.div_div by lia. f_equal.
    replace (Zpos n~0) with (Zpos n + Zpos n) by lia.
    rewrite Z.pow_add_r by lia. lia.
  - rewrite shr_m_shr_1 by exact Hm. reflexivity.
Qed.

(** Rounding a positive mantissa to the format leaves it positive. *)
Lemma shr_fexp_pos (m : positive) (e : Z) (l : location) :
  -1074 <= e ->
  0 < shr_m (fst (shr_fexp 53 1024 (Zpos m) e l)) /\
  -1074 <= snd (shr_fexp 53 1024 (Zpos m) e l).
Proof.
  intros He. unfold shr_fexp, fexp, emin, shr. cbn [Zdigits2].
  pose proof (Zdigits2_bounds m) as Hm.
  set (d := Zpos (digits2_pos m)) in *.
  destruct (Z.max (d + e - 53) (3 - 1024 - 53) - e) as [| n | n] eqn:En;
    cbn [fst snd]; rewrite ?shr_m_of_loc; try lia.
  rewrite shr_m_iter_pos by (rewrite shr_m_of_loc; lia).
  rewrite shr_m_of_loc. split; [| lia].
  assert (Hn : Zpos n = d - 53) by lia.
  assert (H0 : 0 < 2 ^ Zpos n) by (apply Z.pow_pos_nonneg; lia).
  apply (Z.lt_le_trans _ (2 ^ 52)); [lia |].
  apply Z.div_le_lower_bound; [exact H0 |].
  rewrite <- Z.pow_add_r by lia.
  replace (Zpos n + 52) with (d - 1) by lia. lia.
Qed.

Lemma binary_round_aux_pos (s : bool) (m : positive) (e : Z) (l : location) :
  -1074 <= e ->
  (exists m' e', binary_round_aux 53 1024 s (Zpos m) e l = S754_finite s m' e') \/
  binary_round_aux 53 1024 s (Zpos m) e l = S754_infinity s.
Proof.
  intros He. unfold binary_round_aux.
  pose proof (shr_fexp_pos m e l He) as [H1 H1'].
  destruct (shr_fexp 53 1024 (Zpos m) e l) as [mrs' e']. cbn [fst snd] in H1, H1'.
  pose proof (round_nearest_even_cases (shr_m mrs') (loc_of_shr_record mrs')) as Hr.
  destruct (round_nearest_even (shr_m mrs') (loc_of_shr_record mrs'))
    as [| m2 | m2]; try lia.
  pose proof (shr_fexp_pos m2 e' loc_Exact H1') as [H2 _].
  destruct (shr_fexp 53 1024 (Zpos m2) e' loc_Exact) as [mrs'' e''].
  cbn [fst] in H2.
  destruct (shr_m mrs'') as [| m3 | m3]; try lia.
  destruct (e'' <=? 1024 - 53); [left; eauto | right; reflexivity].
Qed.

Lemma binary_round_pos (s : bool) (p : positive) :
  (exists m e, binary_round 53 1024 s p 0 = S754_finite s m e) \/
  binary_round 53 1024 s p 0 = S754_infinity s.
Proof.
  unfold binary_round, shl_align, fexp, emin.
  destruct (Z.max (Zpos (digits2_pos p) + 0 - 53) (3 - 1024 - 53) - 0)
    eqn:E; apply binary_round_aux_pos; lia.
Qed.

(** [int(np.sqrt(T))] for a negative [T]: the root is nan. *)
Lemma int_sqrt_of_negative (T : Z) :
  T < 0 -> Float64.int (Float64.sqrt (Float64.of_Z T)) = Raise ValueError.
Proof.
  intros HT. destruct T as [| p | p]; try lia.
  unfold Float64.of_Z, binary_normalize, Float64.prec, Float64.emax.
  destruct (binary_round_pos true p) as [(m & e & ->) | ->]; reflexivity.
Qed.

(** Rounding keeps the sign. *)
Lemma binary_round_aux_sign (s : bool) (m e : Z) (l : location) :
  match binary_round_aux 53 1024 s m e l with
  | S754_zero s' | S754_infinity s' | S754_finite s' _ _ => s' = s
  | S754_nan => True
  end.
Proof.
  unfold binary_round_aux.
  destruct (shr_fexp 53 1024 m e l) as [mrs' e'].
  destruct (shr_fexp 53 1024 _ e' loc_Exact) as [mrs'' e''].
  destruct (shr_m mrs''); [| destruct (e'' <=? 1024 - 53) |]; exact I || reflexivity.
Qed.

(** [int(np.sqrt(T))], when it returns, is not negative. *)
Lemma int_sqrt_of_nonneg (T k : Z) :
  Float64.int (Float64.sqrt (Float64.of_Z T)) = Ok k -> 0 <= k.
Proof.
  destruct T as [| p | p].
  - cbn. intros [= <-]. lia.
  - unfold Float64.of_Z, binary_normalize, Float64.prec, Float64.emax.
    destruct (binary_round_pos false p) as [(m & e & ->) | ->];
      [| discriminate].
    unfold Float64.sqrt, SFsqrt, Float64.prec, Float64.emax.
    destruct (SFsqrt_core_binary 53 1024 (Zpos m) e) as [[mz ez] lz].
    pose proof (binary_round_aux_sign false mz ez lz) as Hs.
    destruct (binary_round_aux 53 1024 false mz ez lz) as [s | s | | s m' e'];
      cbn [Float64.int]; try discriminate.
    + intros [= <-]. lia.
    + subst s. intros [= <-].
      destruct (0 <=? e') eqn:Ee.
      * pose proof (Z.pow_nonneg 2 e' ltac:(lia)) as H2.
        destruct (2 ^ e'); lia.
      * apply Z.leb_gt in Ee.
        apply Z.div_pos; [lia | apply Z.pow_pos_nonneg; lia].
  - intros H. rewrite int_sqrt_of_negative in H by lia. discriminate.
Qed.

End Binary64.

(** [int(np.sqrt(T))] is the integer square root of a horizon below
    [2 ^ 52]: the correctly rounded root of such a [T] does not reach the
    next integer. *)
Lemma int_sqrt_small (T : Z) :
  (0 <= T < 2 ^ 52)%Z -> GFTMax.int_sqrt T = Ok (Z.sqrt T).
Proof.
  intros HT. unfold GFTMax.int_sqrt.
  replace ((T <? - 2 ^ 63) || (2 ^ 64 <=? T))%Z with false
    by (symmetry; apply orb_false_iff; split;
        [apply Z.ltb_ge | apply Z.leb_gt]; lia).
  destruct T as [| p | p]; [reflexivity | | lia].
  apply int_sqrt_of_small. lia.
Qed.

Lemma int_sqrt_negative (T : Z) :
  (- 2 ^ 63 <= T < 0)%Z -> GFTMax.int_sqrt T = Raise ValueError.
Proof.
  intros HT. unfold GFTMax.int_sqrt.
  replace ((T <? - 2 ^ 63) || (2 ^ 64 <=? T))%Z with false
    by (symmetry; apply orb_false_iff; split;
        [apply Z.ltb_ge | apply Z.leb_gt]; lia).
  apply int_sqrt_of_negative. lia.
Qed.

Lemma int_sqrt_out_of_range (T : Z) :
  (T < - 2 ^ 63 \/ 2 ^ 64 <= T)%Z -> GFTMax.int_sqrt T = Raise TypeError.
Proof.
  intros HT. unfold GFTMax.int_sqrt.
  replace ((T <? - 2 ^ 63) || (2 ^ 64 <=? T))%Z with true; [reflexivity |].
  symmetry. apply orb_true_iff.
  destruct HT; [left; apply Z.ltb_lt | right; apply Z.leb_le]; lia.
Qed.

(** A resolution, when there is one, is not negative, and the horizon is
    then a non-negative integer of 64 bits. *)
Lemma int_sqrt_Ok (T K : Z) :
  GFTMax.int_sqrt T = Ok K -> (0 <= K /\ 0 <= T < 2 ^ 64)%Z.
Proof.
  intros H.
  destruct (Z_lt_le_dec T (- 2 ^ 63)) as [Hlo | Hlo];
    [rewrite int_sqrt_out_of_range in H by lia; discriminate |].
  destruct (Z_lt_le_dec T (2 ^ 64)) as [Hhi | Hhi];
    [| rewrite int_sqrt_out_of_range in H by lia; discriminate].
  destruct (Z_lt_le_dec T 0) as [Hneg | Hneg];
    [rewrite int_sqrt_negative in H by lia; discriminate |].
  split; [| lia].
  unfold GFTMax.int_sqrt in H.
  destruct ((T <? - 2 ^ 63) || (2 ^ 64 <=? T))%Z; [discriminate |].
  exact (int_sqrt_of_nonneg T K H).
Qed.

(** The learner of a horizon of 64 bits is built. *)
Lemma new_Ok (experts : list Expert) (T : Z) :
  (Z.abs T < 2 ^ 64)%Z -> Hedge.new experts T = Ok (Hedge.init experts T).
Proof.
  intros HT. unfold Hedge.new.
  assert (Hbig : (2 ^ 64 < 2 ^ 1024 - 2 ^ 970)%Z) by reflexivity.
  replace (2 ^ 1024 - 2 ^ 970 <=? Z.abs T)%Z with false; [reflexivity |].
  symmetry. apply Z.leb_gt.
  exact (Z.lt_trans _ _ _ HT Hbig).
Qed.

(** ** Evaluating comparisons of known numbers *)

Lemma sqrt_3_bounds : 1 < sqrt 3 < 2.
Proof.
  split.
  - rewrite <- sqrt_1 at 1. apply sqrt_lt_1_alt. lra.
  - rewrite <- (sqrt_square 2) by lra. apply sqrt_lt_1_alt. lra.
Qed.

(** Replaces each comparison that [lra] decides by its value. *)
Ltac eval_cmp :=
  repeat match goal with
    | |- context [Rleb ?a ?b] =>
        first [ rewrite (proj2 (Rleb_true a b)) by lra
              | rewrite (proj2 (Rleb_false a b)) by lra ]
    | |- context [Rltb ?a ?b] =>
        first [ rewrite (proj2 (Rltb_true a b)) by lra
              | rewrite (proj2 (Rltb_false a b)) by lra ]
    | |- context [Rgeb ?a ?b] =>
        first [ rewrite (proj2 (Rgeb_true a b)) by lra
              | rewrite (proj2 (Rgeb_false a b)) by lra ]
    end.

(** Evaluates a round on a state given field by field. *)
Ltac eval_round :=
  unfold GFTMax.profit_max_on, GFTMax.gft_max_on,
    ConstrainedGFTMax.profit_max_on, ConstrainedGFTMax.gft_max_on,
    GFTMax.update_gft, GFTMax.update_budget;
  repeat (progress
            (cbn -[Hedge.update_weights Hedge.update_weights_with_rescaling
                   Hedge.init sqrt];
             eval_cmp));
  unfold GFTMax.set_gft, GFTMax.set_budget, GFTMax.set_hedge_profit,
    GFTMax.set_hedge_gft, GFTMax.set_run_profit_max;
  cbn -[Hedge.update_weights Hedge.update_weights_with_rescaling
        Hedge.init sqrt].

(** ** The run of three rounds, state by state *)

Lemma three_rounds_1_eq :
  three_rounds_1
  = {| GFTMax.budget := 1;
       GFTMax.gft := 1;
       GFTMax.budget_threshold := sqrt 3;
       GFTMax.K := 1;
       GFTMax.T := 3;
       GFTMax.environment := three_rounds_env;
       GFTMax.run_profit_max := true;
       GFTMax.price_grid_F := grid_F_1;
       GFTMax.price_grid_H := grid_H_1;
       GFTMax.hedge_profit := Hedge.update_weights (Hedge.init grid_F_1 3) 0 1;
       GFTMax.hedge_gft := Hedge.init grid_H_1 3 |}.
Proof.
  pose proof sqrt_3_bounds as Hsqrt.
  unfold three_rounds_1, three_rounds_0. eval_round. f_equal; lra.
Qed.

Lemma three_rounds_2_eq :
  three_rounds_2
  = {| GFTMax.budget := 2;
       GFTMax.gft := 2;
       GFTMax.budget_threshold := sqrt 3;
       GFTMax.K := 1;
       GFTMax.T := 3;
       GFTMax.environment := three_rounds_env;
       GFTMax.run_profit_max := false;
       GFTMax.price_grid_F := grid_F_1;
       GFTMax.price_grid_H := grid_H_1;
       GFTMax.hedge_profit :=
         Hedge.update_weights
           (Hedge.update_weights (Hedge.init grid_F_1 3) 0 1) 0 1;
       GFTMax.hedge_gft := Hedge.init grid_H_1 3 |}.
Proof.
  pose proof sqrt_3_bounds as Hsqrt.
  unfold three_rounds_2. rewrite three_rounds_1_eq. eval_round. f_equal; lra.
Qed.

Lemma three_rounds_3_eq :
  three_rounds_3
  = {| GFTMax.budget := 1;
       GFTMax.gft := 1;
       GFTMax.budget_threshold := sqrt 3;
       GFTMax.K := 1;
       GFTMax.T := 3;
       GFTMax.environment := three_rounds_env;
       GFTMax.run_profit_max := false;
       GFTMax.price_grid_F := grid_F_1;
       GFTMax.price_grid_H := grid_H_1;
       GFTMax.hedge_profit :=
         Hedge.update_weights
           (Hedge.update_weights
              (Hedge.update_weights (Hedge.init grid_F_1 3) 0 1) 0 1) 1 0;
       GFTMax.hedge_gft :=
         Hedge.update_weights (Hedge.init grid_H_1 3) 1 0 |}.
Proof.
  unfold three_rounds_3. rewrite three_rounds_2_eq. eval_round. f_equal; lra.
Qed.

(** ** The grids of resolution 1 *)

Lemma int_floor (x : R) (z : Z) : IZR z <= x < IZR z + 1 -> (0 <= z)%Z -> int x = z.
Proof.
  intros Hx Hz. unfold int.
  assert (H0 : 0 <= x) by (apply IZR_le in Hz; lra).
  apply Rleb_true in H0. rewrite H0.
  symmetry. apply Int_part_spec. lra.
Qed.

Lemma create_multiplicative_grid_1 :
  GFTMax.create_multiplicative_grid 1 = Ok grid_F_1.
Proof.
  unfold GFTMax.create_multiplicative_grid.
  rewrite ln_1, (int_floor (0 + 1) 1) by (lra || lia).
  change (range (1 + 1)) with [0; 1]%Z. change (range 1) with [0%Z].
  cbn. unfold GFTMax.around. cbn. eval_cmp. cbn.
  unfold grid_F_1. repeat f_equal; lra.
Qed.

Lemma create_additive_grid_1 : GFTMax.create_additive_grid 1 = grid_H_1.
Proof.
  unfold GFTMax.create_additive_grid, grid_H_1.
  change (range 1) with [0%Z]. cbn. repeat f_equal; lra.
Qed.

Lemma init_three_rounds : GFTMax.init 3 three_rounds_env = Ok three_rounds_0.
Proof.
  unfold GFTMax.init.
  rewrite (int_sqrt_small 3) by lia.
  change (Z.sqrt 3) with 1%Z. cbn [bind].
  rewrite create_multiplicative_grid_1, create_additive_grid_1. cbn [bind].
  rewrite !new_Ok by (cbn; lia). reflexivity.
Qed.

(** ** The run of three rounds is a run of [GFTMax] *)

Lemma three_rounds_round_0 : round GFTMax_class 0 three_rounds_0 three_rounds_1.
Proof.
  unfold round. cbn.
  exists (0, 1). split; [| reflexivity].
  apply choose_action_any; [apply init_wf | cbn; tauto].
Qed.

Lemma three_rounds_round_1 : round GFTMax_class 1 three_rounds_1 three_rounds_2.
Proof.
  assert (Hflag : GFTMax.run_profit_max three_rounds_1 = true)
    by (rewrite three_rounds_1_eq; reflexivity).
  unfold round. rewrite Hflag. cbn.
  exists (0, 1). split; [| reflexivity].
  rewrite three_rounds_1_eq. cbn [GFTMax.hedge_profit].
  apply choose_action_any; [apply update_weights_wf, init_wf | cbn; tauto].
Qed.

Lemma three_rounds_round_2 : round GFTMax_class 2 three_rounds_2 three_rounds_3.
Proof.
  assert (Hflag : GFTMax.run_profit_max three_rounds_2 = false)
    by (rewrite three_rounds_2_eq; reflexivity).
  unfold round. rewrite Hflag. cbn.
  exists (1, 0). split; [| reflexivity].
  rewrite three_rounds_2_eq. cbn [GFTMax.hedge_gft].
  apply choose_action_any; [apply init_wf | cbn; tauto].
Qed.

Lemma three_rounds_prefix : rounds GFTMax_class 0 2 three_rounds_0 three_rounds_2.
Proof.
  eapply rounds_next; [apply three_rounds_round_0 |].
  eapply rounds_next; [apply three_rounds_round_1 |].
  apply rounds_done.
Qed.

Lemma three_rounds_run : run GFTMax_class three_rounds_0 three_rounds_3.
Proof.
  unfold run. change (Z.to_nat (GFTMax.T three_rounds_0)) with 3%nat.
  eapply rounds_next; [apply three_rounds_round_0 |].
  eapply rounds_next; [apply three_rounds_round_1 |].
  eapply rounds_next; [apply three_rounds_round_2 |].
  apply rounds_done.
Qed.

(** C3.  In a run of [GFTMax] or of [ConstrainedGFTMax], from a state whose
    phase flag is off ([run_profit_max = False], the GFT phase), whatever
    the feedback, the bounds and the draws of the later rounds, the flag is
    off after them: no round switches the profit phase back on. *)
Theorem phase_never_reverts (i n : nat) (st st' : GFTMax.t) :
  GFTMax.run_profit_max st = false ->
  rounds GFTMax_class i n st st' \/ rounds ConstrainedGFTMax_class i n st st' ->
  GFTMax.run_profit_max st' = false.
Proof.
  intros Hflag [Hrounds | Hrounds].
  - apply (rounds_keep_gft_phase GFTMax_class i n st st'); auto.
  - apply (rounds_keep_gft_phase ConstrainedGFTMax_class i n st st'); auto.
Qed.

Lemma phase_never_reverts_witness :
  GFTMax.run_profit_max three_rounds_3 = false.
Proof.
  apply (phase_never_reverts 2 1 three_rounds_2 three_rounds_3).
  - rewrite three_rounds_2_eq. reflexivity.
  - left. eapply rounds_next; [apply three_rounds_round_2 | apply rounds_done].
Defined.

(** ** The two accumulators of the mechanism in one round *)

Lemma feasible_true (fb action : R * R) :
  Rleb (fst fb) (fst action) && Rleb (snd action) (snd fb) = true ->
  fst fb <= fst action /\ snd action <= snd fb.
Proof. rewrite andb_true_iff, !Rleb_true. tauto. Qed.

Lemma profit_max_on_monotone (action : Expert) (i : nat) (st : GFTMax.t) :
  fst action <= snd action ->
  GFTMax.budget st <= GFTMax.budget (GFTMax.profit_max_on action i st) /\
  GFTMax.gft st <= GFTMax.gft (GFTMax.profit_max_on action i st).
Proof.
  intros Haction. round_cases;
    try match goal with
      | H : _ && _ = true |- _ => apply feasible_true in H
      end;
    lra.
Qed.

Lemma gft_max_on_gft_monotone (action : Expert) (i : nat) (st : GFTMax.t) :
  fst (get_valuations (GFTMax.environment st) i)
    <= snd (get_valuations (GFTMax.environment st) i) ->
  GFTMax.gft st <= GFTMax.gft (GFTMax.gft_max_on action i st).
Proof.
  intros Hfb. round_cases; lra.
Qed.

(** ** The multiplicative grid *)

Lemma for_append_Ok {A B : Type} (body : A -> result (list B))
    (f : A -> list B) (xs : list A) :
  (forall x, In x xs -> body x = Ok (f x)) ->
  for_append body xs = Ok (flat_map f xs).
Proof.
  induction xs as [| x xs IH]; intros Hbody; simpl.
  - reflexivity.
  - rewrite (Hbody x) by (left; reflexivity).
    rewrite IH by (intros y Hy; apply Hbody; right; exact Hy).
    reflexivity.
Qed.

Lemma in_range (n k : Z) : In k (range n) <-> (0 <= k < n)%Z.
Proof.
  unfold range. rewrite in_map_iff. split.
  - intros (m & <- & Hm). apply in_seq in Hm. lia.
  - intros Hk. exists (Z.to_nat k). split; [lia |]. apply in_seq. lia.
Qed.

(** The rows the outer loop appends for the diagonal point [k / K]. *)
Lemma create_multiplicative_grid_rows (K : Z) :
  K <> 0%Z ->
  GFTMax.create_multiplicative_grid K
  = Ok (flat_map
          (fun k =>
             (IZR k / IZR K, IZR k / IZR K)
               :: flat_map (GFTMax.around (IZR k / IZR K))
                    (range (int (ln (IZR K) + 1))))
          (range (K + 1))).
Proof.
  intros HK. unfold GFTMax.create_multiplicative_grid.
  apply for_append_Ok. intros k _. unfold truediv.
  apply Z.eqb_neq in HK. rewrite HK. reflexivity.
Qed.

Lemma create_multiplicative_grid_0 :
  GFTMax.create_multiplicative_grid 0 = Raise ZeroDivisionError.
Proof. reflexivity. Qed.

Lemma in_around (g_k : R) (i : Z) (x : Expert) :
  In x (GFTMax.around g_k i) <->
  (g_k - powerRZ 2 (- i) >= 0 /\ x = (g_k - powerRZ 2 (- i), g_k)) \/
  (g_k + powerRZ 2 (- i) <= 1 /\ x = (g_k, g_k + powerRZ 2 (- i))).
Proof.
  unfold GFTMax.around. rewrite in_app_iff.
  destruct (Rgeb (g_k - powerRZ 2 (- i)) 0) eqn:Eminus;
    [apply Rgeb_true in Eminus | apply Rgeb_false in Eminus];
    (destruct (Rleb (g_k + powerRZ 2 (- i)) 1) eqn:Eplus;
     [apply Rleb_true in Eplus | apply Rleb_false in Eplus]);
    simpl; split;
    intros [H | H]; try tauto;
    try (destruct H as [H | []]; subst x; (left + right); split;
         (lra || reflexivity));
    destruct H as [H ->]; try lra; auto.
Qed.

(** Membership in the grid, with the exponents of the code. *)
Lemma in_create_multiplicative_grid (K : Z) (F : list Expert) (x : Expert) :
  K <> 0%Z ->
  GFTMax.create_multiplicative_grid K = Ok F ->
  In x F <-> spec_grid_member (int (ln (IZR K) + 1)) K x.
Proof.
  intros HK HF. rewrite (create_multiplicative_grid_rows K HK) in HF.
  injection HF as <-. unfold spec_grid_member.
  rewrite in_flat_map. split.
  - intros (k & Hk & Hx). apply in_range in Hk.
    exists k. split; [lia |].
    destruct Hx as [Hx | Hx]; [left; congruence | right].
    apply in_flat_map in Hx. destruct Hx as (i & Hi & Hx).
    apply in_range in Hi. apply in_around in Hx. eauto.
  - intros (k & Hk & Hx). exists k. split; [apply in_range; lia |].
    destruct Hx as [-> | (i & Hi & Hx)]; [left; reflexivity | right].
    apply in_flat_map. exists i. split; [apply in_range; lia |].
    apply in_around, Hx.
Qed.

(** Every pair of the grid asks at most what it bids. *)
Lemma multiplicative_grid_ask_le_bid (K : Z) (F : list Expert) (x : Expert) :
  GFTMax.create_multiplicative_grid K = Ok F ->
  In x F -> fst x <= snd x.
Proof.
  intros HF Hx.
  destruct (Z.eq_dec K 0) as [-> | HK].
  { rewrite create_multiplicative_grid_0 in HF. discriminate. }
  apply (in_create_multiplicative_grid K F x HK HF) in Hx.
  destruct Hx as (k & _ & [-> | (i & _ & Hx)]); cbn [fst snd]; [lra |].
  assert (Hpow : 0 < powerRZ 2 (- i)) by (apply powerRZ_lt; lra).
  destruct Hx as [[_ ->] | [_ ->]]; cbn [fst snd]; lra.
Qed.







(** ** Constructed mechanisms *)

Lemma init_constructed (T : Z) (env : Environment) (st0 : GFTMax.t) :
  GFTMax.init T env = Ok st0 ->
  constructed st0 /\
  GFTMax.environment st0 = env /\
  GFTMax.T st0 = T /\
  GFTMax.run_profit_max st0 = true /\
  GFTMax.budget st0 = 0 /\
  GFTMax.gft st0 = 0.
Proof.
  unfold GFTMax.init.
  destruct (GFTMax.int_sqrt T) as [K | e] eqn:HK; cbn [bind]; [| discriminate].
  destruct (int_sqrt_Ok T K HK) as [HK0 HT].
  destruct (GFTMax.create_multiplicative_grid K)
    as [F | e] eqn:HF; cbn [bind]; [| discriminate].
  rewrite !new_Ok by lia. cbn [bind].
  intros [= <-]. unfold constructed.
  cbn [GFTMax.K GFTMax.price_grid_F GFTMax.price_grid_H GFTMax.hedge_profit
       GFTMax.hedge_gft GFTMax.environment GFTMax.T GFTMax.run_profit_max
       GFTMax.budget GFTMax.gft Hedge.experts Hedge.init].
  repeat split; try reflexivity; try apply init_wf.
  - destruct (Z.eq_dec K 0) as [E | E]; [| lia].
    rewrite E, create_multiplicative_grid_0 in HF. discriminate.
  - exact HF.
Qed.

Section RoundsKeepConstructed.

Variables (action : Expert) (i : nat) (st : GFTMax.t).
Hypothesis Hst : constructed st.

Ltac keep_constructed :=
  destruct Hst as (HK & HF & HH & HeF & HeH & HwF & HwH);
  unfold constructed;
  round_cases;
  refine (conj _ (conj _ (conj _ (conj _ (conj _ (conj _ _))))));
  solve [ assumption
        | apply update_weights_wf; assumption
        | apply update_weights_with_rescaling_wf; assumption ].

Lemma profit_max_on_constructed :
  constructed (GFTMax.profit_max_on action i st).
Proof. keep_constructed. Qed.

Lemma gft_max_on_constructed :
  constructed (GFTMax.gft_max_on action i st).
Proof. keep_constructed. Qed.

Lemma constrained_profit_max_on_constructed :
  constructed (ConstrainedGFTMax.profit_max_on action i st).
Proof. keep_constructed. Qed.

Lemma constrained_gft_max_on_constructed :
  constructed (ConstrainedGFTMax.gft_max_on action i st).
Proof. keep_constructed. Qed.

End RoundsKeepConstructed.

Lemma round_constructed (M : Mechanism) (i : nat) (st st' : GFTMax.t) :
  M = GFTMax_class \/ M = ConstrainedGFTMax_class ->
  constructed st -> round M i st st' -> constructed st'.
Proof.
  intros HM Hst Hround. unfold round in Hround.
  destruct HM as [-> | ->], (GFTMax.run_profit_max st);
    destruct Hround as (action & _ & ->).
  - now apply profit_max_on_constructed.
  - now apply gft_max_on_constructed.
  - now apply constrained_profit_max_on_constructed.
  - now apply constrained_gft_max_on_constructed.
Qed.

Lemma rounds_constructed (M : Mechanism) (i n : nat) (st st' : GFTMax.t) :
  M = GFTMax_class \/ M = ConstrainedGFTMax_class ->
  rounds M i n st st' -> constructed st -> constructed st'.
Proof.
  intros HM Hrounds.
  induction Hrounds as [i st | i n st st' st'' Hround _ IH]; intros Hst.
  - exact Hst.
  - apply IH. exact (round_constructed M i st st' HM Hst Hround).
Qed.

(** Both grids of a positive resolution have a first pair. *)
Lemma grids_nonempty (st : GFTMax.t) :
  constructed st ->
  Hedge.experts (GFTMax.hedge_profit st) <> [] /\
  Hedge.experts (GFTMax.hedge_gft st) <> [].
Proof.
  intros (HK & HF & HH & HeF & HeH & _ & _).
  rewrite HeF, HeH, HH.
  rewrite create_multiplicative_grid_rows in HF by lia.
  injection HF as <-.
  unfold GFTMax.create_additive_grid, range.
  destruct (Z.to_nat (GFTMax.K st + 1)) as [| m] eqn:Em; [lia |].
  destruct (Z.to_nat (GFTMax.K st)) as [| m'] eqn:Em'; [lia |].
  split; discriminate.
Qed.

(** A constructed mechanism can make every round: the learner of the phase
    has an expert to draw. *)
Lemma round_exists (M : Mechanism) (i : nat) (st : GFTMax.t) :
  M = GFTMax_class \/ M = ConstrainedGFTMax_class ->
  constructed st -> exists st', round M i st st'.
Proof.
  intros HM Hst.
  destruct (grids_nonempty st Hst) as [HF HH].
  destruct Hst as (_ & _ & _ & _ & _ & HwF & HwH).
  unfold round.
  destruct (GFTMax.run_profit_max st).
  - destruct (Hedge.experts (GFTMax.hedge_profit st)) as [| a F] eqn:E;
      [congruence |].
    assert (Ha : Hedge.choose_action (GFTMax.hedge_profit st) a)
      by (apply choose_action_any; [exact HwF | rewrite E; left; reflexivity]).
    destruct HM as [-> | ->]; eexists; exists a; split;
      (exact Ha || reflexivity).
  - destruct (Hedge.experts (GFTMax.hedge_gft st)) as [| a H] eqn:E;
      [congruence |].
    assert (Ha : Hedge.choose_action (GFTMax.hedge_gft st) a)
      by (apply choose_action_any; [exact HwH | rewrite E; left; reflexivity]).
    destruct HM as [-> | ->]; eexists; exists a; split;
      (exact Ha || reflexivity).
Qed.

Lemma rounds_exist (M : Mechanism) (n i : nat) (st : GFTMax.t) :
  M = GFTMax_class \/ M = ConstrainedGFTMax_class ->
  constructed st -> exists st', rounds M i n st st'.
Proof.
  intros HM. revert i st.
  induction n as [| n IH]; intros i st Hst.
  - exists st. constructor.
  - destruct (round_exists M i st HM Hst) as [st' Hround].
    destruct (IH (S i) st' (round_constructed M i st st' HM Hst Hround))
      as [st'' Hrounds].
    exists st''. econstructor; eassumption.
Qed.

(** [run] returns on every constructed mechanism. *)
Lemma run_exists (M : Mechanism) (T : Z) (env : Environment) (st0 : GFTMax.t) :
  M = GFTMax_class \/ M = ConstrainedGFTMax_class ->
  GFTMax.init T env = Ok st0 -> exists st', run M st0 st'.
Proof.
  intros HM Hinit. apply rounds_exist; [exact HM |].
  apply (init_constructed T env st0 Hinit).
Qed.

(** ** Budget and gains from trade over the rounds of a run *)

(** C1, as stated, fails: in the run of three rounds the third round is a
    round of the GFT phase, its action (1, 0) comes from the additive grid
    and clears against the valuations (1, 0); the budget and the gft both go
    from 2 to 1. *)
Lemma budget_and_gft_can_decrease :
  ~ (forall (T : Z) (env : Environment) (st0 : GFTMax.t)
            (n : nat) (st st' : GFTMax.t),
        GFTMax.init T env = Ok st0 ->
        (n < Z.to_nat T)%nat ->
        rounds GFTMax_class 0 n st0 st ->
        round GFTMax_class n st st' ->
        GFTMax.budget st <= GFTMax.budget st' /\
        GFTMax.gft st <= GFTMax.gft st').
Proof.
  intros H.
  specialize (H 3%Z three_rounds_env three_rounds_0 2%nat
                three_rounds_2 three_rounds_3
                init_three_rounds ltac:(cbn; lia)
                three_rounds_prefix three_rounds_round_2).
  rewrite three_rounds_2_eq, three_rounds_3_eq in H. cbn in H. lra.
Qed.

(** C1, amended.  In every round of a run of [GFTMax] made in the profit
    phase (the action comes from the multiplicative grid, which asks at most
    what it bids), the budget and the gft after the round are at least
    their values before it; in a round of the GFT phase the gft is at least
    its value before the round when the valuations satisfy
    [hidden_s <= hidden_b]. *)
Theorem profit_phase_rounds_monotone
    (T : Z) (env : Environment) (st0 : GFTMax.t) (n : nat) (st st' : GFTMax.t) :
  GFTMax.init T env = Ok st0 ->
  rounds GFTMax_class 0 n st0 st ->
  round GFTMax_class n st st' ->
  (GFTMax.run_profit_max st = true ->
   GFTMax.budget st <= GFTMax.budget st' /\
   GFTMax.gft st <= GFTMax.gft st')
  /\
  (GFTMax.run_profit_max st = false ->
   fst (get_valuations (GFTMax.environment st) n)
     <= snd (get_valuations (GFTMax.environment st) n) ->
   GFTMax.gft st <= GFTMax.gft st').
Proof.
  intros Hinit Hrounds Hround.
  assert (Hst : constructed st).
  { apply (rounds_constructed GFTMax_class 0 n st0 st); auto.
    apply (init_constructed T env st0 Hinit). }
  unfold round in Hround. split; intros Hflag; rewrite Hflag in Hround;
    destruct Hround as (action & Haction & ->).
  - apply profit_max_on_monotone.
    destruct Hst as (_ & HF & _ & HeF & _).
    apply (multiplicative_grid_ask_le_bid (GFTMax.K st) (GFTMax.price_grid_F st));
      [exact HF |].
    rewrite <- HeF. apply choose_action_In, Haction.
  - intros Hfb. apply gft_max_on_gft_monotone, Hfb.
Qed.

Lemma profit_phase_rounds_monotone_witness :
  GFTMax.budget three_rounds_1 <= GFTMax.budget three_rounds_2 /\
  GFTMax.gft three_rounds_1 <= GFTMax.gft three_rounds_2.
Proof.
  destruct (profit_phase_rounds_monotone 3 three_rounds_env three_rounds_0 1
              three_rounds_1 three_rounds_2 init_three_rounds)
    as [Hprofit _].
  - eapply rounds_next; [apply three_rounds_round_0 | apply rounds_done].
  - apply three_rounds_round_1.
  - apply Hprofit. rewrite three_rounds_1_eq. reflexivity.
Defined.

(** ** Construction *)

(** C7, as stated, fails: the constructor of the learner has no check on the
    size of the expert set; with the one expert of the additive grid of
    resolution 1 it returns a learner. *)
Lemma hedge_accepts_one_expert :
  ~ (forall (experts : list Expert) (T : Z),
        (length experts < 2)%nat ->
        exists e : exn, Hedge.new experts T = Raise e).
Proof.
  intros H. destruct (H [(1, 0)] 1%Z ltac:(cbn; lia)) as [e He].
  rewrite new_Ok in He by (cbn; lia). discriminate He.
Qed.

(** C7, amended.  Constructing the mechanism with a non-positive horizon
    fails at construction time: with [ZeroDivisionError] for [T = 0], with
    [ValueError] for a negative [T] of 64 bits, and with [TypeError] for a
    [T] below [- 2 ^ 63].  Constructing a learner with one expert and a
    positive horizon of 64 bits does not fail: it gives the learner with the
    single weight 1 and [epsilon = 0]. *)
Theorem construction_failures :
  (forall (T : Z) (env : Environment),
      (T <= 0)%Z ->
      GFTMax.init T env
      = Raise (if (T <? - 2 ^ 63)%Z then TypeError
               else if (T <? 0)%Z then ValueError
               else ZeroDivisionError) /\
      ConstrainedGFTMax.init T env = GFTMax.init T env)
  /\
  (forall (x : Expert) (T : Z),
      (0 < T < 2 ^ 63)%Z ->
      exists h : Hedge.t,
        Hedge.new [x] T = Ok h /\
        Hedge.weights h = [1 / 1] /\
        Hedge.epsilon h = 0).
Proof.
  split.
  - intros T env HT. split; [| reflexivity].
    unfold GFTMax.init.
    destruct (Z.ltb_spec T (- 2 ^ 63)) as [Hlo | Hlo];
      [rewrite int_sqrt_out_of_range by lia; reflexivity |].
    destruct (Z.ltb_spec T 0) as [Hneg | Hneg];
      [rewrite int_sqrt_negative by lia; reflexivity |].
    assert (T = 0%Z) as -> by lia.
    rewrite (int_sqrt_small 0) by lia. reflexivity.
  - intros x T HT. exists (Hedge.init [x] T).
    split; [apply new_Ok; lia |]. split; [reflexivity |].
    unfold Hedge.init. cbn [Hedge.epsilon length INR].
    rewrite ln_1. unfold Rdiv. rewrite Rmult_0_l. apply sqrt_0.
Qed.

Lemma construction_failures_witness :
  GFTMax.init 0 three_rounds_env = Raise ZeroDivisionError /\
  GFTMax.init (-1) three_rounds_env = Raise ValueError /\
  GFTMax.init (- 2 ^ 63 - 1) three_rounds_env = Raise TypeError /\
  exists h : Hedge.t,
    Hedge.new [(1, 0)] 1 = Ok h /\
    Hedge.weights h = [1 / 1] /\
    Hedge.epsilon h = 0.
Proof.
  destruct construction_failures as (Hmechanism & Hone).
  split; [| split; [| split]].
  - apply (Hmechanism 0%Z three_rounds_env). lia.
  - apply (Hmechanism (-1)%Z three_rounds_env). lia.
  - apply (Hmechanism (- 2 ^ 63 - 1)%Z three_rounds_env). lia.
  - apply (Hone (1, 0) 1%Z). lia.
Defined.

Lemma constrained_round_of_feasible_action_witness :
  ConstrainedGFTMax.profit_max_on (0, 1) 0 three_rounds_0
    = GFTMax.profit_max_on (0, 1) 0 three_rounds_0 /\
  ConstrainedGFTMax.gft_max_on (0, 1) 0 three_rounds_0
    = GFTMax.gft_max_on (0, 1) 0 three_rounds_0.
Proof.
  apply (constrained_round_of_feasible_action (0, 1) 0 three_rounds_0);
    cbn; lra.
Defined.

(** * Further properties of the code *)

(** ** The two grids *)

Lemma in_create_additive_grid (K : Z) (x : Expert) :
  In x (GFTMax.create_additive_grid K) <->
  exists i : Z, (0 <= i < K)%Z /\ x = (IZR (i + 1) / IZR K, IZR i / IZR K).
Proof.
  unfold GFTMax.create_additive_grid. rewrite in_map_iff. split.
  - intros (i & <- & Hi). apply in_range in Hi. eauto.
  - intros (i & Hi & ->). exists i. split; [reflexivity | now apply in_range].
Qed.

Lemma length_range (n : Z) : length (range n) = Z.to_nat n.
Proof. unfold range. now rewrite length_map, length_seq. Qed.

(** X1.  For a resolution [K >= 1] the additive grid has exactly [K]
    pairs; each bids its ask minus [1 / K], and its coordinates satisfy
    [0 <= bid < ask <= 1]. *)
Theorem additive_grid_shape (K : Z) :
  (1 <= K)%Z ->
  length (GFTMax.create_additive_grid K) = Z.to_nat K /\
  forall x : Expert,
    In x (GFTMax.create_additive_grid K) ->
    snd x = fst x - 1 / IZR K /\ 0 <= snd x /\ snd x < fst x /\ fst x <= 1.
Proof.
  intros HK. split.
  - unfold GFTMax.create_additive_grid. now rewrite length_map, length_range.
  - intros x Hx. apply in_create_additive_grid in Hx.
    destruct Hx as (i & Hi & ->). cbn [fst snd].
    assert (HK0 : 0 < IZR K) by (apply IZR_lt; lia).
    assert (Hi0 : 0 <= IZR i) by (apply IZR_le; lia).
    assert (Hi1 : IZR (i + 1) <= IZR K) by (apply IZR_le; lia).
    rewrite plus_IZR in *.
    assert (Hinv : 0 < / IZR K) by now apply Rinv_0_lt_compat.
    unfold Rdiv. repeat split.
    + field. lra.
    + apply Rmult_le_pos; lra.
    + apply Rmult_lt_compat_r; lra.
    + apply (Rmult_le_reg_r (IZR K)); [exact HK0 |].
      rewrite Rmult_assoc, Rinv_l by lra. lra.
Qed.

Lemma additive_grid_shape_witness :
  length (GFTMax.create_additive_grid 10) = Z.to_nat 10 /\
  forall x : Expert,
    In x (GFTMax.create_additive_grid 10) ->
    snd x = fst x - 1 / IZR 10 /\ 0 <= snd x /\ snd x < fst x /\ fst x <= 1.
Proof.
  apply (additive_grid_shape 10). lia.
Defined.



Lemma range_nonpos (n : Z) : (n <= 0)%Z -> range n = [].
Proof.
  intros Hn. unfold range.
  replace (Z.to_nat n) with 0%nat by lia. reflexivity.
Qed.

(** X3.  At the degenerate resolutions: the multiplicative grid raises
    [ZeroDivisionError] for [K = 0], at its first division, and is the empty
    list for a negative [K], whose loop has no iteration; the additive grid
    is the empty list for every [K <= 0] and never divides by 0. *)
Theorem grids_of_degenerate_resolution (K : Z) :
  (K <= 0)%Z ->
  GFTMax.create_multiplicative_grid K
    = (if (K =? 0)%Z then Raise ZeroDivisionError else Ok []) /\
  GFTMax.create_additive_grid K = [].
Proof.
  intros HK. split.
  - destruct (K =? 0)%Z eqn:E.
    + apply Z.eqb_eq in E. subst K. reflexivity.
    + apply Z.eqb_neq in E. unfold GFTMax.create_multiplicative_grid.
      rewrite (range_nonpos (K + 1)) by lia. reflexivity.
  - unfold GFTMax.create_additive_grid. now rewrite range_nonpos.
Qed.

Lemma grids_of_degenerate_resolution_witness :
  GFTMax.create_multiplicative_grid (-2)
    = (if (-2 =? 0)%Z then Raise ZeroDivisionError else Ok []) /\
  GFTMax.create_additive_grid (-2) = [].
Proof.
  apply (grids_of_degenerate_resolution (-2)). lia.
Defined.

(** ** The constructor of the mechanism *)

(** The constructor on a horizon [1 <= T < 2 ^ 52]. *)
Lemma init_small (T : Z) (env : Environment) :
  (1 <= T < 2 ^ 52)%Z ->
  exists F : list Expert,
    GFTMax.create_multiplicative_grid (Z.sqrt T) = Ok F /\
    GFTMax.init T env
    = Ok {| GFTMax.budget := 0;
            GFTMax.gft := 0;
            GFTMax.budget_threshold := sqrt (IZR T);
            GFTMax.K := Z.sqrt T;
            GFTMax.T := T;
            GFTMax.environment := env;
            GFTMax.run_profit_max := true;
            GFTMax.price_grid_F := F;
            GFTMax.price_grid_H := GFTMax.create_additive_grid (Z.sqrt T);
            GFTMax.hedge_profit := Hedge.init F T;
            GFTMax.hedge_gft :=
              Hedge.init (GFTMax.create_additive_grid (Z.sqrt T)) T |}.
Proof.
  intros HT.
  assert (HK : (0 < Z.sqrt T)%Z) by (apply Z.sqrt_pos; lia).
  assert (HK0 : Z.sqrt T <> 0%Z) by lia.
  pose proof (create_multiplicative_grid_rows _ HK0) as HF.
  eexists. split; [exact HF |].
  unfold GFTMax.init.
  rewrite int_sqrt_small by lia. cbn [bind].
  rewrite HF. cbn [bind].
  rewrite !new_Ok by lia. reflexivity.
Qed.

(** The horizon [67108865 ^ 2 - 1] is not below [2 ^ 52]: the float of its
    root is [67108865.0], and the resolution is not its integer root. *)
Lemma int_sqrt_rounds_up :
  GFTMax.int_sqrt (67108865 * 67108865 - 1) = Ok 67108865%Z /\
  Z.sqrt (67108865 * 67108865 - 1) = 67108864%Z.
Proof. split; vm_compute; reflexivity. Qed.

(** X4.  For every horizon [1 <= T < 2 ^ 52] the constructor returns a
    mechanism: it starts in the profit phase with budget 0 and gft 0, its
    threshold is [sqrt T], its resolution [K] is the integer square root of
    [T] (so [K >= 1]), its grids are those of [K], and its two learners are
    fresh learners over the two grids, the second with exactly [K]
    experts. *)
Theorem init_of_positive_horizon (T : Z) (env : Environment) :
  (1 <= T < 2 ^ 52)%Z ->
  exists st : GFTMax.t,
    GFTMax.init T env = Ok st /\
    ConstrainedGFTMax.init T env = Ok st /\
    GFTMax.budget st = 0 /\
    GFTMax.gft st = 0 /\
    GFTMax.run_profit_max st = true /\
    GFTMax.budget_threshold st = sqrt (IZR T) /\
    GFTMax.T st = T /\
    GFTMax.environment st = env /\
    (1 <= GFTMax.K st)%Z /\
    (GFTMax.K st * GFTMax.K st <= T < (GFTMax.K st + 1) * (GFTMax.K st + 1))%Z /\
    GFTMax.create_multiplicative_grid (GFTMax.K st) = Ok (GFTMax.price_grid_F st) /\
    GFTMax.price_grid_H st = GFTMax.create_additive_grid (GFTMax.K st) /\
    GFTMax.hedge_profit st = Hedge.init (GFTMax.price_grid_F st) T /\
    GFTMax.hedge_gft st = Hedge.init (GFTMax.price_grid_H st) T /\
    Hedge.no_experts (GFTMax.hedge_gft st) = Z.to_nat (GFTMax.K st).
Proof.
  intros HT.
  destruct (init_small T env HT) as (F & HF & Hinit).
  assert (HK : (0 < Z.sqrt T)%Z) by (apply Z.sqrt_pos; lia).
  pose proof (Z.sqrt_spec T ltac:(lia)) as Hsq. cbv zeta in Hsq.
  unfold ConstrainedGFTMax.init. rewrite Hinit.
  eexists. split; [reflexivity |]. split; [reflexivity |].
  cbn [GFTMax.K GFTMax.price_grid_F GFTMax.price_grid_H GFTMax.hedge_profit
       GFTMax.hedge_gft GFTMax.environment GFTMax.T GFTMax.run_profit_max
       GFTMax.budget GFTMax.gft GFTMax.budget_threshold].
  repeat split; try reflexivity; try lia.
  - exact HF.
  - cbn [Hedge.init Hedge.no_experts].
    unfold GFTMax.create_additive_grid. now rewrite length_map, length_range.
Qed.

Lemma init_of_positive_horizon_witness :
  exists st : GFTMax.t,
    GFTMax.init 100 three_rounds_env = Ok st /\
    ConstrainedGFTMax.init 100 three_rounds_env = Ok st /\
    GFTMax.budget st = 0 /\
    GFTMax.gft st = 0 /\
    GFTMax.run_profit_max st = true /\
    GFTMax.budget_threshold st = sqrt (IZR 100) /\
    GFTMax.T st = 100%Z /\
    GFTMax.environment st = three_rounds_env /\
    (1 <= GFTMax.K st)%Z /\
    (GFTMax.K st * GFTMax.K st <= 100
     < (GFTMax.K st + 1) * (GFTMax.K st + 1))%Z /\
    GFTMax.create_multiplicative_grid (GFTMax.K st) = Ok (GFTMax.price_grid_F st) /\
    GFTMax.price_grid_H st = GFTMax.create_additive_grid (GFTMax.K st) /\
    GFTMax.hedge_profit st = Hedge.init (GFTMax.price_grid_F st) 100 /\
    GFTMax.hedge_gft st = Hedge.init (GFTMax.price_grid_H st) 100 /\
    Hedge.no_experts (GFTMax.hedge_gft st) = Z.to_nat (GFTMax.K st).
Proof.
  apply (init_of_positive_horizon 100 three_rounds_env). lia.
Defined.

(** ** The distribution the learner draws from *)

Lemma sum_map_div (S : R) (ws : list R) :
  sum (map (fun w => w / S) ws) = sum ws / S.
Proof.
  induction ws as [| w ws IH]; simpl.
  - unfold Rdiv. now rewrite Rmult_0_l.
  - rewrite IH. unfold Rdiv. ring.
Qed.

Lemma probabilities_of_wf (h : Hedge.t) :
  Hedge.wf h ->
  Hedge.experts h <> [] ->
  length (Hedge.probabilities h) = length (Hedge.experts h) /\
  Forall (fun p => 0 < p) (Hedge.probabilities h) /\
  sum (Hedge.probabilities h) = 1.
Proof.
  intros (He & Hw & _ & Hpos) Hne.
  assert (Hws : Hedge.weights h <> []).
  { intros E. rewrite E in Hw. simpl in Hw.
    destruct (Hedge.experts h); [congruence | simpl in He; lia]. }
  pose proof (sum_pos _ Hws Hpos) as HS.
  unfold Hedge.probabilities. split; [| split].
  - rewrite length_map. lia.
  - apply Forall_forall. intros p Hp. apply in_map_iff in Hp.
    destruct Hp as (w & <- & Hin). rewrite Forall_forall in Hpos.
    apply Rdiv_lt_0_compat; [now apply Hpos | exact HS].
  - rewrite sum_map_div. field. lra.
Qed.

(** The experts, the rate, the horizon and the size of a learner are those
    it was built with. *)
Lemma update_weights_seq_keeps (rounds : list (R * R)) (h : Hedge.t) :
  Hedge.experts (update_weights_seq h rounds) = Hedge.experts h /\
  Hedge.epsilon (update_weights_seq h rounds) = Hedge.epsilon h /\
  Hedge.T (update_weights_seq h rounds) = Hedge.T h /\
  Hedge.no_experts (update_weights_seq h rounds) = Hedge.no_experts h.
Proof.
  revert h. induction rounds as [| fb rounds IH]; intros h; simpl.
  - repeat split.
  - apply (IH (Hedge.update_weights h (fst fb) (snd fb))).
Qed.

(** ** The weights and accumulators after many rounds *)

Lemma update_weights_seq_entries
    (rounds : list (R * R)) (e : nat) (x : Expert) :
  forall (h : Hedge.t) (w g : R),
  nth_error (Hedge.experts h) e = Some x ->
  nth_error (Hedge.weights h) e = Some w ->
  nth_error (Hedge.gft h) e = Some g ->
  nth_error (Hedge.weights (update_weights_seq h rounds)) e
    = Some (w * exp (- (Hedge.epsilon h * total_loss rounds x))) /\
  nth_error (Hedge.gft (update_weights_seq h rounds)) e
    = Some (g + total_realized rounds x).
Proof.
  unfold total_loss, total_realized.
  induction rounds as [| fb rounds IH]; intros h w g Hx Hw Hg; simpl.
  - rewrite Rmult_0_r, Ropp_0, exp_0, Rmult_1_r, Rplus_0_r. split; assumption.
  - destruct (IH (Hedge.update_weights h (fst fb) (snd fb))
                (w * exp (- Hedge.epsilon h * spec_loss (fst fb) (snd fb) x))
                (g + spec_realized (fst fb) (snd fb) x)) as [IHw IHg].
    + exact Hx.
    + now apply update_weights_weight.
    + now apply update_weights_gft.
    + rewrite IHw, IHg. cbn [Hedge.update_weights Hedge.epsilon].
      split; f_equal; [| ring].
      rewrite Rmult_assoc, <- exp_plus. do 2 f_equal. ring.
Qed.

Lemma weights_after_rounds
    (experts : list Expert) (T : Z) (rounds : list (R * R))
    (e : nat) (x : Expert) :
  nth_error experts e = Some x ->
  nth_error (Hedge.weights (update_weights_seq (Hedge.init experts T) rounds)) e
    = Some (1 / INR (length experts)
            * exp (- (Hedge.epsilon (Hedge.init experts T) * total_loss rounds x)))
  /\
  nth_error (Hedge.gft (update_weights_seq (Hedge.init experts T) rounds)) e
    = Some (total_realized rounds x).
Proof.
  intros Hx.
  assert (He : (e < length experts)%nat)
    by (apply nth_error_Some; congruence).
  destruct (update_weights_seq_entries rounds e x (Hedge.init experts T)
              (1 / INR (length experts)) 0) as [Hw Hg].
  - exact Hx.
  - cbn [Hedge.init Hedge.weights].
    apply (map_nth_error (fun one => one / INR (length experts))).
    rewrite nth_error_repeat by exact He. reflexivity.
  - cbn [Hedge.init Hedge.gft]. now rewrite nth_error_repeat.
  - split; [exact Hw |]. rewrite Hg. f_equal. ring.
Qed.



(** ** The distribution after rounds in the unit square *)

Lemma spec_loss_in_unit_square (fb : R * R) (x : Expert) :
  in_unit_square fb -> -1 <= spec_loss (fst fb) (snd fb) x <= 1.
Proof.
  intros [Hs Hb].
  unfold spec_loss, spec_realized, spec_potential.
  destruct (Rleb 0 (snd fb - fst fb)), (spec_feasible (fst fb) (snd fb) x); lra.
Qed.

Lemma total_loss_in_unit_square (rounds : list (R * R)) (x : Expert) :
  Forall in_unit_square rounds ->
  - INR (length rounds) <= total_loss rounds x <= INR (length rounds).
Proof.
  unfold total_loss.
  induction 1 as [| fb rounds Hfb _ IH].
  - simpl. lra.
  - pose proof (spec_loss_in_unit_square fb x Hfb).
    change (length (fb :: rounds)) with (S (length rounds)). rewrite S_INR.
    simpl. lra.
Qed.

Lemma new_is_init (experts : list Expert) (T : Z) (h : Hedge.t) :
  Hedge.new experts T = Ok h -> h = Hedge.init experts T.
Proof.
  unfold Hedge.new. destruct (2 ^ 1024 - 2 ^ 970 <=? Z.abs T)%Z;
    [discriminate | now intros [= <-]].
Qed.

(** X5.  Take a learner built from a non-empty expert list and a horizon
    [T >= 1], and a sequence of [update_weights] calls with valuations in
    the unit square, short enough for [epsilon * rounds <= 600].  Then
    every weight lies between [exp (-600) / N] and [exp 600 / N] (the floats
    neither underflow nor overflow), and the vector [choose_action] draws
    from has one entry per expert, every entry is positive, and the entries
    sum to 1: every expert can still be drawn. *)
Theorem probabilities_stay_a_distribution
    (experts : list Expert) (T : Z) (h : Hedge.t) (rounds : list (R * R)) :
  experts <> [] ->
  (1 <= T)%Z ->
  Hedge.new experts T = Ok h ->
  Forall in_unit_square rounds ->
  Hedge.epsilon h * INR (length rounds) <= 600 ->
  Forall (fun w => exp (-600) / INR (length experts) <= w
                   <= exp 600 / INR (length experts))
    (Hedge.weights (update_weights_seq h rounds)) /\
  length (Hedge.probabilities (update_weights_seq h rounds)) = length experts /\
  Forall (fun p => 0 < p) (Hedge.probabilities (update_weights_seq h rounds)) /\
  sum (Hedge.probabilities (update_weights_seq h rounds)) = 1 /\
  forall action : Expert,
    In action experts ->
    Hedge.choose_action (update_weights_seq h rounds) action.
Proof.
  intros Hne HT Hnew Hsquare Hrate.
  apply new_is_init in Hnew. subst h.
  pose proof (update_weights_seq_wf rounds _ (init_wf experts T)) as Hwf.
  assert (He : Hedge.experts (update_weights_seq (Hedge.init experts T) rounds)
               = experts)
    by (destruct (update_weights_seq_keeps rounds (Hedge.init experts T))
          as [He _]; exact He).
  destruct (probabilities_of_wf _ Hwf) as (Hlen & Hpos & Hsum).
  { rewrite He. exact Hne. }
  rewrite He in Hlen. split; [| repeat split; try assumption].
  - assert (HN : 0 < INR (length experts)).
    { apply lt_0_INR. destruct experts; [congruence | simpl; lia]. }
    assert (Heps : 0 <= Hedge.epsilon (Hedge.init experts T))
      by apply sqrt_pos.
    apply Forall_forall. intros w Hw.
    apply In_nth_error in Hw. destruct Hw as [e Hw].
    assert (Hlt : (e < length experts)%nat).
    { destruct Hwf as (Hle & Hlw & _). rewrite He in Hle.
      assert (e < length (Hedge.weights
                            (update_weights_seq (Hedge.init experts T) rounds)))%nat
        by (apply nth_error_Some; congruence).
      lia. }
    destruct (nth_error_in_range experts e Hlt) as [x Hx].
    destruct (weights_after_rounds experts T rounds e x Hx) as [Hclosed _].
    rewrite Hclosed in Hw. injection Hw as <-.
    pose proof (total_loss_in_unit_square rounds x Hsquare) as HL.
    set (eps := Hedge.epsilon (Hedge.init experts T)) in *.
    set (L := total_loss rounds x) in *.
    assert (Hexp : -600 <= - (eps * L) <= 600) by nra.
    assert (Hlo : exp (-600) <= exp (- (eps * L))).
    { destruct (proj1 Hexp) as [Hlt' | ->]; [left; now apply exp_increasing | right; reflexivity]. }
    assert (Hhi : exp (- (eps * L)) <= exp 600).
    { destruct (proj2 Hexp) as [Hlt' | ->]; [left; now apply exp_increasing | right; reflexivity]. }
    unfold Rdiv. rewrite Rmult_1_l.
    pose proof (Rinv_0_lt_compat _ HN) as Hinv.
    split; rewrite (Rmult_comm (/ INR (length experts)));
      apply Rmult_le_compat_r; first [lra | exact Hlo | exact Hhi].
  - intros action Hin. apply choose_action_any; [exact Hwf |].
    rewrite He. exact Hin.
Qed.

Lemma probabilities_stay_a_distribution_witness :
  Forall (fun w => exp (-600) / INR (length [(1, 0)]) <= w
                   <= exp 600 / INR (length [(1, 0)]))
    (Hedge.weights (update_weights_seq (Hedge.init [(1, 0)] 1) [(0, 1); (1, 0)])) /\
  length (Hedge.probabilities
            (update_weights_seq (Hedge.init [(1, 0)] 1) [(0, 1); (1, 0)]))
    = length [(1, 0)] /\
  Forall (fun p => 0 < p)
    (Hedge.probabilities
       (update_weights_seq (Hedge.init [(1, 0)] 1) [(0, 1); (1, 0)])) /\
  sum (Hedge.probabilities
         (update_weights_seq (Hedge.init [(1, 0)] 1) [(0, 1); (1, 0)])) = 1 /\
  forall action : Expert,
    In action [(1, 0)] ->
    Hedge.choose_action
      (update_weights_seq (Hedge.init [(1, 0)] 1) [(0, 1); (1, 0)]) action.
Proof.
  apply (probabilities_stay_a_distribution [(1, 0)] 1 (Hedge.init [(1, 0)] 1)
           [(0, 1); (1, 0)]).
  - discriminate.
  - lia.
  - apply new_Ok. cbn. lia.
  - repeat constructor; cbn; lra.
  - cbn [Hedge.epsilon Hedge.init length INR].
    rewrite ln_1. unfold Rdiv. rewrite Rmult_0_l, sqrt_0. lra.
Defined.

(** ** One round on all the weights *)

Lemma zip_with_map_same {A B C D : Type} (op : B -> C -> D)
    (f : A -> B) (g : A -> C) (xs : list A) :
  zip_with op (map f xs) (map g xs) = map (fun x => op (f x) (g x)) xs.
Proof.
  induction xs as [| x xs IH]; simpl; [reflexivity | now rewrite IH].
Qed.

Lemma zip_with_neutral {A B : Type} (op : A -> B -> A) (c : B)
    (ws : list A) (xs : list B) :
  length ws = length xs ->
  (forall w, op w c = w) ->
  Forall (fun x => x = c) xs ->
  zip_with op ws xs = ws.
Proof.
  intros Hlen Hop Hxs. revert ws Hlen.
  induction Hxs as [| x xs -> _ IH]; intros [| w ws] Hlen; simpl in *;
    try reflexivity; try discriminate.
  rewrite Hop, IH by lia. reflexivity.
Qed.

Lemma exp_nonpos (x : R) : x <= 0 -> exp x <= 1.
Proof.
  intros [Hlt | ->].
  - rewrite <- exp_0. left. now apply exp_increasing.
  - rewrite exp_0. lra.
Qed.

Lemma sum_zip_with_le (ws fs : list R) :
  Forall (fun w => 0 < w) ws ->
  Forall (fun f => 0 < f <= 1) fs ->
  sum (zip_with Rmult ws fs) <= sum ws.
Proof.
  intros Hws. revert fs.
  induction Hws as [| w ws Hw Hws IH]; intros fs Hfs; simpl; [lra |].
  destruct Hfs as [| f fs Hf Hfs]; simpl.
  - assert (H0 : 0 <= sum ws).
    { clear IH. induction Hws as [| v vs Hv _ IHv]; simpl; lra. }
    lra.
  - specialize (IH fs Hfs). nra.
Qed.

Lemma spec_loss_nonneg (s b : R) (x : Expert) :
  s <= b -> 0 <= spec_loss s b x.
Proof.
  intros Hsb. unfold spec_loss, spec_realized, spec_potential.
  rewrite (proj2 (Rleb_true 0 (b - s))) by lra.
  destruct (spec_feasible s b x); lra.
Qed.

Lemma spec_loss_feasible (s b : R) (x : Expert) :
  s <= b -> spec_feasible s b x = true -> spec_loss s b x = 0.
Proof.
  intros Hsb Hx. unfold spec_loss, spec_potential.
  rewrite (proj2 (Rleb_true 0 (b - s))) by lra. now rewrite Hx.
Qed.

(** X7.  In a round whose valuations allow a trade ([hidden_s <=
    hidden_b]), on a learner with a rate [epsilon >= 0], [update_weights]
    raises no weight: every weight stays positive and at most its previous
    value, the weight of a feasible expert is unchanged, and the sum of the
    weights does not grow. *)
Theorem tradable_round_lowers_weights (h : Hedge.t) (hidden_s hidden_b : R) :
  Hedge.wf h ->
  0 <= Hedge.epsilon h ->
  hidden_s <= hidden_b ->
  (forall (e : nat) (x : Expert) (w : R),
      nth_error (Hedge.experts h) e = Some x ->
      nth_error (Hedge.weights h) e = Some w ->
      exists w' : R,
        nth_error (Hedge.weights (Hedge.update_weights h hidden_s hidden_b)) e
          = Some w' /\
        0 < w' <= w /\
        (spec_feasible hidden_s hidden_b x = true -> w' = w))
  /\
  sum (Hedge.weights (Hedge.update_weights h hidden_s hidden_b))
    <= sum (Hedge.weights h).
Proof.
  intros (He & Hw & Hg & Hpos) Heps Hsb. split.
  - intros e x w Hx Hwe.
    assert (Hw0 : 0 < w).
    { rewrite Forall_forall in Hpos. apply Hpos. eapply nth_error_In, Hwe. }
    exists (w * exp (- Hedge.epsilon h * spec_loss hidden_s hidden_b x)).
    split; [now apply update_weights_weight |].
    pose proof (spec_loss_nonneg hidden_s hidden_b x Hsb) as Hloss.
    pose proof (exp_pos (- Hedge.epsilon h * spec_loss hidden_s hidden_b x)) as He0.
    assert (He1 : exp (- Hedge.epsilon h * spec_loss hidden_s hidden_b x) <= 1)
      by (apply exp_nonpos; nra).
    split; [split; nra |].
    intros Hfeas. rewrite (spec_loss_feasible _ _ _ Hsb Hfeas).
    rewrite Rmult_0_r, exp_0. ring.
  - unfold Hedge.update_weights. cbn [Hedge.weights].
    apply sum_zip_with_le; [exact Hpos |].
    rewrite (proj2 (Rgeb_true hidden_b hidden_s)) by lra.
    apply Forall_forall. intros f Hf.
    apply in_map_iff in Hf. destruct Hf as (l & <- & Hl).
    apply in_map_iff in Hl. destruct Hl as (ind & <- & _).
    split; [apply exp_pos |]. apply exp_nonpos.
    assert (0 <= (1 - b2r ind) * (hidden_b - hidden_s))
      by (destruct ind; simpl; lra).
    nra.
Qed.

Lemma tradable_round_lowers_weights_witness :
  (forall (e : nat) (x : Expert) (w : R),
      nth_error (Hedge.experts (Hedge.init grid_F_1 3)) e = Some x ->
      nth_error (Hedge.weights (Hedge.init grid_F_1 3)) e = Some w ->
      exists w' : R,
        nth_error
          (Hedge.weights (Hedge.update_weights (Hedge.init grid_F_1 3) 0 1)) e
          = Some w' /\
        0 < w' <= w /\
        (spec_feasible 0 1 x = true -> w' = w))
  /\
  sum (Hedge.weights (Hedge.update_weights (Hedge.init grid_F_1 3) 0 1))
    <= sum (Hedge.weights (Hedge.init grid_F_1 3)).
Proof.
  apply (tradable_round_lowers_weights (Hedge.init grid_F_1 3) 0 1
           (init_wf grid_F_1 3)).
  - apply sqrt_pos.
  - lra.
Defined.

(** X8.  In a round whose valuations allow no trade ([hidden_b <
    hidden_s]), on a learner all of whose experts ask at most what they bid
    (as in the multiplicative grid), [update_weights] changes nothing: no
    expert is feasible, so every loss is 0. *)
Theorem untradable_round_changes_nothing (h : Hedge.t) (hidden_s hidden_b : R) :
  Hedge.wf h ->
  Forall (fun x => fst x <= snd x) (Hedge.experts h) ->
  hidden_b < hidden_s ->
  Hedge.update_weights h hidden_s hidden_b = h.
Proof.
  intros (He & Hw & Hg & _) Hgrid Hbs.
  assert (Hround :
    map (fun ind => b2r ind * (hidden_b - hidden_s))
        (zip_with andb
           (map (fun e : Expert => Rleb hidden_s (fst e)) (Hedge.experts h))
           (map (fun e : Expert => Rleb (snd e) hidden_b) (Hedge.experts h)))
    = map (fun _ => 0) (Hedge.experts h)).
  { rewrite zip_with_map_same, map_map. apply map_ext_in. intros x Hx.
    rewrite Forall_forall in Hgrid. specialize (Hgrid x Hx).
    destruct (Rleb hidden_s (fst x) && Rleb (snd x) hidden_b) eqn:E.
    - apply (spec_feasible_iff hidden_s hidden_b x) in E. lra.
    - simpl. ring. }
  destruct h as [experts T N ws eps gs]. cbn in *.
  unfold Hedge.update_weights. cbn [Hedge.experts Hedge.weights Hedge.gft
    Hedge.T Hedge.no_experts Hedge.epsilon].
  rewrite (proj2 (Rgeb_false hidden_b hidden_s)) by lra.
  rewrite Hround. f_equal.
  - apply (zip_with_neutral Rmult 1).
    + rewrite !length_map. lia.
    + intros w. ring.
    + apply Forall_forall. intros f Hf.
      apply in_map_iff in Hf. destruct Hf as (l & <- & Hl).
      apply in_map_iff in Hl. destruct Hl as (x & <- & _).
      rewrite Rmult_0_r. apply exp_0.
  - apply (zip_with_neutral Rplus 0).
    + rewrite length_map. lia.
    + intros g. ring.
    + apply Forall_forall. intros z Hz.
      apply in_map_iff in Hz. destruct Hz as (x & <- & _). reflexivity.
Qed.

Lemma untradable_round_changes_nothing_witness :
  Hedge.update_weights (Hedge.init grid_F_1 3) 1 0 = Hedge.init grid_F_1 3.
Proof.
  apply (untradable_round_changes_nothing (Hedge.init grid_F_1 3) 1 0
           (init_wf grid_F_1 3)).
  - unfold grid_F_1. cbn. repeat constructor; cbn; lra.
  - lra.
Defined.

(** ** Rescaling the experts and rescaling the action *)

(** X9.  [update_weights_with_rescaling] judges every expert by the row
    [rescale_action] gives it for the bounds of the round: its new weights
    and accumulators are those [update_weights] computes on the learner
    whose experts are the rescaled rows, and its experts array is left as it
    was. *)
Theorem update_weights_with_rescaling_as_update_weights
    (h : Hedge.t) (hidden_s hidden_b s_dot b_dot : R) :
  Hedge.weights
    (Hedge.update_weights_with_rescaling h hidden_s hidden_b s_dot b_dot)
  = Hedge.weights
      (Hedge.update_weights (rescaled_experts h s_dot b_dot) hidden_s hidden_b)
  /\
  Hedge.gft
    (Hedge.update_weights_with_rescaling h hidden_s hidden_b s_dot b_dot)
  = Hedge.gft
      (Hedge.update_weights (rescaled_experts h s_dot b_dot) hidden_s hidden_b)
  /\
  Hedge.experts
    (Hedge.update_weights_with_rescaling h hidden_s hidden_b s_dot b_dot)
  = Hedge.experts h.
Proof.
  unfold Hedge.update_weights_with_rescaling, Hedge.update_weights,
    rescaled_experts, ConstrainedGFTMax.rescale_action.
  cbn [Hedge.weights Hedge.gft Hedge.experts Hedge.epsilon].
  rewrite !map_map. cbn [fst snd].
  repeat split.
Qed.


Lemma rescale_action_ordered (action : Expert) (s_dot b_dot : R) :
  0 <= fst action ->
  fst action <= snd action ->
  snd action <= 1 ->
  0 <= b_dot - s_dot <= 1 ->
  s_dot <= fst (ConstrainedGFTMax.rescale_action action s_dot b_dot) /\
  fst (ConstrainedGFTMax.rescale_action action s_dot b_dot)
  <= snd (ConstrainedGFTMax.rescale_action action s_dot b_dot) /\
  snd (ConstrainedGFTMax.rescale_action action s_dot b_dot) <= b_dot.
Proof.
  destruct action as [p q].
  unfold ConstrainedGFTMax.rescale_action. cbn [fst snd].
  intros Hp Hpq Hq Hd.
  set (d := b_dot - s_dot) in *.
  assert (Hdd : 0 <= d ^ 2 <= d) by (simpl; nra).
  assert (Hp' : 0 <= p * d ^ 2) by (apply Rmult_le_pos; lra).
  assert (Hq' : 0 <= (1 - q) * d ^ 2) by (apply Rmult_le_pos; lra).
  assert (Hsum : p * d ^ 2 + (1 - q) * d ^ 2 <= d ^ 2) by nra.
  unfold d in *. repeat split; lra.
Qed.

(** X11.  Under bounds at most 1 apart ([0 <= b_dot - s_dot <= 1]), an
    action with [0 <= ask <= bid <= 1] is rescaled to a pair that still asks
    at most what it bids, and that lies between the bounds. *)
Theorem rescale_action_keeps_ask_below_bid (action : Expert) (s_dot b_dot : R) :
  0 <= fst action ->
  fst action <= snd action ->
  snd action <= 1 ->
  0 <= b_dot - s_dot <= 1 ->
  s_dot <= fst (ConstrainedGFTMax.rescale_action action s_dot b_dot) /\
  fst (ConstrainedGFTMax.rescale_action action s_dot b_dot)
  <= snd (ConstrainedGFTMax.rescale_action action s_dot b_dot) /\
  snd (ConstrainedGFTMax.rescale_action action s_dot b_dot) <= b_dot.
Proof. apply rescale_action_ordered. Qed.

Lemma rescale_action_keeps_ask_below_bid_witness :
  2 / 5 <= fst (ConstrainedGFTMax.rescale_action (1 / 10, 9 / 10) (2 / 5) (3 / 5)) /\
  fst (ConstrainedGFTMax.rescale_action (1 / 10, 9 / 10) (2 / 5) (3 / 5))
  <= snd (ConstrainedGFTMax.rescale_action (1 / 10, 9 / 10) (2 / 5) (3 / 5)) /\
  snd (ConstrainedGFTMax.rescale_action (1 / 10, 9 / 10) (2 / 5) (3 / 5)) <= 3 / 5.
Proof.
  apply (rescale_action_keeps_ask_below_bid (1 / 10, 9 / 10) (2 / 5) (3 / 5));
    cbn [fst snd]; lra.
Defined.


(** ** The best expert in hindsight *)

Lemma argmax_from_spec (xs : list R) :
  forall (best : nat) (best_v : R) (i : nat),
  (Hedge.argmax_from best best_v i xs = best /\
   Forall (fun x => x <= best_v) xs)
  \/
  (exists (k : nat) (v : R),
      Hedge.argmax_from best best_v i xs = (i + k)%nat /\
      nth_error xs k = Some v /\
      best_v < v /\
      Forall (fun x => x <= v) xs /\
      forall (j : nat) (y : R),
        (j < k)%nat -> nth_error xs j = Some y -> y < v).
Proof.
  induction xs as [| x xs IH]; intros best best_v i; simpl.
  - left. split; [reflexivity | constructor].
  - destruct (Rltb best_v x) eqn:E;
      [apply Rltb_true in E | apply Rltb_false in E].
    + right.
      destruct (IH i x (S i)) as [[Hr Hall] | (k & v & Hr & Hk & Hv & Hall & Hbefore)].
      * exists 0%nat, x. rewrite Hr, Nat.add_0_r.
        repeat split; try assumption.
        -- constructor; [lra | exact Hall].
        -- intros j y Hj. lia.
      * exists (S k), v. rewrite Hr.
        repeat split; try assumption; try lia; try lra.
        -- constructor; [lra | exact Hall].
        -- intros [| j] y Hj Hy; simpl in Hy.
           ++ injection Hy as <-. exact Hv.
           ++ apply (Hbefore j y); [lia | exact Hy].
    + destruct (IH best best_v (S i))
        as [[Hr Hall] | (k & v & Hr & Hk & Hv & Hall & Hbefore)].
      * left. split; [exact Hr |]. constructor; assumption.
      * right. exists (S k), v. rewrite Hr.
        repeat split; try assumption; try lia.
        -- constructor; [lra | exact Hall].
        -- intros [| j] y Hj Hy; simpl in Hy.
           ++ injection Hy as <-. lra.
           ++ apply (Hbefore j y); [lia | exact Hy].
Qed.

(** The index [get_best_expert] computes: the accumulator there is a
    maximum, and every accumulator before it is strictly smaller. *)
Lemma argmax_first_maximum (g : R) (gs : list R) :
  exists (i : nat) (v : R),
    Hedge.argmax_from 0 g 1 gs = i /\
    nth_error (g :: gs) i = Some v /\
    Forall (fun x => x <= v) (g :: gs) /\
    forall (j : nat) (y : R),
      (j < i)%nat -> nth_error (g :: gs) j = Some y -> y < v.
Proof.
  destruct (argmax_from_spec gs 0 g 1)
    as [[Hr Hall] | (k & v & Hr & Hk & Hv & Hall & Hbefore)].
  - exists 0%nat, g. repeat split; try assumption.
    + constructor; [lra | exact Hall].
    + intros j y Hj. lia.
  - exists (S k), v. repeat split; try assumption.
    + constructor; [lra | exact Hall].
    + intros [| j] y Hj Hy; simpl in Hy.
      * injection Hy as <-. exact Hv.
      * apply (Hbefore j y); [lia | exact Hy].
Qed.

Lemma get_best_expert_at_first_maximum (h : Hedge.t) :
  Hedge.wf h ->
  Hedge.experts h <> [] ->
  exists (i : nat) (x : Expert) (g : R),
    Hedge.get_best_expert h = Ok (x, g) /\
    nth_error (Hedge.experts h) i = Some x /\
    nth_error (Hedge.gft h) i = Some g /\
    (forall (j : nat) (g_j : R),
        nth_error (Hedge.gft h) j = Some g_j -> g_j <= g) /\
    (forall (j : nat) (g_j : R),
        (j < i)%nat -> nth_error (Hedge.gft h) j = Some g_j -> g_j < g).
Proof.
  intros (He & _ & Hg & _) Hne. unfold Hedge.get_best_expert.
  destruct (Hedge.gft h) as [| g gs] eqn:Egft.
  { simpl in Hg. destruct (Hedge.experts h); [congruence | simpl in He; lia]. }
  destruct (argmax_first_maximum g gs) as (i & v & Hi & Hv & Hall & Hbefore).
  cbv zeta. rewrite Hi.
  assert (Hlt : (i < length (Hedge.experts h))%nat).
  { rewrite He, <- Hg. apply nth_error_Some. congruence. }
  destruct (nth_error_in_range (Hedge.experts h) i Hlt) as [x Hx].
  exists i, x, v. repeat split.
  - rewrite (nth_error_nth _ _ (0, 0) Hx), (nth_error_nth _ _ 0 Hv).
    reflexivity.
  - exact Hx.
  - exact Hv.
  - intros j g_j Hj. rewrite Forall_forall in Hall.
    apply Hall. eapply nth_error_In, Hj.
  - exact Hbefore.
Qed.

(** X12.  [get_best_expert] raises [ValueError] on a learner without
    experts; on a well-formed learner with experts it returns the expert and
    the accumulator at the index of the first maximum of the accumulators:
    no accumulator is larger, and every one before that index is strictly
    smaller. *)
Theorem get_best_expert_first_maximum (h : Hedge.t) :
  (Hedge.gft h = [] -> Hedge.get_best_expert h = Raise ValueError)
  /\
  (Hedge.wf h ->
   Hedge.experts h <> [] ->
   exists (i : nat) (x : Expert) (g : R),
     Hedge.get_best_expert h = Ok (x, g) /\
     nth_error (Hedge.experts h) i = Some x /\
     nth_error (Hedge.gft h) i = Some g /\
     (forall (j : nat) (g_j : R),
         nth_error (Hedge.gft h) j = Some g_j -> g_j <= g) /\
     (forall (j : nat) (g_j : R),
         (j < i)%nat -> nth_error (Hedge.gft h) j = Some g_j -> g_j < g)).
Proof.
  split.
  - intros Hnil. unfold Hedge.get_best_expert. now rewrite Hnil.
  - apply get_best_expert_at_first_maximum.
Qed.

Lemma get_best_expert_first_maximum_witness :
  exists (i : nat) (x : Expert) (g : R),
    Hedge.get_best_expert (Hedge.update_weights (Hedge.init grid_F_1 3) 0 1)
      = Ok (x, g) /\
    nth_error (Hedge.experts (Hedge.update_weights (Hedge.init grid_F_1 3) 0 1)) i
      = Some x /\
    nth_error (Hedge.gft (Hedge.update_weights (Hedge.init grid_F_1 3) 0 1)) i
      = Some g /\
    (forall (j : nat) (g_j : R),
        nth_error (Hedge.gft (Hedge.update_weights (Hedge.init grid_F_1 3) 0 1)) j
          = Some g_j -> g_j <= g) /\
    (forall (j : nat) (g_j : R),
        (j < i)%nat ->
        nth_error (Hedge.gft (Hedge.update_weights (Hedge.init grid_F_1 3) 0 1)) j
          = Some g_j -> g_j < g).
Proof.
  apply (get_best_expert_first_maximum
           (Hedge.update_weights (Hedge.init grid_F_1 3) 0 1)).
  - apply update_weights_wf, init_wf.
  - discriminate.
Defined.

Lemma total_realized_repeat (s b : R) (n : nat) (x : Expert) :
  total_realized (repeat (s, b) n) x = INR n * spec_realized s b x.
Proof.
  unfold total_realized.
  induction n as [| n IH].
  - simpl. ring.
  - rewrite S_INR. cbn [repeat map sum fold_right fst snd] in *.
    fold (sum (map (fun fb => spec_realized (fst fb) (snd fb) x)
                 (repeat (s, b) n))).
    rewrite IH. ring.
Qed.

(** X13.  Under constant valuations [(s, b)] with [s < b], after [n >= 1]
    rounds on a fresh learner one of whose experts is feasible,
    [get_best_expert] returns a feasible expert together with the value
    [n * (b - s)]. *)
Theorem best_expert_under_constant_valuations
    (experts : list Expert) (T : Z) (s b : R) (n : nat) (x0 : Expert) :
  s < b ->
  (1 <= n)%nat ->
  In x0 experts ->
  spec_feasible s b x0 = true ->
  exists x : Expert,
    Hedge.get_best_expert
      (update_weights_seq (Hedge.init experts T) (repeat (s, b) n))
    = Ok (x, INR n * (b - s)) /\
    In x experts /\
    spec_feasible s b x = true.
Proof.
  intros Hsb Hn Hx0 Hfeas0.
  set (h := update_weights_seq (Hedge.init experts T) (repeat (s, b) n)).
  assert (Hwf : Hedge.wf h) by apply update_weights_seq_wf, init_wf.
  assert (He : Hedge.experts h = experts)
    by (destruct (update_weights_seq_keeps (repeat (s, b) n)
                    (Hedge.init experts T)) as [He _]; exact He).
  assert (Hne : Hedge.experts h <> []).
  { rewrite He. destruct experts; [destruct Hx0 | discriminate]. }
  destruct (get_best_expert_at_first_maximum h Hwf Hne)
    as (i & x & g & Hbest & Hx & Hg & Hmax & _).
  rewrite He in Hx.
  destruct (weights_after_rounds experts T (repeat (s, b) n) i x Hx)
    as [_ Hgi].
  fold h in Hgi. rewrite Hgi in Hg. injection Hg as <-.
  apply In_nth_error in Hx0. destruct Hx0 as [e0 Hx0].
  destruct (weights_after_rounds experts T (repeat (s, b) n) e0 x0 Hx0)
    as [_ Hg0].
  fold h in Hg0. specialize (Hmax e0 _ Hg0).
  rewrite !total_realized_repeat in *.
  assert (HnR : 1 <= INR n) by (change 1 with (INR 1); apply le_INR; lia).
  unfold spec_realized, spec_potential in *. rewrite Hfeas0 in Hmax.
  exists x. destruct (spec_feasible s b x) eqn:Efeas.
  - repeat split; [exact Hbest | eapply nth_error_In, Hx].
  - exfalso. nra.
Qed.

Lemma best_expert_under_constant_valuations_witness :
  exists x : Expert,
    Hedge.get_best_expert
      (update_weights_seq (Hedge.init grid_F_1 3) (repeat (0, 1) 2))
    = Ok (x, INR 2 * (1 - 0)) /\
    In x grid_F_1 /\
    spec_feasible 0 1 x = true.
Proof.
  apply (best_expert_under_constant_valuations grid_F_1 3 0 1 2 (0, 1)).
  - lra.
  - lia.
  - cbn. tauto.
  - apply spec_feasible_iff. cbn [fst snd]. lra.
Defined.

(** ** What a run leaves as it was *)

Lemma same_configuration_refl (st : GFTMax.t) : same_configuration st st.
Proof. unfold same_configuration. repeat split. Qed.

Lemma same_configuration_trans (st1 st2 st3 : GFTMax.t) :
  same_configuration st1 st2 ->
  same_configuration st2 st3 ->
  same_configuration st1 st3.
Proof.
  unfold same_configuration.
  intros (A1 & A2 & A3 & A4 & A5 & A6 & A7 & A8 & A9 & A10)
         (B1 & B2 & B3 & B4 & B5 & B6 & B7 & B8 & B9 & B10).
  repeat split; congruence.
Qed.

Section RoundKeepsConfiguration.

Variables (action : Expert) (i : nat) (st : GFTMax.t).

Ltac keep_configuration :=
  unfold same_configuration; round_cases; repeat split.

Lemma profit_max_on_same_configuration :
  same_configuration st (GFTMax.profit_max_on action i st).
Proof. keep_configuration. Qed.

Lemma gft_max_on_same_configuration :
  same_configuration st (GFTMax.gft_max_on action i st).
Proof. keep_configuration. Qed.

Lemma constrained_profit_max_on_same_configuration :
  same_configuration st (ConstrainedGFTMax.profit_max_on action i st).
Proof. keep_configuration. Qed.

Lemma constrained_gft_max_on_same_configuration :
  same_configuration st (ConstrainedGFTMax.gft_max_on action i st).
Proof. keep_configuration. Qed.

End RoundKeepsConfiguration.

Lemma round_same_configuration (M : Mechanism) (i : nat) (st st' : GFTMax.t) :
  M = GFTMax_class \/ M = ConstrainedGFTMax_class ->
  round M i st st' -> same_configuration st st'.
Proof.
  intros HM Hround. unfold round in Hround.
  destruct HM as [-> | ->], (GFTMax.run_profit_max st);
    destruct Hround as (action & _ & ->).
  - apply profit_max_on_same_configuration.
  - apply gft_max_on_same_configuration.
  - apply constrained_profit_max_on_same_configuration.
  - apply constrained_gft_max_on_same_configuration.
Qed.

Lemma rounds_same_configuration (M : Mechanism) (i n : nat) (st st' : GFTMax.t) :
  M = GFTMax_class \/ M = ConstrainedGFTMax_class ->
  rounds M i n st st' -> same_configuration st st'.
Proof.
  intros HM Hrounds.
  induction Hrounds as [i st | i n st st' st'' Hround _ IH].
  - apply same_configuration_refl.
  - eapply same_configuration_trans; [| exact IH].
    exact (round_same_configuration M i st st' HM Hround).
Qed.

(** X14.  Over any number of rounds of [GFTMax] or of [ConstrainedGFTMax],
    whatever the feedback and the draws, the horizon, the resolution, the
    threshold, the environment and the two grids of the mechanism stay as
    they were, and each learner keeps its experts and its rate: rounds
    change only the budget, the gft, the phase flag, the weights and the
    accumulators. *)
Theorem rounds_keep_the_configuration (i n : nat) (st st' : GFTMax.t) :
  rounds GFTMax_class i n st st' \/ rounds ConstrainedGFTMax_class i n st st' ->
  same_configuration st st'.
Proof.
  intros [H | H].
  - apply (rounds_same_configuration GFTMax_class i n); auto.
  - apply (rounds_same_configuration ConstrainedGFTMax_class i n); auto.
Qed.

Lemma rounds_keep_the_configuration_witness :
  same_configuration three_rounds_0 three_rounds_3.
Proof.
  apply (rounds_keep_the_configuration 0 3 three_rounds_0 three_rounds_3).
  left. apply three_rounds_run.
Defined.

(** ** The accounts of one round *)

Section RoundAccounts.

Variables (action : Expert) (i : nat) (st : GFTMax.t).

Let feedback : R * R := get_valuations (GFTMax.environment st) i.
Let bounds : R * R := get_constraints (GFTMax.environment st) i.

Ltac accounts :=
  unfold budget_gain, spec_realized, spec_potential, spec_feasible, committed,
    feedback, bounds,
    ConstrainedGFTMax.profit_max_on, ConstrainedGFTMax.gft_max_on;
  try (destruct (get_constraints (GFTMax.environment st) i) as [s_dot b_dot];
       cbn [fst snd]);
  round_cases; repeat split; try ring; try reflexivity.

Lemma profit_max_on_accounts :
  GFTMax.budget (GFTMax.profit_max_on action i st)
    = GFTMax.budget st + budget_gain action feedback /\
  GFTMax.gft (GFTMax.profit_max_on action i st)
    = GFTMax.gft st + spec_realized (fst feedback) (snd feedback) action.
Proof. accounts. Qed.

Lemma gft_max_on_accounts :
  GFTMax.budget (GFTMax.gft_max_on action i st)
    = GFTMax.budget st + budget_gain action feedback /\
  GFTMax.gft (GFTMax.gft_max_on action i st)
    = GFTMax.gft st + spec_realized (fst feedback) (snd feedback) action.
Proof. accounts. Qed.

Lemma constrained_profit_max_on_accounts :
  GFTMax.budget (ConstrainedGFTMax.profit_max_on action i st)
    = GFTMax.budget st + budget_gain (committed action bounds) feedback /\
  GFTMax.gft (ConstrainedGFTMax.profit_max_on action i st)
    = GFTMax.gft st
      + spec_realized (fst feedback) (snd feedback) (committed action bounds).
Proof. accounts. Qed.

Lemma constrained_gft_max_on_accounts :
  GFTMax.budget (ConstrainedGFTMax.gft_max_on action i st)
    = GFTMax.budget st + budget_gain (committed action bounds) feedback /\
  GFTMax.gft (ConstrainedGFTMax.gft_max_on action i st)
    = GFTMax.gft st
      + spec_realized (fst feedback) (snd feedback) (committed action bounds).
Proof. accounts. Qed.

End RoundAccounts.

(** ** The phase flag and the budget *)

Section RoundFlag.

Variables (action : Expert) (i : nat) (st : GFTMax.t).

Ltac flag_cases :=
  match goal with
  | |- context [GFTMax.update_gft ?a ?fb (GFTMax.update_budget ?a' ?fb' ?s)] =>
      set (X := GFTMax.update_gft a fb (GFTMax.update_budget a' fb' s));
      assert (Ht : GFTMax.budget_threshold X = GFTMax.budget_threshold st)
        by (subst X; round_cases; reflexivity);
      assert (Hf : GFTMax.run_profit_max X = GFTMax.run_profit_max st)
        by (subst X; round_cases; reflexivity);
      destruct (Rgeb (GFTMax.budget X) (GFTMax.budget_threshold X)) eqn:E;
      [ left; apply Rgeb_true in E; rewrite Ht in E;
        split; [exact E | reflexivity]
      | right; apply Rgeb_false in E; rewrite Ht in E;
        split; [exact E | exact Hf] ]
  end.

(** After a profit round either the budget has reached the threshold and
    the flag is off, or it has not and the flag is as before. *)
Lemma profit_max_on_flag :
  (GFTMax.budget_threshold st <= GFTMax.budget (GFTMax.profit_max_on action i st) /\
   GFTMax.run_profit_max (GFTMax.profit_max_on action i st) = false)
  \/
  (GFTMax.budget (GFTMax.profit_max_on action i st) < GFTMax.budget_threshold st /\
   GFTMax.run_profit_max (GFTMax.profit_max_on action i st)
   = GFTMax.run_profit_max st).
Proof.
  unfold GFTMax.profit_max_on. cbv zeta. flag_cases.
Qed.

Lemma constrained_profit_max_on_flag :
  (GFTMax.budget_threshold st
   <= GFTMax.budget (ConstrainedGFTMax.profit_max_on action i st) /\
   GFTMax.run_profit_max (ConstrainedGFTMax.profit_max_on action i st) = false)
  \/
  (GFTMax.budget (ConstrainedGFTMax.profit_max_on action i st)
   < GFTMax.budget_threshold st /\
   GFTMax.run_profit_max (ConstrainedGFTMax.profit_max_on action i st)
   = GFTMax.run_profit_max st).
Proof.
  unfold ConstrainedGFTMax.profit_max_on.
  destruct (get_constraints (GFTMax.environment st) i) as [s_dot b_dot].
  destruct (Rltb (fst action) s_dot || Rltb b_dot (snd action));
    cbv beta iota zeta; flag_cases.
Qed.

End RoundFlag.

Lemma init_horizon_positive (T : Z) (env : Environment) (st0 : GFTMax.t) :
  GFTMax.init T env = Ok st0 -> (1 <= T)%Z.
Proof.
  intros Hinit. destruct (Z_lt_le_dec T 1) as [Hlt | Hle]; [| exact Hle].
  exfalso. unfold GFTMax.init in Hinit.
  destruct (GFTMax.int_sqrt T) as [K | e] eqn:HK; [| discriminate].
  destruct (int_sqrt_Ok T K HK) as [_ HT].
  assert (T = 0%Z) as -> by lia.
  rewrite (int_sqrt_small 0) in HK by lia. injection HK as <-.
  discriminate.
Qed.

Lemma init_fields (T : Z) (env : Environment) (st0 : GFTMax.t) :
  GFTMax.init T env = Ok st0 ->
  GFTMax.budget st0 = 0 /\
  GFTMax.gft st0 = 0 /\
  GFTMax.budget_threshold st0 = sqrt (IZR T) /\
  GFTMax.environment st0 = env /\
  GFTMax.T st0 = T /\
  GFTMax.hedge_profit st0 = Hedge.init (GFTMax.price_grid_F st0) T /\
  GFTMax.hedge_gft st0 = Hedge.init (GFTMax.price_grid_H st0) T.
Proof.
  unfold GFTMax.init.
  destruct (GFTMax.int_sqrt T) as [K | e] eqn:HK; cbn [bind]; [| discriminate].
  destruct (int_sqrt_Ok T K HK) as [_ HT].
  destruct (GFTMax.create_multiplicative_grid K)
    as [F | e]; cbn [bind]; [| discriminate].
  rewrite !new_Ok by lia. cbn [bind].
  intros [= <-]. repeat split.
Qed.

Lemma sqrt_horizon_positive (T : Z) : (1 <= T)%Z -> 1 <= sqrt (IZR T).
Proof.
  intros HT. rewrite <- sqrt_1. apply sqrt_le_1_alt. apply IZR_le. exact HT.
Qed.

Lemma round_keeps_budget_below_threshold
    (M : Mechanism) (i : nat) (st st' : GFTMax.t) :
  M = GFTMax_class \/ M = ConstrainedGFTMax_class ->
  (GFTMax.run_profit_max st = true ->
   GFTMax.budget st < GFTMax.budget_threshold st) ->
  round M i st st' ->
  GFTMax.run_profit_max st' = true ->
  GFTMax.budget st' < GFTMax.budget_threshold st'.
Proof.
  intros HM Hinv Hround Hflag'.
  destruct (round_same_configuration M i st st' HM Hround)
    as (_ & _ & Ht & _).
  rewrite Ht. pose proof Hround as Hround0. unfold round in Hround.
  destruct (GFTMax.run_profit_max st) eqn:Hflag.
  - destruct HM as [-> | ->]; destruct Hround as (action & _ & ->).
    + destruct (profit_max_on_flag action i st) as [[_ Hf] | [Hb _]];
        [congruence | exact Hb].
    + destruct (constrained_profit_max_on_flag action i st)
        as [[_ Hf] | [Hb _]]; [congruence | exact Hb].
  - assert (GFTMax.run_profit_max st' = false); [| congruence].
    apply (round_keeps_gft_phase i st st' Hflag).
    destruct HM as [-> | ->]; [left | right]; exact Hround0.
Qed.

Lemma rounds_keep_budget_below_threshold
    (M : Mechanism) (i n : nat) (st st' : GFTMax.t) :
  M = GFTMax_class \/ M = ConstrainedGFTMax_class ->
  rounds M i n st st' ->
  (GFTMax.run_profit_max st = true ->
   GFTMax.budget st < GFTMax.budget_threshold st) ->
  GFTMax.run_profit_max st' = true ->
  GFTMax.budget st' < GFTMax.budget_threshold st'.
Proof.
  intros HM Hrounds.
  induction Hrounds as [i st | i n st st' st'' Hround _ IH]; intros Hinv.
  - exact Hinv.
  - apply IH. exact (round_keeps_budget_below_threshold M i st st' HM Hinv Hround).
Qed.

(** X15.  In a run of [GFTMax] or of [ConstrainedGFTMax] from a constructed
    mechanism, whenever the mechanism is in the profit phase its budget is
    below the threshold [sqrt T]: a profit round that brings the budget to
    the threshold always ends the phase. *)
Theorem profit_phase_budget_below_threshold
    (T : Z) (env : Environment) (st0 : GFTMax.t) (n : nat) (st : GFTMax.t) :
  GFTMax.init T env = Ok st0 ->
  rounds GFTMax_class 0 n st0 st \/ rounds ConstrainedGFTMax_class 0 n st0 st ->
  GFTMax.run_profit_max st = true ->
  GFTMax.budget st < sqrt (IZR T).
Proof.
  intros Hinit Hrounds Hflag.
  destruct (init_fields T env st0 Hinit) as (Hb0 & _ & Ht0 & _).
  pose proof (sqrt_horizon_positive T (init_horizon_positive T env st0 Hinit))
    as Hsqrt.
  assert (Hinv0 : GFTMax.run_profit_max st0 = true ->
                  GFTMax.budget st0 < GFTMax.budget_threshold st0)
    by (intros _; rewrite Hb0, Ht0; lra).
  destruct Hrounds as [Hrounds | Hrounds].
  - destruct (rounds_same_configuration GFTMax_class 0 n st0 st
                (or_introl eq_refl) Hrounds) as (_ & _ & Ht & _).
    rewrite <- Ht0, <- Ht.
    apply (rounds_keep_budget_below_threshold GFTMax_class 0 n st0 st); auto.
  - destruct (rounds_same_configuration ConstrainedGFTMax_class 0 n st0 st
                (or_intror eq_refl) Hrounds) as (_ & _ & Ht & _).
    rewrite <- Ht0, <- Ht.
    apply (rounds_keep_budget_below_threshold ConstrainedGFTMax_class 0 n st0 st);
      auto.
Qed.

Lemma profit_phase_budget_below_threshold_witness :
  GFTMax.budget three_rounds_1 < sqrt (IZR 3).
Proof.
  apply (profit_phase_budget_below_threshold 3 three_rounds_env
           three_rounds_0 1 three_rounds_1 init_three_rounds).
  - left. eapply rounds_next; [apply three_rounds_round_0 | apply rounds_done].
  - rewrite three_rounds_1_eq. reflexivity.
Defined.

(** ** Where the actions of a constructed mechanism lie *)

Lemma multiplicative_grid_in_unit_square (K : Z) (F : list Expert) (x : Expert) :
  (1 <= K)%Z ->
  GFTMax.create_multiplicative_grid K = Ok F ->
  In x F -> 0 <= fst x /\ fst x <= snd x /\ snd x <= 1.
Proof.
  intros HK HF Hx.
  assert (HK0 : K <> 0%Z) by lia.
  assert (HKR : 0 < IZR K) by (apply IZR_lt; lia).
  pose proof (multiplicative_grid_ask_le_bid K F x HF Hx) as Hle.
  apply (in_create_multiplicative_grid K F x HK0 HF) in Hx.
  destruct Hx as (k & Hk & Hx).
  assert (Hg0 : 0 <= IZR k / IZR K).
  { apply Rmult_le_pos; [apply IZR_le; lia |].
    left. now apply Rinv_0_lt_compat. }
  assert (Hg1 : IZR k / IZR K <= 1).
  { apply (Rmult_le_reg_r (IZR K)); [exact HKR |].
    unfold Rdiv. rewrite Rmult_assoc, Rinv_l, Rmult_1_r, Rmult_1_l by lra.
    apply IZR_le. lia. }
  destruct Hx as [-> | (i & _ & [[Hge ->] | [Hle1 ->]])];
    cbn [fst snd] in *; lra.
Qed.

Lemma additive_grid_pairs (K : Z) (x : Expert) :
  (1 <= K)%Z ->
  In x (GFTMax.create_additive_grid K) ->
  snd x = fst x - 1 / IZR K /\ 0 <= snd x /\ snd x < fst x /\ fst x <= 1.
Proof.
  intros HK Hx. apply in_create_additive_grid in Hx.
  destruct Hx as (i & Hi & ->). cbn [fst snd].
  assert (HK0 : 0 < IZR K) by (apply IZR_lt; lia).
  assert (Hi0 : 0 <= IZR i) by (apply IZR_le; lia).
  assert (Hi1 : IZR (i + 1) <= IZR K) by (apply IZR_le; lia).
  rewrite plus_IZR in *.
  assert (Hinv : 0 < / IZR K) by now apply Rinv_0_lt_compat.
  unfold Rdiv. repeat split.
  - field. lra.
  - apply Rmult_le_pos; lra.
  - apply Rmult_lt_compat_r; lra.
  - apply (Rmult_le_reg_r (IZR K)); [exact HK0 |].
    rewrite Rmult_assoc, Rinv_l by lra. lra.
Qed.

(** The actions the two learners of a constructed mechanism can draw. *)
Lemma drawn_by_profit_learner (st : GFTMax.t) (action : Expert) :
  constructed st ->
  Hedge.choose_action (GFTMax.hedge_profit st) action ->
  0 <= fst action /\ fst action <= snd action /\ snd action <= 1.
Proof.
  intros (HK & HF & _ & HeF & _) Hdraw.
  apply (multiplicative_grid_in_unit_square (GFTMax.K st) (GFTMax.price_grid_F st));
    [exact HK | exact HF |].
  rewrite <- HeF. apply choose_action_In, Hdraw.
Qed.

Lemma drawn_by_gft_learner (st : GFTMax.t) (action : Expert) :
  constructed st ->
  Hedge.choose_action (GFTMax.hedge_gft st) action ->
  snd action = fst action - 1 / IZR (GFTMax.K st) /\
  0 <= snd action /\ snd action < fst action /\ fst action <= 1.
Proof.
  intros (HK & _ & HH & _ & HeH & _) Hdraw.
  apply (additive_grid_pairs (GFTMax.K st)); [exact HK |].
  rewrite <- HH, <- HeH. apply choose_action_In, Hdraw.
Qed.

Lemma reached_is_constructed
    (M : Mechanism) (T : Z) (env : Environment) (st0 : GFTMax.t)
    (n : nat) (st : GFTMax.t) :
  M = GFTMax_class \/ M = ConstrainedGFTMax_class ->
  GFTMax.init T env = Ok st0 ->
  rounds M 0 n st0 st ->
  constructed st /\
  GFTMax.environment st = env /\
  GFTMax.budget_threshold st = sqrt (IZR T) /\
  GFTMax.K st = GFTMax.K st0.
Proof.
  intros HM Hinit Hrounds.
  destruct (init_fields T env st0 Hinit) as (_ & _ & Ht0 & He0 & _).
  destruct (rounds_same_configuration M 0 n st0 st HM Hrounds)
    as (_ & HK & Ht & He & _).
  refine (conj _ (conj _ (conj _ _))); try congruence.
  apply (rounds_constructed M 0 n st0 st HM Hrounds).
  apply (init_constructed T env st0 Hinit).
Qed.

(** ** The budget when the phase ends, and after *)

(** X16.  In a run of [GFTMax], a profit round adds between 0 and 1 to the
    budget; so in the state in which a profit round has just ended the
    phase, the budget lies in [[sqrt T, sqrt T + 1)]. *)
Theorem budget_when_the_phase_ends
    (T : Z) (env : Environment) (st0 : GFTMax.t) (n : nat) (st st' : GFTMax.t) :
  GFTMax.init T env = Ok st0 ->
  rounds GFTMax_class 0 n st0 st ->
  round GFTMax_class n st st' ->
  GFTMax.run_profit_max st = true ->
  GFTMax.budget st <= GFTMax.budget st' <= GFTMax.budget st + 1 /\
  (GFTMax.run_profit_max st' = false ->
   sqrt (IZR T) <= GFTMax.budget st' < sqrt (IZR T) + 1).
Proof.
  intros Hinit Hrounds Hround Hflag.
  destruct (reached_is_constructed GFTMax_class T env st0 n st
              (or_introl eq_refl) Hinit Hrounds) as (Hst & _ & Ht & _).
  assert (Hbelow : GFTMax.budget st < GFTMax.budget_threshold st).
  { apply (rounds_keep_budget_below_threshold GFTMax_class 0 n st0 st);
      auto.
    intros _. destruct (init_fields T env st0 Hinit) as (-> & _ & -> & _).
    pose proof (sqrt_horizon_positive T (init_horizon_positive T env st0 Hinit)).
    lra. }
  unfold round in Hround. rewrite Hflag in Hround.
  destruct Hround as (action & Hdraw & ->).
  destruct (drawn_by_profit_learner st action Hst Hdraw) as (Ha0 & Hab & Hb1).
  destruct (profit_max_on_accounts action n st) as [Hbudget _].
  assert (Hgain : 0 <= budget_gain action
                         (get_valuations (GFTMax.environment st) n) <= 1).
  { unfold budget_gain.
    destruct (spec_feasible _ _ action); lra. }
  split; [lra |].
  intros Hflag'.
  destruct (profit_max_on_flag action n st) as [[Hreach _] | [_ Hsame]];
    [| congruence].
  lra.
Qed.

Lemma budget_when_the_phase_ends_witness :
  GFTMax.budget three_rounds_1 <= GFTMax.budget three_rounds_2
    <= GFTMax.budget three_rounds_1 + 1 /\
  (GFTMax.run_profit_max three_rounds_2 = false ->
   sqrt (IZR 3) <= GFTMax.budget three_rounds_2 < sqrt (IZR 3) + 1).
Proof.
  apply (budget_when_the_phase_ends 3 three_rounds_env three_rounds_0 1
           three_rounds_1 three_rounds_2 init_three_rounds).
  - eapply rounds_next; [apply three_rounds_round_0 | apply rounds_done].
  - apply three_rounds_round_1.
  - rewrite three_rounds_1_eq. reflexivity.
Defined.

(** X17.  In a run of [GFTMax], a round of the GFT phase either clears the
    drawn pair of the additive grid against the valuations of the round,
    and then takes exactly [1 / K] from the budget and adds
    [hidden_b - hidden_s] to the gft, or clears nothing and leaves both as
    they were: the budget never grows in the GFT phase. *)
Theorem gft_phase_round_accounts
    (T : Z) (env : Environment) (st0 : GFTMax.t) (n : nat) (st st' : GFTMax.t) :
  GFTMax.init T env = Ok st0 ->
  rounds GFTMax_class 0 n st0 st ->
  round GFTMax_class n st st' ->
  GFTMax.run_profit_max st = false ->
  exists action : Expert,
    In action (GFTMax.create_additive_grid (GFTMax.K st0)) /\
    ((clears action (get_valuations env n) /\
      GFTMax.budget st' = GFTMax.budget st - 1 / IZR (GFTMax.K st0) /\
      GFTMax.gft st'
      = GFTMax.gft st
        + (snd (get_valuations env n) - fst (get_valuations env n)))
     \/
     (~ clears action (get_valuations env n) /\
      GFTMax.budget st' = GFTMax.budget st /\
      GFTMax.gft st' = GFTMax.gft st)).
Proof.
  intros Hinit Hrounds Hround Hflag.
  destruct (reached_is_constructed GFTMax_class T env st0 n st
              (or_introl eq_refl) Hinit Hrounds) as (Hst & Henv & _ & HK).
  unfold round in Hround. rewrite Hflag in Hround.
  destruct Hround as (action & Hdraw & ->).
  destruct (drawn_by_gft_learner st action Hst Hdraw) as (Hgap & _).
  exists action. split.
  { destruct Hst as (_ & _ & HH & _ & HeH & _).
    rewrite <- HK, <- HH, <- HeH. apply choose_action_In, Hdraw. }
  destruct (gft_max_on_accounts action n st) as [Hbudget Hgft].
  rewrite Hbudget, Hgft, Henv. unfold budget_gain, spec_realized, spec_potential.
  rewrite <- HK.
  destruct (spec_feasible (fst (get_valuations env n))
              (snd (get_valuations env n)) action) eqn:E.
  - left. apply spec_feasible_iff in E. split; [exact E |]. split; lra.
  - right. split; [| split; lra].
    intros Hclears. apply spec_feasible_iff in Hclears. congruence.
Qed.

Lemma gft_phase_round_accounts_witness :
  exists action : Expert,
    In action (GFTMax.create_additive_grid (GFTMax.K three_rounds_0)) /\
    ((clears action (get_valuations three_rounds_env 2) /\
      GFTMax.budget three_rounds_3
      = GFTMax.budget three_rounds_2 - 1 / IZR (GFTMax.K three_rounds_0) /\
      GFTMax.gft three_rounds_3
      = GFTMax.gft three_rounds_2
        + (snd (get_valuations three_rounds_env 2)
           - fst (get_valuations three_rounds_env 2)))
     \/
     (~ clears action (get_valuations three_rounds_env 2) /\
      GFTMax.budget three_rounds_3 = GFTMax.budget three_rounds_2 /\
      GFTMax.gft three_rounds_3 = GFTMax.gft three_rounds_2)).
Proof.
  apply (gft_phase_round_accounts 3 three_rounds_env three_rounds_0 2
           three_rounds_2 three_rounds_3 init_three_rounds
           three_rounds_prefix three_rounds_round_2).
  rewrite three_rounds_2_eq. reflexivity.
Defined.

(** ** The two learners over a run *)

Section RoundLearners.

Variables (action : Expert) (i : nat) (st : GFTMax.t).

Lemma profit_max_on_learners :
  GFTMax.hedge_profit (GFTMax.profit_max_on action i st)
  = Hedge.update_weights (GFTMax.hedge_profit st)
      (fst (get_valuations (GFTMax.environment st) i))
      (snd (get_valuations (GFTMax.environment st) i)) /\
  GFTMax.hedge_gft (GFTMax.profit_max_on action i st) = GFTMax.hedge_gft st.
Proof. round_cases; split; reflexivity. Qed.

Lemma gft_max_on_learners :
  GFTMax.hedge_profit (GFTMax.gft_max_on action i st)
  = Hedge.update_weights (GFTMax.hedge_profit st)
      (fst (get_valuations (GFTMax.environment st) i))
      (snd (get_valuations (GFTMax.environment st) i)) /\
  GFTMax.hedge_gft (GFTMax.gft_max_on action i st)
  = Hedge.update_weights (GFTMax.hedge_gft st)
      (fst (get_valuations (GFTMax.environment st) i))
      (snd (get_valuations (GFTMax.environment st) i)).
Proof. round_cases; split; reflexivity. Qed.

End RoundLearners.

Lemma rounds_profit_learner (i n : nat) (st st' : GFTMax.t) :
  rounds GFTMax_class i n st st' ->
  GFTMax.hedge_profit st'
  = update_weights_seq (GFTMax.hedge_profit st)
      (map (get_valuations (GFTMax.environment st)) (seq i n)).
Proof.
  induction 1 as [i st | i n st st' st'' Hround Hrounds IH].
  - reflexivity.
  - destruct (round_same_configuration GFTMax_class i st st'
                (or_introl eq_refl) Hround) as (_ & _ & _ & Henv & _).
    rewrite IH, Henv. cbn [seq map update_weights_seq fold_left].
    unfold update_weights_seq. f_equal.
    unfold round in Hround.
    destruct (GFTMax.run_profit_max st);
      destruct Hround as (action & _ & ->).
    + apply profit_max_on_learners.
    + apply gft_max_on_learners.
Qed.

Lemma rounds_gft_learner_untouched (i n : nat) (st st' : GFTMax.t) :
  rounds GFTMax_class i n st st' ->
  GFTMax.run_profit_max st' = true ->
  GFTMax.hedge_gft st' = GFTMax.hedge_gft st.
Proof.
  induction 1 as [i st | i n st st' st'' Hround Hrounds IH]; intros Hflag.
  - reflexivity.
  - rewrite (IH Hflag).
    destruct (GFTMax.run_profit_max st) eqn:E.
    + unfold round in Hround. rewrite E in Hround.
      destruct Hround as (action & _ & ->). apply profit_max_on_learners.
    + assert (Hoff : GFTMax.run_profit_max st' = false)
        by (apply (round_keeps_gft_phase i st st' E); left; exact Hround).
      pose proof (rounds_keep_gft_phase GFTMax_class (S i) n st' st''
                    (or_introl eq_refl) Hrounds Hoff).
      congruence.
Qed.

(** X18.  In a run of [GFTMax] the profit learner is updated in every
    round of either phase: after [n] rounds it is the fresh learner over the
    multiplicative grid updated with the valuations of the rounds
    [0 .. n-1] in order, whatever was drawn.  The GFT learner is untouched
    as long as the mechanism is in the profit phase. *)
Theorem learners_after_rounds
    (T : Z) (env : Environment) (st0 : GFTMax.t) (n : nat) (st : GFTMax.t) :
  GFTMax.init T env = Ok st0 ->
  rounds GFTMax_class 0 n st0 st ->
  GFTMax.hedge_profit st
  = update_weights_seq (Hedge.init (GFTMax.price_grid_F st0) T)
      (valuations_upto env n)
  /\
  (GFTMax.run_profit_max st = true ->
   GFTMax.hedge_gft st = Hedge.init (GFTMax.price_grid_H st0) T).
Proof.
  intros Hinit Hrounds.
  destruct (init_fields T env st0 Hinit) as (_ & _ & _ & He & _ & HhF & HhH).
  split.
  - rewrite (rounds_profit_learner 0 n st0 st Hrounds), He, HhF. reflexivity.
  - intros Hflag.
    rewrite (rounds_gft_learner_untouched 0 n st0 st Hrounds Hflag). exact HhH.
Qed.

Lemma learners_after_rounds_witness :
  GFTMax.hedge_profit three_rounds_3
  = update_weights_seq (Hedge.init (GFTMax.price_grid_F three_rounds_0) 3)
      (valuations_upto three_rounds_env 3)
  /\
  (GFTMax.run_profit_max three_rounds_3 = true ->
   GFTMax.hedge_gft three_rounds_3
   = Hedge.init (GFTMax.price_grid_H three_rounds_0) 3).
Proof.
  apply (learners_after_rounds 3 three_rounds_env three_rounds_0 3
           three_rounds_3 init_three_rounds).
  apply three_rounds_run.
Defined.

(** ** Bounds that hold no action back *)

Lemma constrained_on_action_within_bounds
    (action : Expert) (i : nat) (st : GFTMax.t) :
  fst (get_constraints (GFTMax.environment st) i) <= fst action ->
  snd action <= snd (get_constraints (GFTMax.environment st) i) ->
  ConstrainedGFTMax.profit_max_on action i st = GFTMax.profit_max_on action i st /\
  ConstrainedGFTMax.gft_max_on action i st = GFTMax.gft_max_on action i st.
Proof.
  intros Hask Hbid.
  unfold ConstrainedGFTMax.profit_max_on, ConstrainedGFTMax.gft_max_on.
  destruct (get_constraints (GFTMax.environment st) i) as [s_dot b_dot].
  cbn [fst snd] in Hask, Hbid.
  rewrite (proj2 (Rltb_false (fst action) s_dot) Hask).
  rewrite (proj2 (Rltb_false b_dot (snd action)) Hbid).
  split; reflexivity.
Qed.

Lemma round_under_wide_bounds (i : nat) (st st' : GFTMax.t) :
  constructed st ->
  fst (get_constraints (GFTMax.environment st) i) <= 0 ->
  1 <= snd (get_constraints (GFTMax.environment st) i) ->
  round ConstrainedGFTMax_class i st st' <-> round GFTMax_class i st st'.
Proof.
  intros Hst Hlo Hhi. unfold round.
  destruct (GFTMax.run_profit_max st); cbn [profit_max gft_max
    GFTMax_class ConstrainedGFTMax_class];
    unfold ConstrainedGFTMax.profit_max, GFTMax.profit_max,
      ConstrainedGFTMax.gft_max, GFTMax.gft_max;
    split; intros (action & Hdraw & ->); exists action; (split; [exact Hdraw |]).
  - destruct (drawn_by_profit_learner st action Hst Hdraw) as (H0 & _ & H1).
    apply constrained_on_action_within_bounds; lra.
  - destruct (drawn_by_profit_learner st action Hst Hdraw) as (H0 & _ & H1).
    symmetry. apply constrained_on_action_within_bounds; lra.
  - destruct (drawn_by_gft_learner st action Hst Hdraw) as (_ & H0 & Hlt & H1).
    apply constrained_on_action_within_bounds; lra.
  - destruct (drawn_by_gft_learner st action Hst Hdraw) as (_ & H0 & Hlt & H1).
    symmetry. apply constrained_on_action_within_bounds; lra.
Qed.

Lemma rounds_under_wide_bounds (env : Environment) (i n : nat) (st st' : GFTMax.t) :
  (forall j, fst (get_constraints env j) <= 0 /\ 1 <= snd (get_constraints env j)) ->
  constructed st ->
  GFTMax.environment st = env ->
  rounds ConstrainedGFTMax_class i n st st' <-> rounds GFTMax_class i n st st'.
Proof.
  intros Hwide. revert i st.
  induction n as [| n IH]; intros i st Hst Henv.
  - split; intros H; inversion H; subst; constructor.
  - assert (Hlo : fst (get_constraints (GFTMax.environment st) i) <= 0)
      by (rewrite Henv; apply Hwide).
    assert (Hhi : 1 <= snd (get_constraints (GFTMax.environment st) i))
      by (rewrite Henv; apply Hwide).
    split; intros H; inversion H as [| i' n' s1 s2 s3 Hround Hrounds]; subst.
    + apply (round_under_wide_bounds i st s2 Hst Hlo Hhi) in Hround.
      apply (rounds_next GFTMax_class i n st s2 st'); [exact Hround |].
      apply IH; [| | exact Hrounds].
      * exact (round_constructed GFTMax_class i st s2
                 (or_introl eq_refl) Hst Hround).
      * destruct (round_same_configuration GFTMax_class i st s2
                    (or_introl eq_refl) Hround) as (_ & _ & _ & He & _).
        congruence.
    + assert (Hround' := proj2 (round_under_wide_bounds i st s2 Hst Hlo Hhi) Hround).
      apply (rounds_next ConstrainedGFTMax_class i n st s2 st'); [exact Hround' |].
      apply IH; [| | exact Hrounds].
      * exact (round_constructed GFTMax_class i st s2
                 (or_introl eq_refl) Hst Hround).
      * destruct (round_same_configuration GFTMax_class i st s2
                    (or_introl eq_refl) Hround) as (_ & _ & _ & He & _).
        congruence.
Qed.

(** X19.  When the bounds of every round contain the unit interval
    ([s_dot <= 0] and [1 <= b_dot]), no drawn action is ever rescaled: the
    runs of [ConstrainedGFTMax] from a constructed mechanism are exactly the
    runs of [GFTMax], round by round and to the end. *)
Theorem wide_bounds_make_the_constrained_run_plain
    (T : Z) (env : Environment) (st0 : GFTMax.t) :
  GFTMax.init T env = Ok st0 ->
  (forall j, fst (get_constraints env j) <= 0 /\ 1 <= snd (get_constraints env j)) ->
  (forall (n : nat) (st : GFTMax.t),
      rounds ConstrainedGFTMax_class 0 n st0 st <-> rounds GFTMax_class 0 n st0 st)
  /\
  (forall st : GFTMax.t,
      run ConstrainedGFTMax_class st0 st <-> run GFTMax_class st0 st).
Proof.
  intros Hinit Hwide.
  destruct (init_fields T env st0 Hinit) as (_ & _ & _ & Henv & _).
  pose proof (proj1 (init_constructed T env st0 Hinit)) as Hst0.
  split.
  - intros n st. now apply (rounds_under_wide_bounds env).
  - intros st. unfold run. now apply (rounds_under_wide_bounds env).
Qed.

Lemma wide_bounds_make_the_constrained_run_plain_witness :
  run ConstrainedGFTMax_class three_rounds_0 three_rounds_3.
Proof.
  destruct (wide_bounds_make_the_constrained_run_plain 3 three_rounds_env
              three_rounds_0 init_three_rounds) as [_ Hrun].
  - intros j. cbn. lra.
  - apply Hrun. apply three_rounds_run.
Defined.

(** ** The gft of the mechanism and the accumulator of the drawn expert *)

(** X20.  Take a round of [GFTMax] in which the learner of the phase draws
    its row [e], the action.  What the round adds to the gft of the
    mechanism is what the drawn action realizes for the valuations of the
    round, and it is exactly what [update_weights] adds, in that learner, to
    the accumulator of row [e]. *)
Theorem mechanism_gft_matches_drawn_expert
    (action : Expert) (e : nat) (g : R) (i : nat) (st st' : GFTMax.t) :
  nth_error
    (Hedge.experts (drawing_learner (GFTMax.run_profit_max st) st)) e
    = Some action ->
  nth_error
    (Hedge.gft (drawing_learner (GFTMax.run_profit_max st) st)) e
    = Some g ->
  st' = (if GFTMax.run_profit_max st
         then GFTMax.profit_max_on action i st
         else GFTMax.gft_max_on action i st) ->
  GFTMax.gft st' - GFTMax.gft st
  = spec_realized
      (fst (get_valuations (GFTMax.environment st) i))
      (snd (get_valuations (GFTMax.environment st) i)) action /\
  nth_error
    (Hedge.gft (drawing_learner (GFTMax.run_profit_max st) st')) e
    = Some (g + (GFTMax.gft st' - GFTMax.gft st)).
Proof.
  intros Hx Hg ->.
  destruct (GFTMax.run_profit_max st); cbn [drawing_learner] in *.
  - destruct (profit_max_on_accounts action i st) as [_ Hgft].
    destruct (profit_max_on_learners action i st) as [Hlearner _].
    rewrite Hlearner, Hgft. split; [ring |].
    rewrite (update_weights_gft _ _ _ e action g Hx Hg). f_equal. ring.
  - destruct (gft_max_on_accounts action i st) as [_ Hgft].
    destruct (gft_max_on_learners action i st) as [_ Hlearner].
    rewrite Hlearner, Hgft. split; [ring |].
    rewrite (update_weights_gft _ _ _ e action g Hx Hg). f_equal. ring.
Qed.

Lemma three_rounds_0_constructed : constructed three_rounds_0.
Proof. apply (init_constructed 3 three_rounds_env), init_three_rounds. Qed.

Lemma mechanism_gft_matches_drawn_expert_witness :
  GFTMax.gft three_rounds_1 - GFTMax.gft three_rounds_0
  = spec_realized
      (fst (get_valuations (GFTMax.environment three_rounds_0) 0))
      (snd (get_valuations (GFTMax.environment three_rounds_0) 0)) (0, 1) /\
  nth_error
    (Hedge.gft
       (drawing_learner (GFTMax.run_profit_max three_rounds_0) three_rounds_1)) 1
    = Some (0 + (GFTMax.gft three_rounds_1 - GFTMax.gft three_rounds_0)).
Proof.
  apply (mechanism_gft_matches_drawn_expert (0, 1) 1 0 0
           three_rounds_0 three_rounds_1); reflexivity.
Defined.

(** ** The profit phase under bounds *)

Lemma committed_ordered (action : Expert) (bounds : R * R) :
  0 <= fst action ->
  fst action <= snd action ->
  snd action <= 1 ->
  0 <= snd bounds - fst bounds <= 1 ->
  fst (committed action bounds) <= snd (committed action bounds).
Proof.
  intros H0 Hab H1 Hd. unfold committed.
  destruct (Rltb (fst action) (fst bounds) || Rltb (snd bounds) (snd action)).
  - apply (rescale_action_ordered action (fst bounds) (snd bounds)); assumption.
  - exact Hab.
Qed.

(** X22.  In a run of [ConstrainedGFTMax], a round of the profit phase
    whose bounds are at most 1 apart ([0 <= b_dot - s_dot <= 1]) lowers
    neither the budget nor the gft, whether the drawn action is rescaled or
    not: the committed action still asks at most what it bids. *)
Theorem constrained_profit_round_monotone
    (T : Z) (env : Environment) (st0 : GFTMax.t) (n : nat) (st st' : GFTMax.t) :
  GFTMax.init T env = Ok st0 ->
  rounds ConstrainedGFTMax_class 0 n st0 st ->
  round ConstrainedGFTMax_class n st st' ->
  GFTMax.run_profit_max st = true ->
  0 <= snd (get_constraints env n) - fst (get_constraints env n) <= 1 ->
  GFTMax.budget st <= GFTMax.budget st' /\
  GFTMax.gft st <= GFTMax.gft st'.
Proof.
  intros Hinit Hrounds Hround Hflag Hbounds.
  destruct (reached_is_constructed ConstrainedGFTMax_class T env st0 n st
              (or_intror eq_refl) Hinit Hrounds) as (Hst & Henv & _).
  unfold round in Hround. rewrite Hflag in Hround.
  destruct Hround as (action & Hdraw & ->).
  destruct (drawn_by_profit_learner st action Hst Hdraw) as (H0 & Hab & H1).
  destruct (constrained_profit_max_on_accounts action n st) as [Hbudget Hgft].
  rewrite Hbudget, Hgft, Henv.
  pose proof (committed_ordered action (get_constraints env n) H0 Hab H1 Hbounds)
    as Hc.
  pose proof (spec_realized_nonneg (fst (get_valuations env n))
                (snd (get_valuations env n))
                (committed action (get_constraints env n)) (or_intror Hc)).
  assert (0 <= budget_gain (committed action (get_constraints env n))
                 (get_valuations env n)).
  { unfold budget_gain. destruct (spec_feasible _ _ _); lra. }
  lra.
Qed.

Lemma constrained_profit_round_monotone_witness :
  GFTMax.budget three_rounds_0
    <= GFTMax.budget (ConstrainedGFTMax.profit_max_on (0, 1) 0 three_rounds_0) /\
  GFTMax.gft three_rounds_0
    <= GFTMax.gft (ConstrainedGFTMax.profit_max_on (0, 1) 0 three_rounds_0).
Proof.
  apply (constrained_profit_round_monotone 3 three_rounds_env three_rounds_0 0
           three_rounds_0
           (ConstrainedGFTMax.profit_max_on (0, 1) 0 three_rounds_0)
           init_three_rounds).
  - apply rounds_done.
  - unfold round. cbn.
    exists (0, 1). split; [| reflexivity].
    apply choose_action_any; [apply init_wf | cbn; tauto].
  - reflexivity.
  - cbn. lra.
Defined.

(** ** What a constrained round commits *)

Lemma committed_passes_the_test (action : Expert) (bounds : R * R) :
  0 <= fst action ->
  snd action <= 1 ->
  fst bounds <= fst (committed action bounds) /\
  snd (committed action bounds) <= snd bounds.
Proof.
  intros H0 H1. unfold committed.
  destruct (Rltb (fst action) (fst bounds)) eqn:Ea;
    [apply Rltb_true in Ea | apply Rltb_false in Ea];
    (destruct (Rltb (snd bounds) (snd action)) eqn:Eb;
     [apply Rltb_true in Eb | apply Rltb_false in Eb]);
    cbn [orb]; try (split; assumption);
    unfold ConstrainedGFTMax.rescale_action; cbn [fst snd];
    pose proof (pow2_ge_0 (snd bounds - fst bounds)) as Hsq;
    split; nra.
Qed.

Section ConstrainedRoundLearners.

Variables (action : Expert) (i : nat) (st : GFTMax.t).

Let feedback : R * R := get_valuations (GFTMax.environment st) i.
Let bounds : R * R := get_constraints (GFTMax.environment st) i.

Let update (h : Hedge.t) : Hedge.t :=
  if Rltb (fst action) (fst bounds) || Rltb (snd bounds) (snd action)
  then Hedge.update_weights_with_rescaling h (fst feedback) (snd feedback)
         (fst bounds) (snd bounds)
  else Hedge.update_weights h (fst feedback) (snd feedback).

Lemma constrained_profit_max_on_learners :
  GFTMax.hedge_profit (ConstrainedGFTMax.profit_max_on action i st)
  = update (GFTMax.hedge_profit st) /\
  GFTMax.hedge_gft (ConstrainedGFTMax.profit_max_on action i st)
  = GFTMax.hedge_gft st.
Proof.
  unfold update, feedback, bounds, ConstrainedGFTMax.profit_max_on.
  destruct (get_constraints (GFTMax.environment st) i) as [s_dot b_dot].
  cbn [fst snd]. round_cases; split; reflexivity.
Qed.

Lemma constrained_gft_max_on_learners :
  GFTMax.hedge_profit (ConstrainedGFTMax.gft_max_on action i st)
  = update (GFTMax.hedge_profit st) /\
  GFTMax.hedge_gft (ConstrainedGFTMax.gft_max_on action i st)
  = update (GFTMax.hedge_gft st).
Proof.
  unfold update, feedback, bounds, ConstrainedGFTMax.gft_max_on.
  destruct (get_constraints (GFTMax.environment st) i) as [s_dot b_dot].
  cbn [fst snd]. round_cases; split; reflexivity.
Qed.

(** The accumulator of an expert after the update of a constrained round
    grows by what the expert's committed row realizes. *)
Lemma constrained_update_gft (h : Hedge.t) (e : nat) (g : R) :
  nth_error (Hedge.experts h) e = Some action ->
  nth_error (Hedge.gft h) e = Some g ->
  nth_error (Hedge.gft (update h)) e
  = Some (g + spec_realized (fst feedback) (snd feedback)
                (committed action bounds)).
Proof.
  intros Hx Hg. unfold update, committed.
  destruct (Rltb (fst action) (fst bounds) || Rltb (snd bounds) (snd action)).
  - now apply update_weights_with_rescaling_gft.
  - now apply update_weights_gft.
Qed.

End ConstrainedRoundLearners.

(** X23.  Every round of [ConstrainedGFTMax] on a constructed mechanism
    settles the accounts with a committed action that passes the test of the
    round, [s_dot <= ask] and [bid <= b_dot], for any bounds: the drawn
    action when it passes, its rescaled pair when it does not. *)
Theorem constrained_round_commits_within_the_test (i : nat) (st st' : GFTMax.t) :
  constructed st ->
  round ConstrainedGFTMax_class i st st' ->
  exists c : Expert,
    fst (get_constraints (GFTMax.environment st) i) <= fst c /\
    snd c <= snd (get_constraints (GFTMax.environment st) i) /\
    GFTMax.budget st'
    = GFTMax.budget st
      + budget_gain c (get_valuations (GFTMax.environment st) i) /\
    GFTMax.gft st'
    = GFTMax.gft st
      + spec_realized (fst (get_valuations (GFTMax.environment st) i))
          (snd (get_valuations (GFTMax.environment st) i)) c.
Proof.
  intros Hst Hround. unfold round in Hround.
  destruct (GFTMax.run_profit_max st);
    destruct Hround as (action & Hdraw & ->);
    exists (committed action (get_constraints (GFTMax.environment st) i)).
  - destruct (drawn_by_profit_learner st action Hst Hdraw) as (H0 & _ & H1).
    destruct (committed_passes_the_test action
                (get_constraints (GFTMax.environment st) i) H0 H1) as [Hlo Hhi].
    destruct (constrained_profit_max_on_accounts action i st) as [Hb Hg].
    repeat split; assumption.
  - destruct (drawn_by_gft_learner st action Hst Hdraw) as (_ & H0 & Hlt & H1).
    destruct (committed_passes_the_test action
                (get_constraints (GFTMax.environment st) i)
                ltac:(lra) ltac:(lra)) as [Hlo Hhi].
    destruct (constrained_gft_max_on_accounts action i st) as [Hb Hg].
    repeat split; assumption.
Qed.

Lemma constrained_round_commits_within_the_test_witness :
  exists c : Expert,
    fst (get_constraints (GFTMax.environment three_rounds_0) 0) <= fst c /\
    snd c <= snd (get_constraints (GFTMax.environment three_rounds_0) 0) /\
    GFTMax.budget (ConstrainedGFTMax.profit_max_on (0, 1) 0 three_rounds_0)
    = GFTMax.budget three_rounds_0
      + budget_gain c (get_valuations (GFTMax.environment three_rounds_0) 0) /\
    GFTMax.gft (ConstrainedGFTMax.profit_max_on (0, 1) 0 three_rounds_0)
    = GFTMax.gft three_rounds_0
      + spec_realized
          (fst (get_valuations (GFTMax.environment three_rounds_0) 0))
          (snd (get_valuations (GFTMax.environment three_rounds_0) 0)) c.
Proof.
  apply (constrained_round_commits_within_the_test 0 three_rounds_0
           (ConstrainedGFTMax.profit_max_on (0, 1) 0 three_rounds_0)
           three_rounds_0_constructed).
  unfold round. cbn.
  exists (0, 1). split; [| reflexivity].
  apply choose_action_any; [apply init_wf | cbn; tauto].
Defined.

(** X24.  Take a round of [ConstrainedGFTMax] in which the learner of the
    phase draws its row [e], the action.  Rescaled or not, what the round
    adds to the gft of the mechanism is what the committed action realizes
    for the valuations of the round, and it is exactly what the update of
    the round adds, in that learner, to the accumulator of row [e]: the
    experts are judged under the transform applied to the committed
    action. *)
Theorem constrained_gft_matches_drawn_expert
    (action : Expert) (e : nat) (g : R) (i : nat) (st st' : GFTMax.t) :
  nth_error
    (Hedge.experts (drawing_learner (GFTMax.run_profit_max st) st)) e
    = Some action ->
  nth_error
    (Hedge.gft (drawing_learner (GFTMax.run_profit_max st) st)) e
    = Some g ->
  st' = (if GFTMax.run_profit_max st
         then ConstrainedGFTMax.profit_max_on action i st
         else ConstrainedGFTMax.gft_max_on action i st) ->
  GFTMax.gft st' - GFTMax.gft st
  = spec_realized
      (fst (get_valuations (GFTMax.environment st) i))
      (snd (get_valuations (GFTMax.environment st) i))
      (committed action (get_constraints (GFTMax.environment st) i)) /\
  nth_error
    (Hedge.gft (drawing_learner (GFTMax.run_profit_max st) st')) e
    = Some (g + (GFTMax.gft st' - GFTMax.gft st)).
Proof.
  intros Hx Hg ->.
  destruct (GFTMax.run_profit_max st); cbn [drawing_learner] in *.
  - destruct (constrained_profit_max_on_accounts action i st) as [_ Hgft].
    destruct (constrained_profit_max_on_learners action i st) as [Hlearner _].
    rewrite Hlearner, Hgft. split; [ring |].
    rewrite (constrained_update_gft action i st _ e g Hx Hg). f_equal. ring.
  - destruct (constrained_gft_max_on_accounts action i st) as [_ Hgft].
    destruct (constrained_gft_max_on_learners action i st) as [_ Hlearner].
    rewrite Hlearner, Hgft. split; [ring |].
    rewrite (constrained_update_gft action i st _ e g Hx Hg). f_equal. ring.
Qed.

Lemma constrained_gft_matches_drawn_expert_witness :
  GFTMax.gft (ConstrainedGFTMax.profit_max_on (0, 1) 0 three_rounds_0)
  - GFTMax.gft three_rounds_0
  = spec_realized
      (fst (get_valuations (GFTMax.environment three_rounds_0) 0))
      (snd (get_valuations (GFTMax.environment three_rounds_0) 0))
      (committed (0, 1) (get_constraints (GFTMax.environment three_rounds_0) 0)) /\
  nth_error
    (Hedge.gft
       (drawing_learner (GFTMax.run_profit_max three_rounds_0)
          (ConstrainedGFTMax.profit_max_on (0, 1) 0 three_rounds_0))) 1
    = Some (0 + (GFTMax.gft
                   (ConstrainedGFTMax.profit_max_on (0, 1) 0 three_rounds_0)
                 - GFTMax.gft three_rounds_0)).
Proof.
  apply (constrained_gft_matches_drawn_expert (0, 1) 1 0 0 three_rounds_0
           (ConstrainedGFTMax.profit_max_on (0, 1) 0 three_rounds_0));
    reflexivity.
Defined.

(** ** Runs return *)

Lemma ln_4_le_3 : ln (1 + 1 + 1 + 1) <= 3.
Proof.
  rewrite <- (ln_exp 3).
  destruct (exp_ineq1_le 3) as [Hlt | Heq].
  - left. apply ln_increasing; lra.
  - right. f_equal. lra.
Qed.

Lemma exp_le_mono (x y : R) : x <= y -> exp x <= exp y.
Proof.
  intros [Hlt | ->]; [left; now apply exp_increasing | right; reflexivity].
Qed.

Lemma Rinv_INR_nonneg (n : nat) : 0 <= / INR n.
Proof.
  destruct n as [| n].
  - simpl. rewrite Rinv_0. lra.
  - left. apply Rinv_0_lt_compat, lt_0_INR. lia.
Qed.

Lemma weights_within_mono (c c' : R) (h : Hedge.t) :
  c <= c' -> weights_within c h -> weights_within c' h.
Proof.
  intros Hc. unfold weights_within. apply Forall_impl. intros w [Hlo Hhi].
  pose proof (Rinv_INR_nonneg (Hedge.no_experts h)) as HN.
  pose proof (exp_le_mono (- c') (- c) ltac:(lra)) as H1.
  pose proof (exp_le_mono c c' Hc) as H2.
  unfold Rdiv in *. split.
  - apply Rle_trans with (2 := Hlo). apply Rmult_le_compat_r; assumption.
  - apply Rle_trans with (1 := Hhi). apply Rmult_le_compat_r; assumption.
Qed.

(** One update multiplies a weight by [exp (- epsilon * loss)], and a loss
    is at most 1 in absolute value. *)
Lemma weight_step (c eps l w N : R) :
  0 <= N -> 0 <= eps -> -1 <= l <= 1 ->
  exp (- c) * N <= w <= exp c * N ->
  exp (- (c + eps)) * N <= w * exp (- eps * l) <= exp (c + eps) * N.
Proof.
  intros HN Heps Hl [Hlo Hhi].
  replace (- (c + eps)) with (- c + - eps) by ring.
  rewrite !exp_plus.
  pose proof (exp_pos (- c)) as P1. pose proof (exp_pos c) as P2.
  pose proof (exp_pos (- eps)) as P3. pose proof (exp_pos (- eps * l)) as P4.
  pose proof (exp_le_mono (- eps) (- eps * l) ltac:(nra)) as H1.
  pose proof (exp_le_mono (- eps * l) eps ltac:(nra)) as H2.
  assert (Hw : 0 <= w) by nra.
  split.
  - replace (exp (- c) * exp (- eps) * N) with (exp (- c) * N * exp (- eps))
      by ring.
    apply Rmult_le_compat; nra.
  - replace (exp c * exp eps * N) with (exp c * N * exp eps) by ring.
    apply Rmult_le_compat; nra.
Qed.

(** An update whose entries are those of [update_weights] on some rows. *)
Lemma entries_within
    (h h' : Hedge.t) (row : Expert -> Expert) (fb : R * R) (c : R) :
  Hedge.wf h -> Hedge.wf h' ->
  Hedge.no_experts h' = Hedge.no_experts h ->
  (forall (e : nat) (x : Expert) (w : R),
      nth_error (Hedge.experts h) e = Some x ->
      nth_error (Hedge.weights h) e = Some w ->
      nth_error (Hedge.weights h') e
      = Some (w * exp (- Hedge.epsilon h * spec_loss (fst fb) (snd fb) (row x)))) ->
  0 <= Hedge.epsilon h ->
  in_unit_square fb ->
  weights_within c h ->
  weights_within (c + Hedge.epsilon h) h'.
Proof.
  intros (He & Hw & _) (_ & Hw' & _) HN Hentries Heps Hfb Hc.
  unfold weights_within in *. rewrite HN.
  rewrite Forall_forall in Hc. apply Forall_forall. intros w' Hin.
  apply In_nth_error in Hin. destruct Hin as [e Hin].
  assert (Hlt : (e < Hedge.no_experts h)%nat).
  { rewrite <- HN, <- Hw'. apply nth_error_Some. congruence. }
  destruct (nth_error_in_range (Hedge.experts h) e ltac:(lia)) as [x Hx].
  destruct (nth_error_in_range (Hedge.weights h) e ltac:(lia)) as [w Hwe].
  rewrite (Hentries e x w Hx Hwe) in Hin. injection Hin as <-.
  apply weight_step.
  - apply Rinv_INR_nonneg.
  - exact Heps.
  - apply spec_loss_in_unit_square, Hfb.
  - apply Hc. eapply nth_error_In, Hwe.
Qed.

Lemma update_weights_within (h : Hedge.t) (fb : R * R) (c : R) :
  Hedge.wf h -> 0 <= Hedge.epsilon h -> in_unit_square fb ->
  weights_within c h ->
  weights_within (c + Hedge.epsilon h)
    (Hedge.update_weights h (fst fb) (snd fb)).
Proof.
  intros Hwf. apply (entries_within h _ (fun x => x)); auto.
  - now apply update_weights_wf.
  - intros e x w. apply update_weights_weight.
Qed.

Lemma update_weights_with_rescaling_within
    (h : Hedge.t) (fb : R * R) (s_dot b_dot c : R) :
  Hedge.wf h -> 0 <= Hedge.epsilon h -> in_unit_square fb ->
  weights_within c h ->
  weights_within (c + Hedge.epsilon h)
    (Hedge.update_weights_with_rescaling h (fst fb) (snd fb) s_dot b_dot).
Proof.
  intros Hwf.
  apply (entries_within h _
           (fun x => ConstrainedGFTMax.rescale_action x s_dot b_dot)); auto.
  - now apply update_weights_with_rescaling_wf.
  - intros e x w. apply update_weights_with_rescaling_weight.
Qed.

(** A fresh learner has the weights [1 / no_experts]. *)
Lemma init_within (experts : list Expert) (T : Z) :
  weights_within 0 (Hedge.init experts T).
Proof.
  unfold weights_within. cbn [Hedge.init Hedge.weights Hedge.no_experts].
  apply Forall_forall. intros w Hin. apply in_map_iff in Hin.
  destruct Hin as (one & <- & Hone). apply repeat_spec in Hone. subst one.
  rewrite Ropp_0, exp_0. lra.
Qed.

(** A round updates each learner at most once. *)
Lemma round_learners_within
    (M : Mechanism) (i n : nat) (st st' : GFTMax.t) :
  M = GFTMax_class \/ M = ConstrainedGFTMax_class ->
  constructed st ->
  0 <= Hedge.epsilon (GFTMax.hedge_profit st) ->
  0 <= Hedge.epsilon (GFTMax.hedge_gft st) ->
  in_unit_square (get_valuations (GFTMax.environment st) i) ->
  round M i st st' ->
  learners_within n st -> learners_within (S n) st'.
Proof.
  intros HM (_ & _ & _ & _ & _ & HwF & HwH) HeF HeH Hfb Hround [HF HH].
  assert (HF' : forall h',
             h' = Hedge.update_weights (GFTMax.hedge_profit st)
                    (fst (get_valuations (GFTMax.environment st) i))
                    (snd (get_valuations (GFTMax.environment st) i)) \/
             (exists s_dot b_dot,
                 h' = Hedge.update_weights_with_rescaling
                        (GFTMax.hedge_profit st)
                        (fst (get_valuations (GFTMax.environment st) i))
                        (snd (get_valuations (GFTMax.environment st) i))
                        s_dot b_dot) ->
             weights_within (INR (S n) * Hedge.epsilon h') h').
  { intros h' [-> | (s_dot & b_dot & ->)];
      cbn [Hedge.update_weights Hedge.update_weights_with_rescaling
           Hedge.epsilon];
      rewrite S_INR, Rmult_plus_distr_r, Rmult_1_l;
      [now apply update_weights_within
      | now apply update_weights_with_rescaling_within]. }
  assert (HH' : forall h',
             h' = GFTMax.hedge_gft st \/
             h' = Hedge.update_weights (GFTMax.hedge_gft st)
                    (fst (get_valuations (GFTMax.environment st) i))
                    (snd (get_valuations (GFTMax.environment st) i)) \/
             (exists s_dot b_dot,
                 h' = Hedge.update_weights_with_rescaling
                        (GFTMax.hedge_gft st)
                        (fst (get_valuations (GFTMax.environment st) i))
                        (snd (get_valuations (GFTMax.environment st) i))
                        s_dot b_dot) ->
             weights_within (INR (S n) * Hedge.epsilon h') h').
  { intros h' [-> | [-> | (s_dot & b_dot & ->)]];
      cbn [Hedge.update_weights Hedge.update_weights_with_rescaling
           Hedge.epsilon];
      rewrite S_INR, Rmult_plus_distr_r, Rmult_1_l;
      [ apply (weights_within_mono
                 (INR n * Hedge.epsilon (GFTMax.hedge_gft st))); [lra | exact HH]
      | now apply update_weights_within
      | now apply update_weights_with_rescaling_within ]. }
  unfold round in Hround. unfold learners_within.
  destruct HM as [-> | ->], (GFTMax.run_profit_max st);
    destruct Hround as (action & _ & ->).
  - destruct (profit_max_on_learners action i st) as [-> ->].
    split; [apply HF' | apply HH']; auto.
  - destruct (gft_max_on_learners action i st) as [-> ->].
    split; [apply HF' | apply HH']; auto.
  - destruct (constrained_profit_max_on_learners action i st) as [-> ->].
    split; [apply HF' | apply HH']; auto.
    destruct (Rltb _ _ || Rltb _ _); eauto.
  - destruct (constrained_gft_max_on_learners action i st) as [-> ->].
    split; [apply HF' | apply HH'];
      destruct (Rltb _ _ || Rltb _ _); eauto.
Qed.

Lemma rounds_learners_within
    (M : Mechanism) (i n : nat) (st st' : GFTMax.t) :
  M = GFTMax_class \/ M = ConstrainedGFTMax_class ->
  rounds M i n st st' ->
  forall k : nat,
    constructed st ->
    0 <= Hedge.epsilon (GFTMax.hedge_profit st) ->
    0 <= Hedge.epsilon (GFTMax.hedge_gft st) ->
    (forall j : nat,
        (i <= j < i + n)%nat ->
        in_unit_square (get_valuations (GFTMax.environment st) j)) ->
    learners_within k st -> learners_within (k + n) st'.
Proof.
  intros HM Hrounds.
  induction Hrounds as [i st | i n st st' st'' Hround _ IH];
    intros k Hst HeF HeH Hfb Hk.
  - now rewrite Nat.add_0_r.
  - destruct (round_same_configuration M i st st' HM Hround)
      as (_ & _ & _ & Henv & _ & _ & _ & HeF' & _ & HeH').
    replace (k + S n)%nat with (S k + n)%nat by lia.
    apply IH.
    + exact (round_constructed M i st st' HM Hst Hround).
    + now rewrite HeF'.
    + now rewrite HeH'.
    + intros j Hj. rewrite Henv. apply Hfb. lia.
    + apply (round_learners_within M i k st st'); auto. apply Hfb. lia.
Qed.

(** X21.  Take a mechanism returned by the constructor whose valuations lie
    in the unit square in every round and whose two learners have a rate
    with [epsilon * T <= 600].  Then [run] completes, for [GFTMax] and for
    [ConstrainedGFTMax], and in every state of the run every weight of
    either learner lies between [exp (-600) / N] and [exp 600 / N]: the
    exponents of [np.exp] stay in the range of the floats, and in each of
    the [T] rounds the learner of the phase has an expert of positive
    probability to draw. *)
Theorem run_returns
    (M : Mechanism) (T : Z) (env : Environment) (st0 : GFTMax.t) :
  M = GFTMax_class \/ M = ConstrainedGFTMax_class ->
  GFTMax.init T env = Ok st0 ->
  (forall i : nat,
      (i < Z.to_nat T)%nat -> in_unit_square (get_valuations env i)) ->
  Hedge.epsilon (GFTMax.hedge_profit st0) * IZR T <= 600 ->
  Hedge.epsilon (GFTMax.hedge_gft st0) * IZR T <= 600 ->
  (exists st : GFTMax.t, run M st0 st) /\
  (forall (n : nat) (st : GFTMax.t),
      (n <= Z.to_nat T)%nat ->
      rounds M 0 n st0 st ->
      weights_within 600 (GFTMax.hedge_profit st) /\
      weights_within 600 (GFTMax.hedge_gft st)).
Proof.
  intros HM Hinit Hfb HrF HrH.
  split; [now apply (run_exists M T env st0) |].
  intros n st Hn Hrounds.
  destruct (init_fields T env st0 Hinit) as (_ & _ & _ & Henv & _ & HhF & HhH).
  pose proof (init_horizon_positive T env st0 Hinit) as HT.
  assert (HeF : 0 <= Hedge.epsilon (GFTMax.hedge_profit st0))
    by (rewrite HhF; apply sqrt_pos).
  assert (HeH : 0 <= Hedge.epsilon (GFTMax.hedge_gft st0))
    by (rewrite HhH; apply sqrt_pos).
  assert (H0 : learners_within 0 st0).
  { unfold learners_within. cbn [INR]. rewrite !Rmult_0_l, HhF, HhH.
    split; apply init_within. }
  destruct (rounds_learners_within M 0 n st0 st HM Hrounds 0
              (proj1 (init_constructed T env st0 Hinit)) HeF HeH) as [HF HH];
    [intros j Hj; rewrite Henv; apply Hfb; lia | exact H0 |].
  destruct (rounds_same_configuration M 0 n st0 st HM Hrounds)
    as (_ & _ & _ & _ & _ & _ & _ & HeF' & _ & HeH').
  rewrite HeF' in HF. rewrite HeH' in HH. cbn [Nat.add] in HF, HH.
  assert (HnT : INR n <= IZR T).
  { rewrite INR_IZR_INZ. apply IZR_le. lia. }
  split; [apply (weights_within_mono _ 600 _) in HF
         | apply (weights_within_mono _ 600 _) in HH]; try assumption; nra.
Qed.

Lemma run_returns_witness :
  (exists st : GFTMax.t, run GFTMax_class three_rounds_0 st) /\
  (forall (n : nat) (st : GFTMax.t),
      (n <= Z.to_nat 3)%nat ->
      rounds GFTMax_class 0 n three_rounds_0 st ->
      weights_within 600 (GFTMax.hedge_profit st) /\
      weights_within 600 (GFTMax.hedge_gft st)).
Proof.
  apply (run_returns GFTMax_class 3 three_rounds_env three_rounds_0
           (or_introl eq_refl) init_three_rounds).
  - intros i _. unfold in_unit_square. cbn.
    destruct (i <=? 1)%nat; cbn; lra.
  - cbn [three_rounds_0 GFTMax.hedge_profit Hedge.epsilon Hedge.init
         grid_F_1 length INR].
    assert (H : ln (1 + 1 + 1 + 1) / 3 <= 1)
      by (pose proof ln_4_le_3; lra).
    apply sqrt_le_1_alt in H. rewrite sqrt_1 in H. lra.
  - cbn [three_rounds_0 GFTMax.hedge_gft Hedge.epsilon Hedge.init
         grid_H_1 length INR].
    rewrite ln_1. unfold Rdiv. rewrite Rmult_0_l, sqrt_0. lra.
Defined.
